(** * The KCMC instance-generation coordinator

    A shallow embedding of [src/instance_generator_driver.py]: the worker
    that claims blocks of seeds through expiring keys of a shared Redis
    store, drives the external instance generator and sweeps the catalog of
    configurations until a sweep reports no work.

    The Python code is translated function by function.  The Redis server,
    the clock and the generator executable are the environment; they are
    modelled by a state ([world]) threaded through an error-and-state monad.
    Time is counted in milliseconds. *)

From stdpp Require Import gmap strings list pretty.
From Stdlib Require Import ZArith Lia Ascii.

Local Open Scope Z_scope.

(** ** Python built-ins used by the driver *)

Module Py.

(** [str(n)] for an [int]. *)
Definition str (n : Z) : string := pretty n.

(** [range(start, stop, step)] for a positive [step]. *)
Fixpoint range_from (start step : Z) (n : nat) : list Z :=
  match n with
  | O => []
  | S n' => start :: range_from (start + step) step n'
  end.

Definition range (start stop step : Z) : list Z :=
  range_from start step (Z.to_nat ((stop - start + step - 1) `div` step)).

(** Slice bounds are clamped to the list, negative ones count from the end. *)
Definition clamp (len i : Z) : Z :=
  if bool_decide (i < 0) then Z.max 0 (len + i) else Z.min len i.

(** [xs[a:b]] *)
Definition slice {A} (xs : list A) (a b : Z) : list A :=
  let len := Z.of_nat (length xs) in
  let a' := clamp len a in
  let b' := clamp len b in
  take (Z.to_nat (b' - a')) (drop (Z.to_nat a') xs).

(** The characters [str.strip()] and [int()] treat as blanks, within ASCII:
    TAB, LF, VT, FF, CR, FS, GS, RS, US and the space. *)
Definition is_space (c : ascii) : bool :=
  let n := Z.of_nat (nat_of_ascii c) in
  bool_decide (9 <= n <= 13) || bool_decide (28 <= n <= 32).

Fixpoint lstrip (s : string) : string :=
  match s with
  | EmptyString => EmptyString
  | String c s' => if is_space c then lstrip s' else s
  end.

(** [rstrip] keeps a character when it is not a blank or when something
    that is kept follows it. *)
Fixpoint rstrip (s : string) : string :=
  match s with
  | EmptyString => EmptyString
  | String c s' =>
      match rstrip s' with
      | EmptyString => if is_space c then EmptyString else String c EmptyString
      | r => String c r
      end
  end.

Definition strip (s : string) : string := rstrip (lstrip s).

(** [str.lower()] on ASCII letters. *)
Definition lower_char (c : ascii) : ascii :=
  let n := nat_of_ascii c in
  if bool_decide (65 <= n <= 90)%nat then ascii_of_nat (n + 32) else c.

Fixpoint lower (s : string) : string :=
  match s with
  | EmptyString => EmptyString
  | String c s' => String (lower_char c) (lower s')
  end.

(** [s.replace(old, new)] where [old] and [new] are single characters. *)
Fixpoint replace_char (old new : ascii) (s : string) : string :=
  match s with
  | EmptyString => EmptyString
  | String c s' =>
      String (if bool_decide (c = old) then new else c) (replace_char old new s')
  end.

(** [s.split(sep)] with an explicit one-character separator: empty fields
    are kept, and the empty string gives one empty field. *)
Fixpoint split (sep : ascii) (s : string) : list string :=
  match s with
  | EmptyString => [EmptyString]
  | String c s' =>
      if bool_decide (c = sep) then EmptyString :: split sep s'
      else match split sep s' with
           | [] => [String c EmptyString]
           | w :: ws => String c w :: ws
           end
  end.

(** Iterating over a string yields its one-character substrings. *)
Fixpoint chars (s : string) : list string :=
  match s with
  | EmptyString => []
  | String c s' => String c EmptyString :: chars s'
  end.

(** [a.issubset(it)]: every element of [a] occurs among the items of the
    iterable [it]. *)
Definition issubset (a it : list string) : bool :=
  forallb (fun x => bool_decide (x ∈ it)) a.

Definition digit (c : ascii) : option Z :=
  let n := Z.of_nat (nat_of_ascii c) in
  if bool_decide (48 <= n <= 57) then Some (n - 48) else None.

(** The digits of a decimal literal; single underscores may separate
    digits.  [acc] is the value read so far and [prev] tells whether the
    previous character was a digit. *)
Fixpoint digits (s : string) (acc : Z) (prev : bool) : option Z :=
  match s with
  | EmptyString => if prev then Some acc else None
  | String c s' =>
      match digit c with
      | Some d => digits s' (10 * acc + d) true
      | None =>
          if bool_decide (c = "_"%char) && prev then digits s' acc false
          else None
      end
  end.

(** [int(s)] for an ASCII [str]: blanks around, an optional sign, decimal
    digits.  [None] stands for [ValueError].  The bound that recent
    interpreters put on the number of digits is left out. *)
Definition int (s : string) : option Z :=
  match strip s with
  | String "-" s' => Z.opp <$> digits s' 0 false
  | String "+" s' => digits s' 0 false
  | s' => digits s' 0 false
  end.

End Py.

(** ** The shared store

    The commands of the Redis server that the driver issues.  String keys
    (the locks) carry an optional expiry instant; a key whose instant has
    passed is gone for every command, as on the server, where a key is
    expired once the clock is strictly past the instant.  Hashes (the
    instance and evaluation maps) never expire here.  Lock keys begin with
    [LOCK:] and hash keys with [INSTANCE:] or [EVALUATION:], so the two
    kinds are kept in two maps. *)

Module Redis.

Record entry := Entry { value : string; deadline : option Z }.

Record db := Db {
  strings : gmap string entry;
  hashes : gmap string (gmap string string)
}.

Definition empty : db := Db ∅ ∅.

Definition live (now : Z) (e : entry) : bool :=
  match deadline e with
  | None => true
  | Some d => bool_decide (now <= d)
  end.

(** The entry of [key] as the server sees it at instant [now]. *)
Definition find (now : Z) (key : string) (d : db) : option entry :=
  match strings d !! key with
  | Some e => if live now e then Some e else None
  | None => None
  end.

(** [SETNX key val]: set only when the key does not exist; no expiry. *)
Definition setnx (now : Z) (key val : string) (d : db) : db * bool :=
  match find now key d with
  | Some _ => (d, false)
  | None => (Db (<[key := Entry val None]> (strings d)) (hashes d), true)
  end.

(** [EXPIRE key seconds]: an existing key expires [seconds] from now, and
    is deleted at once when [seconds] is not positive. *)
Definition expire (now : Z) (key : string) (seconds : Z) (d : db) : db * bool :=
  match find now key d with
  | Some e =>
      if bool_decide (seconds <= 0)
      then (Db (delete key (strings d)) (hashes d), true)
      else (Db (<[key := Entry (value e) (Some (now + seconds * 1000))]>
                  (strings d))
               (hashes d), true)
  | None => (d, false)
  end.

(** [MULTI; SETNX key val; EXPIRE key seconds; EXEC]: both commands run at
    one instant with nothing in between; the replies are returned in
    order. *)
Definition setnx_expire (now : Z) (key val : string) (seconds : Z) (d : db)
  : db * (bool * bool) :=
  let '(d1, r1) := setnx now key val d in
  let '(d2, r2) := expire now key seconds d1 in
  (d2, (r1, r2)).

(** [DEL key] *)
Definition del (key : string) (d : db) : db :=
  Db (delete key (strings d)) (delete key (hashes d)).

Definition hash (key : string) (d : db) : gmap string string :=
  default ∅ (hashes d !! key).

(** [HLEN key] *)
Definition hlen (key : string) (d : db) : Z := Z.of_nat (size (hash key d)).

(** [HEXISTS key field] *)
Definition hexists (key field : string) (d : db) : bool :=
  bool_decide (is_Some (hash key d !! field)).

(** [HSET key field val] *)
Definition hset (key field val : string) (d : db) : db :=
  Db (strings d) (<[key := <[field := val]> (hash key d)]> (hashes d)).

(** Remaining time to live of a key, in milliseconds ([PTTL]); [None] when
    the key does not exist or has no expiry. *)
Definition pttl (now : Z) (key : string) (d : db) : option Z :=
  match find now key d with
  | Some e => (fun t => t - now) <$> deadline e
  | None => None
  end.

End Redis.

(** ** The world of one worker process *)

Inductive exn :=
| ConnectionError (msg : string)
| ValueError (msg : string)
| UnicodeDecodeError (msg : string)
| UnboundLocalError (msg : string)
| OSError (msg : string).

(** [str(exp)] *)
Definition exn_str (e : exn) : string :=
  match e with
  | ConnectionError m | ValueError m | UnicodeDecodeError m
  | UnboundLocalError m | OSError m => m
  end.

(** What a worker does to its environment, in the order it does it. *)
Inductive event :=
| EvLock (key : string) (acquired : bool)
| EvWrite (instance_key evaluation_key field instance evaluation : string)
| EvDelete (key : string)
| EvSpawn (argv : list string)
| EvReadline (line : string)
| EvWait (status : Z)
| EvPrint (line : string)
| EvSleep (ms : Z)
| EvTraceback (e : exn).

(** [faults] is the schedule of the failures of the environment to come:
    every round trip to the store and every start of a child process takes
    the next item, and fails with it when it is an exception. *)
Record world := World {
  now : Z;
  store : Redis.db;
  faults : list (option exn);
  trace : list event
}.

Definition set_store (d : Redis.db) (w : world) : world :=
  World (now w) d (faults w) (trace w).

Definition log (ev : event) (w : world) : world :=
  World (now w) (store w) (faults w) (trace w ++ [ev]).

(** Computations that may raise and that change the world. *)
Definition M (A : Type) : Type := world -> (exn + A) * world.

Definition ret {A} (a : A) : M A := fun w => (inr a, w).

Definition raise {A} (e : exn) : M A := fun w => (inl e, w).

Definition bind {A B} (m : M A) (k : A -> M B) : M B :=
  fun w =>
    match m w with
    | (inr a, w') => k a w'
    | (inl e, w') => (inl e, w')
    end.

(** [try: m except Exception as exp: h exp] *)
Definition try_except {A} (m : M A) (h : exn -> M A) : M A :=
  fun w =>
    match m w with
    | (inr a, w') => (inr a, w')
    | (inl e, w') => h e w'
    end.

Notation "'let*' x := m 'in' k" := (bind m (fun x => k))
  (at level 10, x pattern, m at level 100, k at level 200, only parsing).

Definition emit (ev : event) : M unit := fun w => (inr tt, log ev w).

(** [print(...)] *)
Definition print (line : string) : M unit := emit (EvPrint line).

(** [time.sleep(s)], with the duration in milliseconds. *)
Definition sleep (ms : Z) : M unit :=
  fun w =>
    (inr tt,
     World (now w + ms) (store w) (faults w) (trace w ++ [EvSleep ms])).

(** [time.time_ns()] *)
Definition time_ns : M Z := fun w => (inr (now w * 1000000), w).

(** One round trip to the store. *)
Definition roundtrip : M unit :=
  fun w =>
    match faults w with
    | Some e :: fs => (inl e, World (now w) (store w) fs (trace w))
    | None :: fs => (inr tt, World (now w) (store w) fs (trace w))
    | [] => (inr tt, w)
    end.

(** One request to the operating system to start a program.  The system can
    refuse it ([FileNotFoundError], [PermissionError] and the other
    [OSError]s); as for a round trip, the outcome is the next item of the
    schedule. *)
Definition exec_request : M unit := roundtrip.

(** ** The driver: [instance_generator_driver.py] *)

Definition LOCK_TIME : Z := 10000.
Definition BLOCK_SIZE : Z := 20.
Definition HEAT_UP_TIME : Z := 30.

(** The [limit] given to [create_subprocess_exec]: 512 KiB. *)
Definition READ_LIMIT : Z := 1024 * 512.

(** A child process: the lines it still has to deliver on its standard
    output, without their terminators, and its exit status. *)
Record proc := Proc { stdout : list string; returncode : Z }.

(** *** Store commands as the driver issues them *)

(** [await redis.hlen(key)] *)
Definition hlen (key : string) : M Z :=
  let* _ := roundtrip in fun w => (inr (Redis.hlen key (store w)), w).

(** [await redis.hexists(key, field)] *)
Definition hexists (key field : string) : M bool :=
  let* _ := roundtrip in fun w => (inr (Redis.hexists key field (store w)), w).

(** The pipeline of lines 31-37: [SETNX] and [EXPIRE] in one transaction.
    The result is the reply of [SETNX]. *)
Definition lock_pipeline (lock : string) : M bool :=
  let* stamp := time_ns in
  let* _ := roundtrip in
  fun w =>
    let '(d, (has_lock, _)) :=
      Redis.setnx_expire (now w) lock (Py.str stamp) LOCK_TIME (store w) in
    (inr has_lock, log (EvLock lock has_lock) (set_store d w)).

(** The pipeline of lines 74-79: both [HSET]s in one transaction. *)
Definition write_pipeline (instance_key evaluation_key field out_instance
                           out_evaluation : string) : M unit :=
  let* _ := roundtrip in
  fun w =>
    let d := Redis.hset evaluation_key field out_evaluation
               (Redis.hset instance_key field out_instance (store w)) in
    (inr tt,
     log (EvWrite instance_key evaluation_key field out_instance out_evaluation)
         (set_store d w)).

(** [await redis.delete(key)] *)
Definition delete_key (key : string) : M unit :=
  let* _ := roundtrip in
  fun w => (inr tt, log (EvDelete key) (set_store (Redis.del key (store w)) w)).

(** *** The child's output *)

(** [await proc.stdout.readline()]: the next line, or the empty string at
    the end of the stream; a line longer than the limit is a [ValueError].
    The stream reader words that error in one of two ways, by whether the
    end of the line had arrived when the limit was found exceeded; this
    depends on how the output of the child arrives, which is not modelled.
    The wording kept here is the one for a line that has arrived whole, and
    no statement below depends on the wording. *)
Definition readline (p : proc) : M (string * proc) :=
  match stdout p with
  | [] => let* _ := emit (EvReadline "") in ret ("", p)
  | l :: ls =>
      if bool_decide (READ_LIMIT < Z.of_nat (String.length l))
      then raise (ValueError "Separator is found, but chunk is longer than limit")
      else let* _ := emit (EvReadline l) in ret (l, Proc ls (returncode p))
  end.

Fixpoint is_ascii (s : string) : bool :=
  match s with
  | EmptyString => true
  | String c s' => bool_decide (nat_of_ascii c < 128)%nat && is_ascii s'
  end.

(** The first byte of [s] that is not ASCII, with its position counted from
    [pos]. *)
Fixpoint first_non_ascii (s : string) (pos : nat) : nat * ascii :=
  match s with
  | EmptyString => (pos, "000"%char)
  | String c s' =>
      if bool_decide (nat_of_ascii c < 128)%nat then first_non_ascii s' (S pos)
      else (pos, c)
  end.

Definition hex_digit (n : nat) : ascii :=
  default "0"%char (String.get n "0123456789abcdef").

(** The message of the [UnicodeDecodeError] of [raw.decode('ascii')]. *)
Definition decode_error (raw : string) : string :=
  let '(pos, c) := first_non_ascii raw 0 in
  "'ascii' codec can't decode byte 0x"
  +:+ String (hex_digit (nat_of_ascii c / 16)%nat)
        (String (hex_digit (nat_of_ascii c mod 16)%nat) "")
  +:+ " in position " +:+ Py.str (Z.of_nat pos)
  +:+ ": ordinal not in range(128)".

(** [raw.decode('ascii')] *)
Definition decode_ascii (raw : string) : M string :=
  if is_ascii raw then ret raw
  else raise (UnicodeDecodeError (decode_error raw)).

(** *** [generate_instances] *)

Definition config_suffix (num_pois num_sensors num_sinks area_side covg_radius
                          comm_radius : Z) : string :=
  Py.str num_pois +:+ ":" +:+ Py.str num_sensors +:+ ":" +:+ Py.str num_sinks
  +:+ ":" +:+ Py.str area_side +:+ ":" +:+ Py.str covg_radius +:+ ":"
  +:+ Py.str comm_radius.

Definition lock_key (block : Z) (instance_key : string) : string :=
  "LOCK:BLOCK" +:+ Py.str block +:+ ":" +:+ instance_key.

(** The variables the [for] loop of lines 30-39 leaves behind: [block],
    [lock] and [has_lock], the last one unbound until the first iteration. *)
Definition scan_state : Type := Z * option string * option bool.

(** The [for block in range(...)] loop, on the blocks still to visit. *)
Fixpoint scan_blocks (instance_key : string) (blocks : list Z) (st : scan_state)
  : M scan_state :=
  match blocks with
  | [] => ret st
  | block :: rest =>
      let lock := lock_key block instance_key in
      let* has_lock := lock_pipeline lock in
      if has_lock : bool then ret (block, Some lock, Some true)
      else let* _ := sleep 50 in
           scan_blocks instance_key rest (block, Some lock, Some false)
  end.

(** The comprehension of lines 46-49 over the seeds of the slice. *)
Fixpoint missing_seeds (instance_key : string) (seeds : list Z) : M (list Z) :=
  match seeds with
  | [] => ret []
  | rseed :: rest =>
      let* present := hexists instance_key (Py.str rseed) in
      let* others := missing_seeds instance_key rest in
      ret (if present : bool then others else rseed :: others)
  end.

(** The [for num, expected_seed in enumerate(to_generate)] loop. *)
Fixpoint read_pairs (instance_key evaluation_key : string) (to_generate : list Z)
    (p : proc) : M proc :=
  match to_generate with
  | [] => ret p
  | expected_seed :: rest =>
      let* (raw_instance, p1) := readline p in
      let* out_instance := decode_ascii raw_instance in
      let out_instance := Py.strip out_instance in
      let* (raw_evaluation, p2) := readline p1 in
      let* out_evaluation := decode_ascii raw_evaluation in
      let out_evaluation := Py.strip out_evaluation in
      let* _ := write_pipeline instance_key evaluation_key
                  (Py.str expected_seed) out_instance out_evaluation in
      read_pairs instance_key evaluation_key rest p2
  end.

Section Driver.

(** [/app/instance_generator]: from the arguments to the lines written on
    the standard output and the exit status. *)
Variable instance_generator : list string -> list string * Z.

(** [asyncio.create_subprocess_exec('/app/instance_generator', *args)]:
    the start of the child can fail; when it succeeds the child runs
    [instance_generator] on the arguments. *)
Definition create_subprocess_exec (args : list string) : M proc :=
  let* _ := exec_request in
  let* _ := emit (EvSpawn args) in
  let '(out, status) := instance_generator args in
  ret (Proc out status).

(** [await proc.wait()] *)
Definition wait (p : proc) : M Z :=
  let* _ := emit (EvWait (returncode p)) in ret (returncode p).

Definition generate_instances (random_seeds : list Z) (k_range m_range
    num_pois num_sensors num_sinks area_side covg_radius comm_radius
    target_instances : Z) : M (Z * Z) :=
  let suffix := config_suffix num_pois num_sensors num_sinks area_side
                  covg_radius comm_radius in
  let instance_key := "INSTANCE:" +:+ suffix in
  let evaluation_key := "EVALUATION:" +:+ suffix in
  let* existing_instances := hlen instance_key in
  if bool_decide (existing_instances >= target_instances)
  then ret (existing_instances, 0)
  else
    let* (block, lock, has_lock) :=
      scan_blocks instance_key (Py.range 0 target_instances BLOCK_SIZE)
        (0, None, None) in
    match has_lock with
    | None =>
        raise (UnboundLocalError
                 "local variable 'has_lock' referenced before assignment")
    | Some false => ret (existing_instances, -1)
    | Some true =>
        let* _ := print ("GOT LOCK :: " +:+ instance_key +:+ " ::> "
                         +:+ Py.str block) in
        let* to_generate :=
          missing_seeds instance_key
            (Py.slice random_seeds (Z.max block existing_instances)
               target_instances) in
        if bool_decide (length to_generate = 0%nat)
        then ret (existing_instances, -2)
        else
          let* p :=
            create_subprocess_exec
              (map Py.str ([k_range; m_range; num_pois; num_sensors;
                            num_sinks; area_side; covg_radius; comm_radius]
                           ++ to_generate)) in
          let* p' := read_pairs instance_key evaluation_key to_generate p in
          let* _ := wait p' in
          let* count := hlen instance_key in
          let* _ := delete_key (default "" lock) in
          ret (count, Z.of_nat (length to_generate))
    end.

End Driver.

(** *** The script under [if __name__ == '__main__'] *)

(** [int(s)], raising [ValueError]. *)
Definition int (s : string) : M Z :=
  match Py.int s with
  | Some n => ret n
  | None =>
      raise (ValueError ("invalid literal for int() with base 10: '" +:+ s +:+ "'"))
  end.

(** [[int(i) for i in tokens if len(i) > 0]] *)
Fixpoint ints_of_tokens (tokens : list string) : M (list Z) :=
  match tokens with
  | [] => ret []
  | i :: rest =>
      if bool_decide (0 < String.length i)%nat
      then let* n := int i in
           let* ns := ints_of_tokens rest in
           ret (n :: ns)
      else ints_of_tokens rest
  end.

(** Lines 102-104, from the text of [/data/random_seeds.txt]: the text cut
    at spaces, tabs and newlines, then the integers of the pieces that are
    not empty, without duplicates.  The order in which a Python [set] is
    listed is not specified; here it is the order of [elements], and nothing
    below depends on which order it is. *)
Definition seed_tokens (text : string) : list string :=
  Py.split " " (Py.replace_char "010" " " (Py.replace_char "009" " " text)).

Definition read_seeds (text : string) : M (list Z) :=
  let* parsed := ints_of_tokens (seed_tokens text) in
  ret (elements (list_to_set parsed : gset Z)).

(** [tuple(list(map(int, map(lambda i: i.strip(), line))))] *)
Fixpoint ints_of_fields (line : list string) : M (list Z) :=
  match line with
  | [] => ret []
  | i :: rest =>
      let* n := int (Py.strip i) in
      let* ns := ints_of_fields rest in
      ret (n :: ns)
  end.

(** Lines 107-112, from the rows that [csv.reader] yields: [i] is the index
    of the row. *)
Fixpoint read_configs (i : nat) (rows : list (list string)) : M (list (list Z)) :=
  match rows with
  | [] => ret []
  | line :: rest =>
      match i with
      | O => read_configs (S i) rest
      | S _ =>
          let* cfg := ints_of_fields line in
          let* cfgs := read_configs (S i) rest in
          ret (cfg :: cfgs)
      end
  end.

(** The test of line 130 on the caught exception. *)
Definition is_transient (exp : exn) : bool :=
  Py.issubset ["connection"; "reset"; "peer"]
    (Py.chars (Py.strip (Py.lower (exn_str exp)))).

(** Whether the [while] loop was left, or was still running when the fuel
    of the model ran out. *)
Inductive progress := Finished | Unfinished.

Section Script.

Variable instance_generator : list string -> list string * Z.
Variables (random_seeds : list Z) (k_range m_range target_instances : Z).

(** The body of the [for] loop of line 118 for one configuration:
    lines 119-132. *)
Definition run_config (num_pois num_sensors num_sinks area_side covg_radius
                       comm_radius : Z) (run_again : bool) : M bool :=
  try_except
    (let* (previous_work, current_work) :=
       generate_instances instance_generator random_seeds k_range m_range
         num_pois num_sensors num_sinks area_side covg_radius comm_radius
         target_instances in
     let* _ := print (">>>> KCMC:"
                      +:+ config_suffix num_pois num_sensors num_sinks
                            area_side covg_radius comm_radius
                      +:+ " " +:+ Py.str previous_work
                      +:+ " " +:+ Py.str current_work) in
     ret (run_again || negb (bool_decide (current_work = 0))))
    (fun exp =>
       if is_transient exp
       then let* _ := sleep (10 * 1000) in ret run_again
       else raise exp).

(** The [for] loop of line 118; unpacking a row that has not six fields
    raises. *)
Fixpoint sweep (configs : list (list Z)) (run_again : bool) : M bool :=
  match configs with
  | [] => ret run_again
  | cfg :: rest =>
      match cfg with
      | [num_pois; num_sensors; num_sinks; area_side; covg_radius; comm_radius] =>
          let* run_again' :=
            run_config num_pois num_sensors num_sinks area_side covg_radius
              comm_radius run_again in
          sweep rest run_again'
      | _ =>
          raise (ValueError
                   (if bool_decide (length cfg < 6)%nat
                    then "not enough values to unpack (expected 6, got "
                         +:+ pretty (length cfg) +:+ ")"
                    else "too many values to unpack (expected 6)"))
      end
  end.

(** The [while run_again] loop of lines 115-132, for at most [fuel]
    sweeps. *)
Fixpoint convergence_loop (configs_to_run : list (list Z)) (fuel : nat)
  : M progress :=
  match fuel with
  | O => ret Unfinished
  | S fuel' =>
      let* run_again := sweep configs_to_run false in
      if run_again : bool then convergence_loop configs_to_run fuel'
      else ret Finished
  end.

End Script.

(** How the process ends: with an exit status, or not within the fuel. *)
Inductive outcome := Exit (status : Z) | Running.

Section Main.

Variable instance_generator : list string -> list string * Z.

(** Lines 93-132: [seeds_text] is the content of the seed file, [csv_rows]
    the rows of the configuration file, [argv2] to [argv4] the arguments
    after the name of that file. *)
Definition script (seeds_text : string) (csv_rows : list (list string))
    (argv2 argv3 argv4 : string) (fuel : nat) : M progress :=
  let* _ := sleep (HEAT_UP_TIME * 1000) in
  let* target_instances := int argv2 in
  let* k_range := int argv3 in
  let* m_range := int argv4 in
  let* random_seeds := read_seeds seeds_text in
  let* configs_to_run := read_configs 0 csv_rows in
  convergence_loop instance_generator random_seeds k_range m_range
    target_instances configs_to_run fuel.

(** Lines 92-135: the script inside [try], [traceback.print_exc()] in the
    handler.  An exception that leaves the script ends the interpreter
    with status 1, a script that runs to its end with status 0. *)
Definition main (seeds_text : string) (csv_rows : list (list string))
    (argv2 argv3 argv4 : string) (fuel : nat) (w : world) : outcome * world :=
  match try_except (script seeds_text csv_rows argv2 argv3 argv4 fuel)
          (fun exp => let* _ := emit (EvTraceback exp) in ret Finished) w with
  | (inr Finished, w') => (Exit 0, w')
  | (inr Unfinished, w') => (Running, w')
  | (inl _, w') => (Exit 1, w')
  end.

End Main.

(** ** Several workers on one store

    Workers are separate processes: each has its own trace and its own
    connection, and they share the store and the clock.  The server runs the
    transactions of all of them one after the other. *)

(** The holder of [key] at instant [t]: the value of the live entry. *)
Definition holder (t : Z) (key : string) (d : Redis.db) : option string :=
  Redis.value <$> Redis.find t key d.

(** One worker runs the pipeline of lines 31-37 at instant [t] on the store
    [d]; [None] stands for an exception. *)
Definition attempt (lock : string) (t : Z) (d : Redis.db) : Redis.db * option bool :=
  match lock_pipeline lock (World t d [] []) with
  | (inr has_lock, w') => (store w', Some has_lock)
  | (inl _, w') => (store w', None)
  end.

(** One attempt per worker on the same key, at the instants [times], in the
    order in which the server runs them. *)
Fixpoint contend (lock : string) (times : list Z) (d : Redis.db)
  : Redis.db * list (option bool) :=
  match times with
  | [] => (d, [])
  | t :: rest =>
      let '(d1, r) := attempt lock t d in
      let '(d2, rs) := contend lock rest d1 in
      (d2, r :: rs)
  end.

(** Each attempt comes no later than the time to live after the one
    before. *)
Fixpoint within_ttl (t : Z) (times : list Z) : Prop :=
  match times with
  | [] => True
  | t' :: rest => t' <= t + LOCK_TIME * 1000 /\ within_ttl t' rest
  end.

(** The instant of the last of the attempts at [t] and then at [times]. *)
Definition latest (t : Z) (times : list Z) : Z := foldl (fun _ t' => t') t times.

(** ** Concrete stores, generators and inputs used in the examples *)

(** A store in which another worker holds the lock of block 0 until
    instant 5000. *)
Definition held_store : Redis.db :=
  Redis.Db {[ "LOCK:BLOCK0:INSTANCE:1:2:3:4:5:6" :=
               Redis.Entry "other" (Some 5000) ]} ∅.

(** ** What a scan of the blocks leaves behind *)

(** The events of a scan that is refused on the blocks [refused] and then
    claims the block [claimed], if there is one. *)
Definition scan_events (instance_key : string) (refused : list Z)
    (claimed : option Z) : list event :=
  flat_map (fun b => [EvLock (lock_key b instance_key) false; EvSleep 50]) refused
  ++ match claimed with
     | Some b => [EvLock (lock_key b instance_key) true]
     | None => []
     end.

(** What a scan that starts at instant [t] on the store [d] finds, for a
    target [target]: it visits the block at position [i] of the range at
    the instant [t + 50 i].  Either every block of the range is held when
    it is visited, or the block at some position [n] is the first that is
    free when it is visited. *)
Definition all_held (instance_key : string) (target t : Z) (d : Redis.db)
  : Prop :=
  forall (i : nat) (b : Z),
    Py.range 0 target BLOCK_SIZE !! i = Some b ->
    is_Some (holder (t + 50 * Z.of_nat i) (lock_key b instance_key) d).

Definition first_free (instance_key : string) (target t : Z) (d : Redis.db)
    (n : nat) (block : Z) : Prop :=
  Py.range 0 target BLOCK_SIZE !! n = Some block
  /\ (forall (i : nat) (b : Z),
        (i < n)%nat -> Py.range 0 target BLOCK_SIZE !! i = Some b ->
        is_Some (holder (t + 50 * Z.of_nat i) (lock_key b instance_key) d))
  /\ holder (t + 50 * Z.of_nat n) (lock_key block instance_key) d = None.

(** The store after the lock transactions of a scan that visits the blocks
    [visited] from the instant [t] on, one every 50 ms: for each block the
    [SETNX] and the [EXPIRE] of lines 33-37 on the key of the block, with the
    instant of the attempt as value. *)
Fixpoint scanned_store (instance_key : string) (t : Z) (visited : list Z)
    (d : Redis.db) : Redis.db :=
  match visited with
  | [] => d
  | b :: rest =>
      scanned_store instance_key (t + 50) rest
        (Redis.setnx_expire t (lock_key b instance_key) (Py.str (t * 1000000))
           LOCK_TIME d).1
  end.

(** The variables after a scan of [blocks] that stopped at position [n]:
    with the lock of block [n] when there is such a block, without a lock
    and with the last block visited otherwise. *)
Definition scan_result (instance_key : string) (st : scan_state)
    (blocks : list Z) (n : nat) : scan_state :=
  match blocks !! n with
  | Some b => (b, Some (lock_key b instance_key), Some true)
  | None =>
      match last blocks with
      | Some b => (b, Some (lock_key b instance_key), Some false)
      | None => st
      end
  end.

(** ** What reading the child's output leaves behind *)

(** A line that [readline] and [decode('ascii')] accept. *)
Definition line_ok (l : string) : Prop :=
  Z.of_nat (String.length l) <= READ_LIMIT /\ is_ascii l = true.

(** Line [i] of the output, counted from 0; past the end of the stream
    [readline] gives the empty string. *)
Definition line (out : list string) (i : nat) : string := default "" (out !! i).

(** The seeds paired with the lines of the output, two lines per seed. *)
Fixpoint pair_up (seeds : list Z) (out : list string) : list (Z * (string * string)) :=
  match seeds with
  | [] => []
  | s :: rest => (s, (line out 0, line out 1)) :: pair_up rest (drop 2 out)
  end.

(** The events of reading one pair and writing it. *)
Definition pair_events (instance_key evaluation_key : string)
    (p : Z * (string * string)) : list event :=
  [EvReadline p.2.1; EvReadline p.2.2;
   EvWrite instance_key evaluation_key (Py.str p.1) (Py.strip p.2.1)
     (Py.strip p.2.2)].

(** The store after the write of one pair. *)
Definition write_pair (instance_key evaluation_key : string) (d : Redis.db)
    (p : Z * (string * string)) : Redis.db :=
  Redis.hset evaluation_key (Py.str p.1) (Py.strip p.2.2)
    (Redis.hset instance_key (Py.str p.1) (Py.strip p.2.1) d).

(** The seeds of [seeds] that have no instance record in [d]. *)
Definition absent_seeds (instance_key : string) (d : Redis.db) (seeds : list Z)
  : list Z :=
  filter (fun s => Redis.hexists instance_key (Py.str s) d = false) seeds.

(** ** The keys and the generator's arguments of a configuration *)

Definition instance_key_of (num_pois num_sensors num_sinks area_side covg_radius
                            comm_radius : Z) : string :=
  "INSTANCE:" +:+ config_suffix num_pois num_sensors num_sinks area_side
                    covg_radius comm_radius.

Definition evaluation_key_of (num_pois num_sensors num_sinks area_side
                              covg_radius comm_radius : Z) : string :=
  "EVALUATION:" +:+ config_suffix num_pois num_sensors num_sinks area_side
                      covg_radius comm_radius.

(** The arguments of the generator for the seeds [to_generate]. *)
Definition generator_args (k_range m_range num_pois num_sensors num_sinks
    area_side covg_radius comm_radius : Z) (to_generate : list Z) : list string :=
  map Py.str ([k_range; m_range; num_pois; num_sensors; num_sinks; area_side;
               covg_radius; comm_radius] ++ to_generate).

(** An event that is neither a lock attempt nor the start of a child. *)
Definition quiet (ev : event) : Prop :=
  match ev with
  | EvLock _ _ | EvSpawn _ => False
  | _ => True
  end.

(** An event that is not a lock attempt. *)
Definition not_lock (ev : event) : Prop :=
  match ev with
  | EvLock _ _ => False
  | _ => True
  end.

(** A generator that writes nothing and exits with status 1. *)
Definition silent_generator (args : list string) : list string * Z := ([], 1).

(** A generator that writes, for each seed, a line [I<seed>] followed by
    blanks and a line [E<seed>], and exits with status 0. *)
Definition echo_generator (args : list string) : list string * Z :=
  (flat_map (fun s => ["I" +:+ s +:+ "  "; "E" +:+ s]) (drop 8 args), 0).

(** A world with an empty store and no failure to come, at instant 0. *)
Definition fresh_world : world := World 0 Redis.empty [] [].

(** A world at instant 4000 whose store is [held_store]. *)
Definition contended_world : world := World 4000 held_store [] [].

(** A seed universe of fifty seeds: 100, 101, ..., 149. *)
Definition fifty_seeds : list Z := Py.range_from 100 1 50.

(** A world whose first round trip to the store fails as a connection reset
    by the peer does. *)
Definition reset_world : world :=
  World 0 Redis.empty [Some (ConnectionError "Connection reset by peer")] [].

(** A world in which the generator cannot be started: the four round trips
    of the first call before it succeed, then the executable is missing. *)
Definition missing_generator_world : world :=
  World 0 Redis.empty
    [None; None; None; None;
     Some (OSError "[Errno 2] No such file or directory: '/app/instance_generator'")]
    [].

(** The connection-reset-like signature as the claim has it, against which
    [is_transient] is compared: the words [connection], [reset] and [peer]
    are all among the words of the message of the error, in any case. *)
Definition reset_signature (exp : exn) : bool :=
  Py.issubset ["connection"; "reset"; "peer"]
    (Py.split " " (Py.strip (Py.lower (exn_str exp)))).

(** The rows of a configuration file with a header and two configurations. *)
Definition two_config_rows : list (list string) :=
  [["pois"; "sensors"; "sinks"; "area"; "covg"; "comm"];
   ["1"; "2"; "3"; "4"; "5"; "6"];
   ["6"; "5"; "4"; "3"; "2"; "1"]].

(** Whether the character [c] occurs in [s]. *)
Fixpoint occurs (c : ascii) (s : string) : bool :=
  match s with
  | EmptyString => false
  | String c' s' => bool_decide (c' = c) || occurs c s'
  end.

(** The rows of a configuration file whose last field is not a number. *)
Definition bad_rows : list (list string) :=
  [["pois"; "sensors"; "sinks"; "area"; "covg"; "comm"];
   ["1"; "2"; "3"; "4"; "5"; "six"]].

(** A seed source whose third piece is not a number. *)
Definition bad_seeds : string := "11 12 x7 13".

(** An event that is not the write of a pair of records. *)
Definition not_write (ev : event) : Prop :=
  match ev with
  | EvWrite _ _ _ _ _ => False
  | _ => True
  end.

(** ** Stores between two calls of a single worker *)

(** No failure to come, no lock, and the instance map of every
    configuration either empty or holding [target] records. *)
Definition settled (target : Z) (w : world) : Prop :=
  faults w = []
  /\ Redis.strings (store w) = ∅
  /\ forall p s k a c r : Z,
       Redis.hash (instance_key_of p s k a c r) (store w) = ∅
       \/ Redis.hlen (instance_key_of p s k a c r) (store w) = target.

(** The row is a configuration whose instance map holds [target] records. *)
Definition complete (target : Z) (d : Redis.db) (cfg : list Z) : Prop :=
  match cfg with
  | [p; s; k; a; c; r] => Redis.hlen (instance_key_of p s k a c r) d = target
  | _ => False
  end.

(** The world after the first sweep of a worker that starts on an empty
    store with the single seed 7, a target of 2 and one configuration. *)
Definition after_first_sweep : world :=
  (sweep echo_generator [7] 1 1 2 [[1; 2; 3; 4; 5; 6]] false fresh_world).2.

(** A generator that writes the same two lines for each seed and exits with
    status 0. *)
Definition constant_generator (args : list string) : list string * Z :=
  (flat_map (fun _ => ["instance"; "evaluation"]) (drop 8 args), 0).

(** ** What a run leaves in the store *)

(** The key of the instance map or of the evaluation map of some
    configuration. *)
Definition record_key (key : string) : Prop :=
  exists p s k a c r : Z,
    key = instance_key_of p s k a c r \/ key = evaluation_key_of p s k a c r.

(** The store [d] is the store [d0] after the writes of some pairs of records
    of one configuration, each for a seed that had no instance record in
    [d0]; only the maps of records are compared. *)
Definition batch_written (instance_key evaluation_key : string)
    (d0 d : Redis.db) : Prop :=
  exists pairs : list (Z * (string * string)),
    Forall (fun pr => Redis.hash instance_key d0 !! Py.str pr.1 = None) pairs
    /\ forall key : string, record_key key ->
         Redis.hash key d
         = Redis.hash key (foldl (write_pair instance_key evaluation_key) d0 pairs).

(** In every configuration the seeds that have an instance record are those
    that have an evaluation record. *)
Definition pairs_consistent (d : Redis.db) : Prop :=
  forall p s k a c r : Z,
    dom (Redis.hash (instance_key_of p s k a c r) d)
    = dom (Redis.hash (evaluation_key_of p s k a c r) d).

(** Every instance record of [d] is in [d'], with the same payload. *)
Definition instances_kept (d d' : Redis.db) : Prop :=
  forall (p s k a c r : Z) (field payload : string),
    Redis.hash (instance_key_of p s k a c r) d !! field = Some payload ->
    Redis.hash (instance_key_of p s k a c r) d' !! field = Some payload.

(** The relation [R] holds between the store before and the store after the
    computation [m], however it ends. *)
Definition relates {A} (R : Redis.db -> Redis.db -> Prop) (m : M A) : Prop :=
  forall w : world, R (store w) (store (m w).2).

(** The keys of the locks that the events [evs] record as claimed. *)
Definition claims (evs : list event) : list string :=
  omap (fun ev => match ev with EvLock key true => Some key | _ => None end) evs.

(** The argument lists with which the events [evs] record the start of a
    generator. *)
Definition spawns (evs : list event) : list (list string) :=
  omap (fun ev => match ev with EvSpawn args => Some args | _ => None end) evs.

(** A lock that stays claimed: [key] is in the store with an expiry instant
    one [LOCK_TIME] after the instant [t]. *)
Definition lock_left (t : Z) (key : string) (d : Redis.db) : Prop :=
  exists stamp : string,
    Redis.strings d !! key = Some (Redis.Entry stamp (Some (t + LOCK_TIME * 1000))).

(** The computation [m] raises only an exception in [P] or one of the
    failures of the schedule that it consumes, and a value it returns is in
    [Q]. *)
Definition raises_only (P : exn -> Prop) {A} (Q : A -> Prop) (m : M A) : Prop :=
  forall w : world,
    exists used : list (option exn),
      faults w = used ++ faults (m w).2
      /\ match (m w).1 with
         | inl e => P e \/ Some e ∈ used
         | inr a => Q a
         end.

(** The exception that a line of the output of the generator causes: a
    [ValueError] for a line longer than the limit of [readline], a
    [UnicodeDecodeError] for a line that is not ASCII. *)
Definition bad_line (instance_generator : list string -> list string * Z)
    (e : exn) : Prop :=
  exists (args : list string) (l msg : string),
    l ∈ (instance_generator args).1
    /\ (e = ValueError msg /\ READ_LIMIT < Z.of_nat (String.length l)
        \/ e = UnicodeDecodeError msg /\ is_ascii l = false).

(** Every instance record of [d] is the record of a seed of [seeds]. *)
Definition records_within (seeds : list Z) (d : Redis.db) : Prop :=
  forall (p s k a c r : Z) (field : string),
    is_Some (Redis.hash (instance_key_of p s k a c r) d !! field) ->
    exists seed : Z, seed ∈ seeds /\ field = Py.str seed.

(** The row is a configuration with at least [target] instance records. *)
Definition reached (target : Z) (d : Redis.db) (cfg : list Z) : Prop :=
  match cfg with
  | [p; s; k; a; c; r] => target <= Redis.hlen (instance_key_of p s k a c r) d
  | _ => False
  end.

(** * Instances: [kcmc_instance.py]

    The class [KCMC_Instance] reads the serialized instances that the
    generator writes and that the driver stores.  Strings are ASCII, as
    everywhere here, and the [assert] statements are executed, as they are
    unless the interpreter runs with [-O]. *)

Module KCMC.

(** ** Strings *)

Definition upper_char (c : ascii) : ascii :=
  let n := nat_of_ascii c in
  if bool_decide (97 <= n <= 122)%nat then ascii_of_nat (n - 32) else c.

(** [s.upper()] *)
Fixpoint upper (s : string) : string :=
  match s with
  | EmptyString => EmptyString
  | String c s' => String (upper_char c) (upper s')
  end.

(** [s.startswith(prefix)] *)
Fixpoint startswith (prefix s : string) : bool :=
  match prefix, s with
  | EmptyString, _ => true
  | String _ _, EmptyString => false
  | String a prefix', String b s' => bool_decide (a = b) && startswith prefix' s'
  end.

(** [s.endswith(suffix)] *)
Fixpoint endswith (suffix s : string) : bool :=
  bool_decide (suffix = s)
  || match s with
     | EmptyString => false
     | String _ s' => endswith suffix s'
     end.

(** [sub in s] *)
Fixpoint contains (sub s : string) : bool :=
  startswith sub s
  || match s with
     | EmptyString => false
     | String _ s' => contains sub s'
     end.

(** [s.replace(old, new)] for a non-empty [old]: the occurrences of [old]
    are replaced from left to right, without overlap.  [skip] is the number
    of characters still to drop of the occurrence just replaced. *)
Fixpoint replace_from (old new s : string) (skip : nat) : string :=
  match s with
  | EmptyString => EmptyString
  | String c s' =>
      match skip with
      | S skip' => replace_from old new s' skip'
      | O =>
          if startswith old s
          then new +:+ replace_from old new s' (String.length old - 1)
          else String c (replace_from old new s' 0)
      end
  end.

Definition replace (old new s : string) : string := replace_from old new s 0.

(** ** Exceptions *)

Inductive exn :=
| AssertionError (msg : string)
| ValueError (msg : string)
| ExternalError (msg : string).

(** ** The graph of an instance *)

(** [_add_to(_dict, key, value)]: the set at [key], created empty when the
    key is new, gets [value]. *)
Definition _add_to `{Countable K} `{Countable V} (_dict : gmap K (gset V))
    (key : K) (value : V) : gmap K (gset V) :=
  let _dict := match _dict !! key with
               | None => <[key := ∅]> _dict
               | Some _ => _dict
               end in
  <[key := default ∅ (_dict !! key) ∪ {[value]}]> _dict.

(** The buffers that [parse_serialized_instance] fills. *)
Record buffers := Buffers {
  poi_sensor : gmap Z (gset Z);
  sensor_poi : gmap Z (gset Z);
  sensor_sensor : gmap Z (gset Z);
  sink_sensor : gmap Z (gset Z);
  sensor_sink : gmap Z (gset Z);
  edges : gmap string (gset string)
}.

Definition no_buffers : buffers := Buffers ∅ ∅ ∅ ∅ ∅ ∅.

(** [f'p{n}'], [f'i{n}'] and [f's{n}'] *)
Definition node (kind : string) (n : Z) : string := kind +:+ Py.str n.

(** [int(x)], raising [ValueError]; the message shows the text between
    quotes, where the interpreter shows its [repr]. *)
Definition int (x : string) : exn + Z :=
  match Py.int x with
  | Some n => inr n
  | None => inl (ValueError ("invalid literal for int() with base 10: '" +:+ x +:+ "'"))
  end.

(** [alpha, beta = map(int, parts)]: the unpacking takes the items of the
    lazy [map] one by one, so [int] runs on the first two parts, and on a
    third one when there is one, before the count is found wrong. *)
Definition unpack_pair (parts : list string) : exn + Z * Z :=
  match parts with
  | [] => inl (ValueError "not enough values to unpack (expected 2, got 0)")
  | x :: rest =>
      match int x with
      | inl e => inl e
      | inr alpha =>
          match rest with
          | [] => inl (ValueError "not enough values to unpack (expected 2, got 1)")
          | y :: rest' =>
              match int y with
              | inl e => inl e
              | inr beta =>
                  match rest' with
                  | [] => inr (alpha, beta)
                  | z :: _ =>
                      match int z with
                      | inl e => inl e
                      | inr _ =>
                          inl (ValueError "too many values to unpack (expected 2)")
                      end
                  end
              end
          end
      end
  end.

(** The body of the [for] loop of lines 137-166 for a token that is not a
    tag, under the tag [tag]: the new value of [is_expanded] and the
    buffers. *)
Definition add_edge (inactive_sensors : gset string) (tag : string)
    (alpha beta : Z) (is_expanded : bool) (b : buffers) : exn + bool * buffers :=
  if bool_decide (tag = "PI") then
    if bool_decide (node "i" beta ∈ inactive_sensors) then inr (is_expanded, b)
    else inr (true,
              Buffers (_add_to (poi_sensor b) alpha beta)
                      (_add_to (sensor_poi b) beta alpha)
                      (sensor_sensor b) (sink_sensor b) (sensor_sink b)
                      (_add_to (edges b) (node "p" alpha) (node "i" beta)))
  else if bool_decide (tag = "II") then
    if bool_decide (alpha = beta)
    then inl (AssertionError "SELF-DIRECTED EDGES ARE NOT SUPPORTED")
    else if bool_decide (node "i" alpha ∈ inactive_sensors
                         \/ node "i" beta ∈ inactive_sensors)
    then inr (is_expanded, b)
    else inr (true,
              Buffers (poi_sensor b) (sensor_poi b)
                      (_add_to (_add_to (sensor_sensor b) alpha beta) beta alpha)
                      (sink_sensor b) (sensor_sink b)
                      (_add_to (edges b) (node "i" alpha) (node "i" beta)))
  else if bool_decide (tag = "IS") then
    if bool_decide (node "i" alpha ∈ inactive_sensors) then inr (is_expanded, b)
    else inr (true,
              Buffers (poi_sensor b) (sensor_poi b) (sensor_sensor b)
                      (_add_to (sink_sensor b) beta alpha)
                      (_add_to (sensor_sink b) alpha beta)
                      (_add_to (edges b) (node "i" alpha) (node "s" beta)))
  else inl (AssertionError ("IMPOSSIBLE TAG " +:+ tag)).

(** The [for i, token in enumerate(instance[4:-1])] loop, on the tokens
    still to read; [i] is the index of the first of them. *)
Fixpoint read_tokens (inactive_sensors : gset string) (tokens : list string)
    (i : Z) (tag : option string) (is_expanded : bool) (b : buffers)
  : exn + bool * buffers :=
  match tokens with
  | [] => inr (is_expanded, b)
  | token :: rest =>
      if bool_decide (token ∈ ["PI"; "II"; "IS"])
      then read_tokens inactive_sensors rest (i + 1) (Some token) is_expanded b
      else
        match tag with
        | None =>
            inl (AssertionError ("INVALID TAG PARSING AT TOKEN "
                                 +:+ Py.str (i + 4) +:+ " - " +:+ token))
        | Some tg =>
            match unpack_pair (Py.split " " (Py.strip token)) with
            | inl e => inl e
            | inr (alpha, beta) =>
                match add_edge inactive_sensors tg alpha beta is_expanded b with
                | inl e => inl e
                | inr (is_expanded', b') =>
                    read_tokens inactive_sensors rest (i + 1) tag is_expanded' b'
                end
            end
        end
  end.

(** The format of the serialized instance: [0.1] or [1.0]. *)
Inductive version := V0_1 | V1_0.

(** The numbers of the preamble, lines 124-132: [None] stands for any
    exception of the [try] block. *)
Definition preamble (instance : list string) : option (Z * Z * Z * Z * Z * Z * Z) :=
  match instance !! 1%nat with
  | None => None
  | Some f1 =>
      match Py.split " " f1 with
      | [num_pois; num_sensors; num_sinks] =>
          match instance !! 2%nat with
          | None => None
          | Some f2 =>
              match Py.split " " f2 with
              | [area_side; sensor_coverage_radius; sensor_communication_radius] =>
                  match instance !! 3%nat with
                  | None => None
                  | Some random_seed =>
                      p ← Py.int num_pois; i ← Py.int num_sensors;
                      s ← Py.int num_sinks; r ← Py.int random_seed;
                      a ← Py.int area_side; cv ← Py.int sensor_coverage_radius;
                      cm ← Py.int sensor_communication_radius;
                      Some (p, i, s, a, cv, cm, r)
                  end
              | _ => None
              end
          end
      | _ => None
      end
  end.

(** The attributes of a [KCMC_Instance]: [acceptance], which [__init__]
    sets before it parses, and those that parsing sets; the two memo
    attributes, which parsing resets to [None], are left out. *)
Record instance := Instance {
  acceptance : bool * bool * bool;
  string_ : string;
  version_ : version;
  num_pois : Z;
  num_sensors : Z;
  num_sinks : Z;
  area_side : Z;
  sensor_coverage_radius : Z;
  sensor_communication_radius : Z;
  random_seed : Z;
  inactive_sensors_ : gset string;
  graph : buffers;
  virtual_sinks_map : gmap Z (gset Z)
}.

Section Parse.

(** [get_serialized_instance]: the serialized instance that the evaluator
    program prints for the numbers of a preamble, or the exception of the
    call. *)
Variable get_serialized_instance : Z -> Z -> Z -> Z -> Z -> Z -> Z -> exn + string.

(** [parse_serialized_instance], which calls itself on the output of the
    evaluator when the string holds no edge; [None] when the calls nest
    deeper than [fuel].  [acceptance_] is the attribute of [self] that the
    method leaves as it finds it. *)
Fixpoint parse_serialized_instance (fuel : nat) (acceptance_ : bool * bool * bool)
    (instance_string : string) (inactive_sensors : option (gset string))
  : option (exn + instance) :=
  let s := Py.strip (upper instance_string) in
  let inactive_sensors := default ∅ inactive_sensors in
  if negb (startswith "KCMC;" s)
  then Some (inl (AssertionError "ALL INSTANCES MUST START WITH THE TAG <KCMC;>"))
  else if negb (endswith ";END" s)
  then Some (inl (AssertionError "ALL INSTANCES MUST END WITH THE TAG <;END>"))
  else
    let v := if contains ";SK;" s then V0_1 else V1_0 in
    let s := match v with
             | V0_1 => replace "SK" "IS" (replace "SS" "II" (replace "PS" "PI" s))
             | V1_0 => s
             end in
    let instance := Py.split ";" s in
    match preamble instance with
    | None => Some (inl (AssertionError "INVALID INSTANCE PREAMBLE!"))
    | Some (p, i, sk, a, cv, cm, r) =>
        match read_tokens inactive_sensors (Py.slice instance 4 (-1)) 0 None
                false no_buffers with
        | inl e => Some (inl e)
        | inr (true, b) =>
            Some (inr (Instance acceptance_ s v p i sk a cv cm r inactive_sensors b ∅))
        | inr (false, _) =>
            match fuel with
            | O => None
            | S fuel' =>
                match get_serialized_instance p i sk a cv cm r with
                | inl e => Some (inl e)
                | inr regenerated =>
                    parse_serialized_instance fuel' acceptance_ regenerated
                      (Some inactive_sensors)
                end
            end
        end
    end.

(** [max(d.keys())]; [None] for an empty dict, where [max] raises
    [ValueError] (with this message up to Python 3.11). *)
Definition max_key (d : gmap Z (gset Z)) : option Z :=
  foldr (fun key best => Some (from_option (Z.max key) key best)) None
    (elements (dom d)).

(** [repr] of a list of integers. *)
Definition repr_list (l : list Z) : string :=
  "[" +:+ String.concat ", " (Py.str <$> l) +:+ "]".

(** The text of the list of the keys of a dict that are above a number, as
    three of the messages show it: its order is the order of insertion,
    which the maps here do not keep. *)
Variable ids_above : gmap Z (gset Z) -> Z -> string.

(** [assert max(d.keys()) < bound, message] *)
Definition check_ids (d : gmap Z (gset Z)) (bound : Z) (message : string)
  : exn + unit :=
  match max_key d with
  | None => inl (ValueError "max() arg is an empty sequence")
  | Some m =>
      if bool_decide (m < bound) then inr tt
      else inl (AssertionError (message +:+ ids_above d bound))
  end.

(** [assert (len(d) == number) or accept_loose, message] *)
Definition check_count (d : gmap Z (gset Z)) (number : Z) (accept_loose : bool)
    (message : string) : exn + unit :=
  if bool_decide (Z.of_nat (size d) = number) || accept_loose then inr tt
  else inl (AssertionError message).

(** The validations of [__init__], lines 187-197. *)
Definition validate (x : instance) (accept_loose_pois accept_loose_sensors
    accept_loose_sinks : bool) : exn + instance :=
  let b := graph x in
  match check_ids (poi_sensor b) (num_pois x) "INVALID POI IDs! " with
  | inl e => inl e
  | inr _ =>
  match check_ids (sensor_sensor b) (num_sensors x) "INVALID SENSOR IDs! " with
  | inl e => inl e
  | inr _ =>
  match check_ids (sink_sensor b) (num_sinks x) "INVALID SINK IDs! " with
  | inl e => inl e
  | inr _ =>
  match check_count (poi_sensor b) (num_pois x) accept_loose_pois
          ("INVALID NUMBER OF POIS (" +:+ Py.str (num_pois x) +:+ " "
           +:+ pretty (size (poi_sensor b)) +:+ ")") with
  | inl e => inl e
  | inr _ =>
  match check_count (sink_sensor b) (num_sinks x) accept_loose_sinks
          ("INVALID NUMBER OF SINKS (" +:+ Py.str (num_sinks x) +:+ " "
           +:+ pretty (size (sink_sensor b)) +:+ ")") with
  | inl e => inl e
  | inr _ =>
  match check_count (sensor_sensor b) (num_sensors x) accept_loose_sensors
          ("INVALID NUMBER OF SENSORS (" +:+ Py.str (num_sensors x) +:+ " "
           +:+ pretty (size (sensor_sensor b)) +:+ " "
           +:+ repr_list (filter (fun i => sensor_sensor b !! i = None)
                            (seqZ 0 (num_sensors x)))
           +:+ ")") with
  | inl e => inl e
  | inr _ => inr x
  end end end end end end.

(** [KCMC_Instance(instance_string, accept_loose_pois, accept_loose_sensors,
    accept_loose_sinks, inactive_sensors)] *)
Definition init (fuel : nat) (instance_string : string)
    (accept_loose_pois accept_loose_sensors accept_loose_sinks : bool)
    (inactive_sensors : option (gset string)) : option (exn + instance) :=
  match parse_serialized_instance fuel
          (accept_loose_pois, accept_loose_sensors, accept_loose_sinks)
          instance_string inactive_sensors with
  | None => None
  | Some (inl e) => Some (inl e)
  | Some (inr x) =>
      Some (validate x accept_loose_pois accept_loose_sensors accept_loose_sinks)
  end.

End Parse.

(** [key_str] *)
Definition key_str (x : instance) : string :=
  "KCMC;" +:+ Py.str (num_pois x) +:+ " " +:+ Py.str (num_sensors x) +:+ " "
  +:+ Py.str (num_sinks x) +:+ ";" +:+ Py.str (area_side x) +:+ " "
  +:+ Py.str (sensor_coverage_radius x) +:+ " "
  +:+ Py.str (sensor_communication_radius x) +:+ ";"
  +:+ Py.str (random_seed x) +:+ ";END".

End KCMC.

(** ** What the graph of an instance satisfies *)

(** [b in m[a]], where a key that is missing has no element. *)
Definition linked (m : gmap Z (gset Z)) (a b : Z) : Prop :=
  b ∈ default ∅ (m !! a).

(** [y in edges[x]] *)
Definition edge (b : KCMC.buffers) (x y : string) : Prop :=
  y ∈ default ∅ (KCMC.edges b !! x).

(** No key of the dict has an empty set. *)
Definition no_empty_set (m : gmap Z (gset Z)) : Prop :=
  forall (key : Z) (values : gset Z), m !! key = Some values -> values <> ∅.

(** The five maps and the edges of the buffers tell the same graph, and no
    inactive sensor is in it. *)
Record consistent (inactive_sensors : gset string) (b : KCMC.buffers) : Prop := {
  poi_converse : forall p i : Z,
    linked (KCMC.poi_sensor b) p i <-> linked (KCMC.sensor_poi b) i p;
  sink_converse : forall i s : Z,
    linked (KCMC.sensor_sink b) i s <-> linked (KCMC.sink_sensor b) s i;
  sensor_symmetric : forall i j : Z,
    linked (KCMC.sensor_sensor b) i j -> linked (KCMC.sensor_sensor b) j i;
  sensor_irreflexive : forall i : Z, ~ linked (KCMC.sensor_sensor b) i i;
  poi_active : forall p i : Z,
    linked (KCMC.poi_sensor b) p i -> KCMC.node "i" i ∉ inactive_sensors;
  sensor_active : forall i j : Z,
    linked (KCMC.sensor_sensor b) i j -> KCMC.node "i" i ∉ inactive_sensors;
  sink_active : forall i s : Z,
    linked (KCMC.sensor_sink b) i s -> KCMC.node "i" i ∉ inactive_sensors;
  poi_sensor_sets : no_empty_set (KCMC.poi_sensor b);
  sensor_poi_sets : no_empty_set (KCMC.sensor_poi b);
  sensor_sensor_sets : no_empty_set (KCMC.sensor_sensor b);
  sink_sensor_sets : no_empty_set (KCMC.sink_sensor b);
  sensor_sink_sets : no_empty_set (KCMC.sensor_sink b);
  edges_are_links : forall x y : string,
    edge b x y ->
    (exists p i : Z, x = KCMC.node "p" p /\ y = KCMC.node "i" i
                     /\ linked (KCMC.poi_sensor b) p i)
    \/ (exists i j : Z, x = KCMC.node "i" i /\ y = KCMC.node "i" j
                        /\ linked (KCMC.sensor_sensor b) i j)
    \/ (exists i s : Z, x = KCMC.node "i" i /\ y = KCMC.node "s" s
                        /\ linked (KCMC.sensor_sink b) i s);
  poi_links_are_edges : forall p i : Z,
    linked (KCMC.poi_sensor b) p i -> edge b (KCMC.node "p" p) (KCMC.node "i" i);
  sensor_links_are_edges : forall i j : Z,
    linked (KCMC.sensor_sensor b) i j ->
    edge b (KCMC.node "i" i) (KCMC.node "i" j)
    \/ edge b (KCMC.node "i" j) (KCMC.node "i" i);
  sink_links_are_edges : forall i s : Z,
    linked (KCMC.sensor_sink b) i s -> edge b (KCMC.node "i" i) (KCMC.node "s" s)
}.

(** ** Concrete instances used in the examples *)

(** Two POIs, three sensors and one sink, in lower case. *)
Definition example_instance : string :=
  "kcmc;2 3 1;100 10 20;7;PI;0 0;0 1;1 2;II;0 1;1 2;IS;2 0;end".

(** One POI, one sink and two sensors that are linked to each other, with a
    POI link and a sink link of a sensor 99. *)
Definition stray_sensor_instance : string :=
  "KCMC;1 2 1;100 10 20;7;PI;0 99;II;0 1;IS;99 0;END".

(** The sensor 1 alone. *)
Definition one_inactive : gset string := {[ "i1" ]}.

(** An evaluator program that cannot be run. *)
Definition no_evaluator (p i s a cv cm r : Z) : KCMC.exn + string :=
  inl (KCMC.ExternalError "no evaluator").

(** The three messages that list ids, without the list. *)
Definition no_ids (d : gmap Z (gset Z)) (bound : Z) : string := "".

(** ** Characters *)

(** Every character of [s] is in the class [P]. *)
Fixpoint all_chars (P : ascii -> bool) (s : string) : bool :=
  match s with
  | EmptyString => true
  | String c s' => P c && all_chars P s'
  end.

(** The characters of a decimal numeral: the digits and the minus sign. *)
Definition numeral_char (c : ascii) : bool :=
  bool_decide (c = "-"%char) || bool_decide (Py.digit c <> None).

(** * Properties *)

(** ** The lock transaction *)

Section LockTransaction.

Implicit Types (d : Redis.db) (key val lock : string) (t seconds : Z).

Lemma setnx_expire_reply t key val seconds d :
  (Redis.setnx_expire t key val seconds d).2.1
  = bool_decide (Redis.find t key d = None).
Proof.
  unfold Redis.setnx_expire, Redis.setnx.
  destruct (Redis.find t key d) as [e|] eqn:Hf.
  - destruct (Redis.expire _ _ _ _) as [d2 r2]. by rewrite bool_decide_eq_false_2.
  - destruct (Redis.expire _ _ _ _) as [d2 r2]. by rewrite bool_decide_eq_true_2.
Qed.

Lemma setnx_expire_entry t key val seconds d :
  0 < seconds ->
  Redis.strings (Redis.setnx_expire t key val seconds d).1 !! key
  = Some (Redis.Entry (default val (holder t key d)) (Some (t + seconds * 1000))).
Proof.
  intros Hs. unfold Redis.setnx_expire, Redis.setnx, holder.
  destruct (Redis.find t key d) as [e|] eqn:Hf; simpl.
  - unfold Redis.expire. rewrite Hf.
    rewrite bool_decide_eq_false_2 by lia. simpl. by rewrite lookup_insert_eq.
  - unfold Redis.expire, Redis.find. simpl. rewrite lookup_insert_eq. simpl.
    rewrite bool_decide_eq_false_2 by lia. simpl. by rewrite lookup_insert_eq.
Qed.

Lemma setnx_expire_hashes t key val seconds d :
  Redis.hashes (Redis.setnx_expire t key val seconds d).1 = Redis.hashes d.
Proof.
  unfold Redis.setnx_expire, Redis.setnx, Redis.expire.
  destruct (Redis.find t key d) as [e|] eqn:Hf; simpl.
  - rewrite Hf. by case_bool_decide.
  - unfold Redis.find. simpl. rewrite lookup_insert_eq. simpl.
    by case_bool_decide.
Qed.

Lemma find_after_setnx_expire t t' key val seconds d :
  0 < seconds ->
  Redis.find t' key (Redis.setnx_expire t key val seconds d).1
  = if bool_decide (t' <= t + seconds * 1000)
    then Some (Redis.Entry (default val (holder t key d))
                 (Some (t + seconds * 1000)))
    else None.
Proof.
  intros Hs. unfold Redis.find at 1.
  by rewrite setnx_expire_entry.
Qed.

(** What the pipeline of lines 31-37 does when the round trip succeeds. *)
Lemma lock_pipeline_run lock w :
  faults w = [] ->
  lock_pipeline lock w
  = (inr (bool_decide (Redis.find (now w) lock (store w) = None)),
     log (EvLock lock (bool_decide (Redis.find (now w) lock (store w) = None)))
       (set_store
          (Redis.setnx_expire (now w) lock (Py.str (now w * 1000000))
             LOCK_TIME (store w)).1 w)).
Proof.
  intros Hf. unfold lock_pipeline, bind, time_ns, roundtrip. rewrite Hf.
  pose proof (setnx_expire_reply (now w) lock (Py.str (now w * 1000000))
                LOCK_TIME (store w)) as Hr.
  destruct (Redis.setnx_expire _ _ _ _ _) as [d' [r1 r2]]. simpl in *.
  by subst r1.
Qed.

Lemma attempt_run lock t d :
  attempt lock t d
  = ((Redis.setnx_expire t lock (Py.str (t * 1000000)) LOCK_TIME d).1,
     Some (bool_decide (Redis.find t lock d = None))).
Proof. unfold attempt. by rewrite lock_pipeline_run. Qed.

End LockTransaction.

Lemma lock_pipeline_inr (lock : string) (w w' : world) (has_lock : bool) :
  lock_pipeline lock w = (inr has_lock, w') ->
  has_lock = bool_decide (Redis.find (now w) lock (store w) = None)
  /\ now w' = now w
  /\ store w' = (Redis.setnx_expire (now w) lock (Py.str (now w * 1000000))
                   LOCK_TIME (store w)).1
  /\ trace w' = trace w ++ [EvLock lock has_lock]
  /\ faults w' = tail (faults w).
Proof.
  unfold lock_pipeline, bind, time_ns, roundtrip. intros Hrun.
  pose proof (setnx_expire_reply (now w) lock (Py.str (now w * 1000000))
                LOCK_TIME (store w)) as Hr.
  destruct (faults w) as [|[e|] fs] eqn:Hf; simpl in Hrun;
    destruct (Redis.setnx_expire _ _ _ _ _) as [d' [r1 r2]]; simpl in Hr;
    inversion Hrun; subst; simpl; rewrite ?Hf; auto.
Qed.

(** C10.  Whenever the lock pipeline returns, whatever [SETNX] replied, the
    key exists and its remaining time to live is the full [LOCK_TIME]: the
    [EXPIRE] of the transaction ran too.  The reply of [SETNX] is false
    exactly when the key was held, and the instant has not moved. *)
Theorem lock_pipeline_resets_ttl (lock : string) (w w' : world) (has_lock : bool) :
  lock_pipeline lock w = (inr has_lock, w') ->
  Redis.pttl (now w') lock (store w') = Some (LOCK_TIME * 1000)
  /\ now w' = now w
  /\ (has_lock = false <-> is_Some (holder (now w) lock (store w))).
Proof.
  intros (Hl & Hn & Hs & _)%lock_pipeline_inr.
  split; [|split; [done|]].
  - rewrite Hn, Hs. unfold Redis.pttl.
    rewrite find_after_setnx_expire by (unfold LOCK_TIME; lia).
    rewrite bool_decide_eq_true_2 by (unfold LOCK_TIME; lia). simpl.
    f_equal. lia.
  - rewrite Hl. unfold holder.
    case_bool_decide as Hfind.
    + rewrite Hfind. simpl. split; [done|]. by intros [? ?].
    + split; [|done]. intros _.
      destruct (Redis.find (now w) lock (store w)); [by eexists|done].
Qed.

Lemma lock_pipeline_resets_ttl_witness :
  let w := World 4000 held_store [] [] in
  let r := lock_pipeline "LOCK:BLOCK0:INSTANCE:1:2:3:4:5:6" w in
  r.1 = inr false
  /\ Redis.pttl 4000 "LOCK:BLOCK0:INSTANCE:1:2:3:4:5:6" held_store = Some 1000
  /\ Redis.pttl (now r.2) "LOCK:BLOCK0:INSTANCE:1:2:3:4:5:6" (store r.2)
     = Some (LOCK_TIME * 1000).
Proof.
  split; [vm_compute; reflexivity|]. split; [vm_compute; reflexivity|].
  refine (proj1 (lock_pipeline_resets_ttl "LOCK:BLOCK0:INSTANCE:1:2:3:4:5:6"
                   (World 4000 held_store [] []) _ false _)).
  vm_compute. reflexivity.
Defined.

(** C6, as the code has it.  After any attempt on a lock at instant [t1],
    successful or not, the next attempt, at [t2], acquires the lock exactly
    when [t2] is strictly more than [LOCK_TIME] after [t1]: the time to live
    runs from the latest attempt, not from the acquisition. *)
Theorem lock_reclaimable_after_latest_attempt (lock : string) (t1 t2 : Z)
    (d : Redis.db) :
  (attempt lock t2 (attempt lock t1 d).1).2
  = Some (bool_decide (t1 + LOCK_TIME * 1000 < t2)).
Proof.
  rewrite !attempt_run. simpl. f_equal.
  rewrite find_after_setnx_expire by (unfold LOCK_TIME; lia).
  apply bool_decide_ext. case_bool_decide; split; try done; lia.
Qed.

(** C6 is false as stated: worker A acquires the lock at instant 0; worker B
    tries at 9000 s and is refused; B tries again one millisecond after the
    time to live of the acquisition has elapsed, and is refused again. *)
Lemma lock_not_reclaimable_after_acquisition_ttl :
  let lock := "LOCK:BLOCK0:INSTANCE:1:2:3:4:5:6" in
  let a := attempt lock 0 Redis.empty in
  let b1 := attempt lock 9000000 a.1 in
  let b2 := attempt lock 10000001 b1.1 in
  a.2 = Some true /\ b1.2 = Some false
  /\ 0 + LOCK_TIME * 1000 < 10000001
  /\ b2.2 = Some false.
Proof. vm_compute. repeat split; reflexivity. Qed.

(** ** Several workers on one lock *)

Lemma contend_held (lock : string) (times : list Z) : forall t v d,
  Redis.strings d !! lock = Some (Redis.Entry v (Some (t + LOCK_TIME * 1000))) ->
  within_ttl t times ->
  (contend lock times d).2 = replicate (length times) (Some false)
  /\ Redis.strings (contend lock times d).1 !! lock
     = Some (Redis.Entry v (Some (latest t times + LOCK_TIME * 1000))).
Proof.
  induction times as [|t' rest IH]; intros t v d Hd Hw; simpl.
  - done.
  - destruct Hw as [Hle Hw]. rewrite attempt_run.
    assert (Hfind : Redis.find t' lock d
                    = Some (Redis.Entry v (Some (t + LOCK_TIME * 1000)))).
    { unfold Redis.find. rewrite Hd. unfold Redis.live. simpl.
      by rewrite bool_decide_eq_true_2. }
    specialize (IH t' v
      (Redis.setnx_expire t' lock (Py.str (t' * 1000000)) LOCK_TIME d).1).
    destruct (contend lock rest _) as [d2 rs]. simpl in *.
    destruct IH as [IH1 IH2]; [|done|].
    { rewrite setnx_expire_entry by (unfold LOCK_TIME; lia).
      unfold holder. by rewrite Hfind. }
    split.
    + rewrite Hfind, IH1. by rewrite bool_decide_eq_false_2.
    + by rewrite IH2.
Qed.

(** C1.  When the lock is free and [N] workers attempt to claim it, each
    no later than the time to live after the one before (in particular all
    at one instant), the transaction the server runs first is the only one
    whose [SETNX] succeeds; every other worker gets the reply false, none
    gets an exception, and the one live lock of the block is still the
    winner's after the last attempt. *)
Theorem claim_mutual_exclusion (lock : string) (t0 : Z) (times : list Z)
    (d : Redis.db) :
  holder t0 lock d = None ->
  within_ttl t0 times ->
  (contend lock (t0 :: times) d).2
  = Some true :: replicate (length times) (Some false)
  /\ holder (latest t0 times) lock (contend lock (t0 :: times) d).1
     = Some (Py.str (t0 * 1000000)).
Proof.
  intros Hfree Hw. simpl. rewrite attempt_run.
  assert (Hnone : Redis.find t0 lock d = None).
  { unfold holder in Hfree. by destruct (Redis.find t0 lock d). }
  pose proof (contend_held lock times t0 (Py.str (t0 * 1000000))
    (Redis.setnx_expire t0 lock (Py.str (t0 * 1000000)) LOCK_TIME d).1) as H.
  destruct (contend lock times _) as [d2 rs]. simpl in *.
  destruct H as [H1 H2]; [|done|].
  { rewrite setnx_expire_entry by (unfold LOCK_TIME; lia). by rewrite Hfree. }
  split.
  - rewrite H1, Hnone. by rewrite bool_decide_eq_true_2.
  - unfold holder, Redis.find. rewrite H2. unfold Redis.live. simpl.
    rewrite bool_decide_eq_true_2 by (unfold LOCK_TIME; lia). done.
Qed.

Lemma claim_mutual_exclusion_witness :
  (contend "LOCK:BLOCK0:INSTANCE:1:2:3:4:5:6" [7; 7; 7; 7] Redis.empty).2
  = [Some true; Some false; Some false; Some false]
  /\ holder 7 "LOCK:BLOCK0:INSTANCE:1:2:3:4:5:6"
       (contend "LOCK:BLOCK0:INSTANCE:1:2:3:4:5:6" [7; 7; 7; 7] Redis.empty).1
     = Some "7000000".
Proof.
  apply (claim_mutual_exclusion "LOCK:BLOCK0:INSTANCE:1:2:3:4:5:6" 7 [7; 7; 7]
           Redis.empty).
  - reflexivity.
  - simpl. unfold LOCK_TIME. lia.
Defined.
(** ** Keys *)

Lemma string_app_length (s1 s2 : string) :
  String.length (s1 +:+ s2) = (String.length s1 + String.length s2)%nat.
Proof. induction s1 as [|c s1 IH]; simpl; [done|]. by rewrite IH. Qed.

Lemma string_app_inj_r (s1 s2 r : string) : s1 +:+ r = s2 +:+ r -> s1 = s2.
Proof.
  revert s2. induction s1 as [|c s1 IH]; intros [|c2 s2] H;
    change (String ?a ?s +:+ r) with (String a (s +:+ r)) in H;
    change ("" +:+ r) with r in H.
  - done.
  - apply (f_equal String.length) in H. simpl in H.
    rewrite string_app_length in H. lia.
  - apply (f_equal String.length) in H. simpl in H.
    rewrite string_app_length in H. lia.
  - injection H as -> H. f_equal. by apply IH.
Qed.

Lemma lock_key_inj (b1 b2 : Z) (instance_key : string) :
  lock_key b1 instance_key = lock_key b2 instance_key -> b1 = b2.
Proof.
  unfold lock_key. intros H.
  apply (inj (String.app "LOCK:BLOCK")) in H.
  apply string_app_inj_r in H. by apply (inj pretty) in H.
Qed.

Lemma find_setnx_expire_ne t t' key key' val seconds d :
  key <> key' ->
  Redis.find t' key' (Redis.setnx_expire t key val seconds d).1
  = Redis.find t' key' d.
Proof.
  intros Hne. unfold Redis.setnx_expire, Redis.setnx, Redis.expire.
  destruct (Redis.find t key d) as [e|] eqn:Hf; simpl.
  - rewrite Hf. case_bool_decide; unfold Redis.find; simpl.
    + by rewrite lookup_delete_ne.
    + by rewrite lookup_insert_ne.
  - match goal with
    | |- context [Redis.find t key ?d'] =>
        assert (Redis.find t key d'
                = Some (Redis.Entry val None)) as ->
          by (unfold Redis.find; simpl; by rewrite lookup_insert_eq)
    end.
    case_bool_decide; unfold Redis.find; simpl.
    + rewrite lookup_delete_ne by done. by rewrite lookup_insert_ne.
    + rewrite lookup_insert_ne by done. by rewrite lookup_insert_ne.
Qed.

Lemma strings_setnx_expire_ne (t : Z) (lock val key : string) (d : Redis.db) :
  key <> lock ->
  Redis.strings (Redis.setnx_expire t lock val LOCK_TIME d).1 !! key
  = Redis.strings d !! key.
Proof.
  intros Hne. unfold Redis.setnx_expire, Redis.setnx, Redis.expire.
  destruct (Redis.find t lock d) as [e|] eqn:Hf; simpl.
  - rewrite Hf. simpl. by rewrite lookup_insert_ne.
  - unfold Redis.find. simpl. rewrite lookup_insert_eq. simpl.
    by rewrite !lookup_insert_ne.
Qed.

(** ** The scan of the blocks *)

(** A key that is not the lock of a visited block is not touched. *)
Lemma scanned_store_other (instance_key key : string) (visited : list Z) :
  forall (t : Z) (d : Redis.db),
  (forall b : Z, b ∈ visited -> key <> lock_key b instance_key) ->
  Redis.strings (scanned_store instance_key t visited d) !! key
  = Redis.strings d !! key.
Proof.
  induction visited as [|b rest IH]; intros t d Hkey; simpl; [done|].
  rewrite IH by (intros b' Hb'; apply Hkey; by apply elem_of_cons; right).
  apply strings_setnx_expire_ne. apply Hkey. by apply elem_of_cons; left.
Qed.

(** The lock of the block visited at position [i] is left as the
    transaction of that visit left it: with the value it had when it was
    held, with the instant of the visit as value when it was free, and in
    both cases with a time to live of [LOCK_TIME] from the visit. *)
Lemma scanned_store_visited (instance_key : string) (visited : list Z) :
  forall (t : Z) (d : Redis.db) (i : nat) (b : Z),
  NoDup visited ->
  visited !! i = Some b ->
  Redis.strings (scanned_store instance_key t visited d)
    !! lock_key b instance_key
  = Some (Redis.Entry
            (default (Py.str ((t + 50 * Z.of_nat i) * 1000000))
               (holder (t + 50 * Z.of_nat i) (lock_key b instance_key) d))
            (Some (t + 50 * Z.of_nat i + LOCK_TIME * 1000))).
Proof.
  induction visited as [|b0 rest IH]; intros t d i b Hnd Hi; [done|].
  apply NoDup_cons in Hnd as [Hnotin Hnd]. destruct i as [|i]; simpl in *.
  - injection Hi as ->. rewrite Z.add_0_r.
    rewrite scanned_store_other.
    + by apply setnx_expire_entry.
    + intros b' Hb' Heq%lock_key_inj. by subst b'.
  - rewrite (IH _ _ i b Hnd Hi).
    replace (t + 50 + 50 * Z.of_nat i) with (t + 50 * Z.of_nat (S i)) by lia.
    unfold holder. rewrite find_setnx_expire_ne; [done|].
    intros Heq%lock_key_inj. subst b0.
    apply Hnotin. by eapply list_elem_of_lookup_2.
Qed.

Lemma scan_result_cons (instance_key : string) (st : scan_state) (b : Z)
    (rest : list Z) (n : nat) :
  scan_result instance_key (b, Some (lock_key b instance_key), Some false) rest n
  = scan_result instance_key st (b :: rest) (S n).
Proof.
  unfold scan_result. simpl. destruct (rest !! n); [done|].
  destruct rest as [|r rs]; [done|].
  change (last (b :: r :: rs)) with (last (r :: rs)).
  destruct (last (r :: rs)) eqn:E; [done|]. by apply last_None in E.
Qed.

Lemma scan_blocks_run (instance_key : string) (blocks : list Z) :
  forall (st : scan_state) (w : world),
  faults w = [] ->
  NoDup blocks ->
  exists (n : nat) (w' : world),
    scan_blocks instance_key blocks st w
    = (inr (scan_result instance_key st blocks n), w')
    /\ (n <= length blocks)%nat
    /\ faults w' = []
    /\ now w' = now w + 50 * Z.of_nat (n `min` length blocks)
    /\ trace w' = trace w ++ scan_events instance_key (take n blocks) (blocks !! n)
    /\ Redis.hashes (store w') = Redis.hashes (store w)
    /\ (forall (i : nat) (b : Z), (i < n)%nat -> blocks !! i = Some b ->
          is_Some (holder (now w + 50 * Z.of_nat i) (lock_key b instance_key)
                     (store w)))
    /\ (forall b : Z, blocks !! n = Some b ->
          holder (now w + 50 * Z.of_nat n) (lock_key b instance_key) (store w)
          = None)
    /\ (forall b : Z, n = 0%nat -> blocks !! n = Some b ->
          store w' = (Redis.setnx_expire (now w) (lock_key b instance_key)
                        (Py.str (now w * 1000000)) LOCK_TIME (store w)).1)
    /\ store w' = scanned_store instance_key (now w) (take (S n) blocks)
                    (store w).
Proof.
  induction blocks as [|b rest IH]; intros st w Hf Hnd.
  - exists 0%nat, w. simpl. unfold ret, scan_result, scan_events. simpl.
    rewrite app_nil_r. repeat split; try done; intros; lia.
  - simpl. unfold bind at 1. rewrite lock_pipeline_run by done.
    apply NoDup_cons in Hnd as [Hnotin Hnd].
    case_bool_decide as Hfree.
    + exists 0%nat. eexists. split; [reflexivity|]. simpl.
      rewrite setnx_expire_hashes.
      repeat split; try done; try lia.
      * intros b' [= <-]. unfold holder. rewrite Z.add_0_r. by rewrite Hfree.
      * by intros b' _ [= <-].
    + unfold bind at 1. unfold sleep at 1.
      match goal with
      | |- context [scan_blocks _ rest ?st' ?w1] =>
          destruct (IH st' w1)
            as (n & w' & Hrun & Hn & Hf' & Hnow & Htr & Hh & Hheld & Hfr & _
                & Hsc);
            [done|done|]
      end.
      exists (S n), w'. simpl in *.
      split.
      { rewrite Hrun. by rewrite (scan_result_cons instance_key st). }
      split; [lia|]. split; [done|]. split; [lia|].
      split.
      { rewrite Htr. unfold scan_events. simpl. rewrite <- !app_assoc. done. }
      split.
      { rewrite Hh. apply setnx_expire_hashes. }
      split.
      { intros [|i] b' Hi Hb'; simpl in Hb'.
        -- injection Hb' as <-. rewrite Z.add_0_r. unfold holder.
           destruct (Redis.find (now w) (lock_key b instance_key) (store w));
             [by eexists|done].
        -- specialize (Hheld i b' ltac:(lia) Hb').
           unfold holder in *. rewrite find_setnx_expire_ne in Hheld.
           ++ replace (now w + 50 * Z.of_nat (S i))
                with (now w + 50 + 50 * Z.of_nat i) by lia.
              done.
           ++ intros Heq%lock_key_inj. subst b'.
              apply Hnotin. by eapply list_elem_of_lookup_2. }
      split; [|split; [done|exact Hsc]].
      intros b' Hb'. specialize (Hfr b' Hb').
      unfold holder in *. rewrite find_setnx_expire_ne in Hfr.
      * replace (now w + 50 * Z.of_nat (S n))
          with (now w + 50 + 50 * Z.of_nat n) by lia.
        done.
      * intros Heq%lock_key_inj. subst b'.
        apply Hnotin. by eapply list_elem_of_lookup_2.
Qed.

Lemma range_from_lookup (step : Z) (n : nat) : forall (start : Z) (i : nat) (b : Z),
  Py.range_from start step n !! i = Some b
  <-> (i < n)%nat /\ b = start + step * Z.of_nat i.
Proof.
  induction n as [|n IH]; intros start i b; simpl.
  - split; [done|lia].
  - destruct i as [|i]; simpl.
    + split; [intros [= <-]; split; lia|intros [_ ->]; f_equal; lia].
    + rewrite IH. replace (Z.of_nat (S i)) with (1 + Z.of_nat i) by lia.
      rewrite Z.mul_add_distr_l, Z.mul_1_r, Z.add_assoc.
      split; intros [? ->]; split; lia.
Qed.

Lemma range_lookup (target : Z) (i : nat) (b : Z) :
  Py.range 0 target BLOCK_SIZE !! i = Some b
  <-> b = BLOCK_SIZE * Z.of_nat i /\ b < target.
Proof.
  unfold Py.range. rewrite range_from_lookup. unfold BLOCK_SIZE.
  pose proof (Z.div_mod (target - 0 + 20 - 1) 20 ltac:(lia)) as Hdm.
  pose proof (Z.mod_pos_bound (target - 0 + 20 - 1) 20 ltac:(lia)) as Hmb.
  split; intros [H1 H2]; subst; split; lia.
Qed.

Lemma range_NoDup (target : Z) : NoDup (Py.range 0 target BLOCK_SIZE).
Proof.
  apply NoDup_alt. intros i j b Hi Hj.
  apply range_lookup in Hi as [Hi _]. apply range_lookup in Hj as [Hj _].
  unfold BLOCK_SIZE in *. lia.
Qed.
(** ** The seeds to generate and the pairs read *)

Lemma missing_seeds_run (instance_key : string) (seeds : list Z) (w : world) :
  faults w = [] ->
  missing_seeds instance_key seeds w
  = (inr (absent_seeds instance_key (store w) seeds), w).
Proof.
  intros Hf. induction seeds as [|s rest IH]; simpl; [done|].
  unfold bind at 1. unfold hexists at 1, bind at 1, roundtrip. rewrite Hf.
  unfold bind at 1. rewrite IH. unfold ret, absent_seeds.
  rewrite filter_cons.
  destruct (Redis.hexists instance_key (Py.str s) (store w)) eqn:E.
  - by rewrite decide_False.
  - by rewrite decide_True.
Qed.

Lemma readline_run (p : proc) (w : world) :
  Forall line_ok (take 1 (stdout p)) ->
  readline p w
  = (inr (line (stdout p) 0, Proc (drop 1 (stdout p)) (returncode p)),
     log (EvReadline (line (stdout p) 0)) w).
Proof.
  intros Hok. unfold readline, line. destruct p as [[|l ls] rc]; simpl.
  - done.
  - simpl in Hok. apply Forall_cons in Hok as [[Hlen _] _].
    rewrite bool_decide_eq_false_2 by lia. by rewrite drop_0.
Qed.

Lemma line_ok_line (out : list string) (i n : nat) :
  Forall line_ok (take n out) -> (i < n)%nat -> is_ascii (line out i) = true.
Proof.
  intros Hok Hi. unfold line. destruct (out !! i) as [l|] eqn:E; [|done].
  simpl. rewrite Forall_lookup in Hok.
  apply (Hok i l). rewrite lookup_take_lt by done. done.
Qed.

Lemma Forall_take_le {A} (P : A -> Prop) (l : list A) (n m : nat) :
  Forall P (take n l) -> (m <= n)%nat -> Forall P (take m l).
Proof.
  intros H Hle. apply (Forall_take _ m) in H. rewrite take_take in H.
  by replace (m `min` n)%nat with m in H by lia.
Qed.

Lemma read_pairs_run (instance_key evaluation_key : string) (seeds : list Z) :
  forall (p : proc) (w : world),
  faults w = [] ->
  Forall line_ok (take (2 * length seeds) (stdout p)) ->
  exists w',
    read_pairs instance_key evaluation_key seeds p w
    = (inr (Proc (drop (2 * length seeds) (stdout p)) (returncode p)), w')
    /\ faults w' = []
    /\ now w' = now w
    /\ trace w' = trace w
         ++ concat (pair_events instance_key evaluation_key
                      <$> pair_up seeds (stdout p))
    /\ store w' = foldl (write_pair instance_key evaluation_key) (store w)
                    (pair_up seeds (stdout p)).
Proof.
  induction seeds as [|s rest IH]; intros p w Hf Hok.
  - exists w. simpl. rewrite drop_0, app_nil_r. by destruct p.
  - simpl.
    assert (Hok1 : Forall line_ok (take 1 (stdout p))).
    { apply (Forall_take_le _ _ _ _ Hok). simpl. lia. }
    assert (Hok2 : Forall line_ok (take 1 (drop 1 (stdout p)))).
    { rewrite take_drop_commute. apply Forall_drop.
      apply (Forall_take_le _ _ _ _ Hok). simpl. lia. }
    unfold bind at 1. rewrite readline_run by done.
    unfold bind at 1. unfold decode_ascii at 1.
    rewrite (line_ok_line _ 0 _ Hok) by (simpl; lia). unfold ret at 1.
    unfold bind at 1. rewrite readline_run by done. simpl stdout.
    unfold bind at 1. unfold decode_ascii at 1.
    assert (Hl1 : line (drop 1 (stdout p)) 0 = line (stdout p) 1).
    { unfold line. by rewrite lookup_drop. }
    rewrite Hl1.
    rewrite (line_ok_line _ 1 _ Hok) by (simpl; lia). unfold ret at 1.
    unfold bind at 1. unfold write_pipeline at 1, bind at 1, roundtrip.
    simpl faults. rewrite Hf.
    match goal with
    | |- context [read_pairs _ _ rest ?p1 ?w1] =>
        destruct (IH p1 w1) as (w' & Hrun & Hf' & Hnow & Htr & Hst)
    end.
    { done. }
    { cbn [stdout]. rewrite drop_drop, take_drop_commute.
      apply Forall_drop. apply (Forall_take_le _ _ _ _ Hok). simpl. lia. }
    exists w'. simpl in *. rewrite Hrun. rewrite !drop_drop.
    split.
    { assert ((1 + (1 + (length rest + (length rest + 0)))
               = S (length rest + S (length rest + 0)))%nat) as -> by lia.
      done. }
    split; [done|]. split; [done|]. split.
    + rewrite Htr. rewrite <- !app_assoc. simpl. by rewrite drop_drop.
    + rewrite Hst. by rewrite drop_drop.
Qed.
(** ** One call of [generate_instances] *)

Lemma bind_run {A B} (m : M A) (k : A -> M B) (w w' : world) (a : A) :
  m w = (inr a, w') -> bind m k w = k a w'.
Proof. unfold bind. by intros ->. Qed.

Lemma hlen_run (key : string) (w : world) :
  faults w = [] -> hlen key w = (inr (Redis.hlen key (store w)), w).
Proof. intros Hf. unfold hlen, bind, roundtrip. by rewrite Hf. Qed.

Lemma delete_key_run (key : string) (w : world) :
  faults w = [] ->
  delete_key key w
  = (inr tt, log (EvDelete key) (set_store (Redis.del key (store w)) w)).
Proof. intros Hf. unfold delete_key, bind, roundtrip. by rewrite Hf. Qed.

Lemma slice_lookup {A} (xs : list A) (a b : Z) (i : nat) (x : A) :
  0 <= a -> 0 <= b ->
  Py.slice xs a b !! i = Some x
  <-> xs !! (Z.to_nat a + i)%nat = Some x /\ a + Z.of_nat i < b.
Proof.
  intros Ha Hb. unfold Py.slice, Py.clamp.
  rewrite !bool_decide_eq_false_2 by lia.
  split.
  - intros H. apply lookup_take_Some in H as [H Hi].
    rewrite lookup_drop in H. pose proof (lookup_lt_Some _ _ _ H) as Hlt.
    replace (Z.to_nat (Z.of_nat (length xs) `min` a)) with (Z.to_nat a) in H by lia.
    split; [done|]. lia.
  - intros [H Hlt]. pose proof (lookup_lt_Some _ _ _ H) as Hlen.
    apply lookup_take_Some. split; [|lia].
    rewrite lookup_drop.
    by replace (Z.to_nat (Z.of_nat (length xs) `min` a)) with (Z.to_nat a) by lia.
Qed.

Lemma read_pairs_quiet (instance_key evaluation_key : string) (seeds : list Z) :
  forall (p : proc) (w : world),
  faults w = [] ->
  exists r w' rest,
    read_pairs instance_key evaluation_key seeds p w = (r, w')
    /\ faults w' = []
    /\ trace w' = trace w ++ rest
    /\ Forall quiet rest
    /\ Redis.strings (store w') = Redis.strings (store w).
Proof.
  induction seeds as [|s rest IH]; intros p w Hf.
  - exists (inr p), w, []. simpl. by rewrite app_nil_r.
  - simpl. unfold bind at 1.
    assert (Hrl : forall (q : proc) (v : world), faults v = [] ->
              (exists e, readline q v = (inl e, v))
              \/ (exists l q', readline q v = (inr (l, q'), log (EvReadline l) v))).
    { intros q v _. unfold readline. destruct (stdout q) as [|l ls].
      - right. by eexists _, _.
      - case_bool_decide; [left; by eexists|right; by eexists _, _]. }
    destruct (Hrl p w Hf) as [[e ->]|(l1 & p1 & ->)].
    { exists (inl e), w, []. by rewrite app_nil_r. }
    unfold bind at 1, decode_ascii at 1.
    destruct (is_ascii l1); cycle 1.
    { unfold raise. eexists (inl _), _, [_]. split; [reflexivity|]. simpl.
      repeat split; try done. by apply Forall_singleton. }
    unfold ret at 1. unfold bind at 1.
    destruct (Hrl p1 (log (EvReadline l1) w) Hf) as [[e ->]|(l2 & p2 & ->)].
    { eexists (inl _), _, [_]. split; [reflexivity|]. simpl.
      repeat split; try done. by apply Forall_singleton. }
    unfold bind at 1, decode_ascii at 1.
    destruct (is_ascii l2); cycle 1.
    { unfold raise. eexists (inl _), _, [_; _]. split; [reflexivity|]. simpl.
      rewrite <- app_assoc. repeat split; try done. by repeat constructor. }
    unfold ret at 1.
    unfold bind at 1, write_pipeline at 1, bind at 1, roundtrip.
    simpl faults. rewrite Hf.
    match goal with
    | |- context [read_pairs _ _ rest ?p' ?w1] =>
        destruct (IH p' w1) as (r & w' & evs & Hrun & Hf' & Htr & Hq & Hstr);
          [done|]
    end.
    exists r, w', (EvReadline l1 :: EvReadline l2
                   :: EvWrite instance_key evaluation_key (Py.str s)
                        (Py.strip l1) (Py.strip l2) :: evs).
    split; [done|]. split; [done|]. split; [|split].
    + rewrite Htr. simpl. rewrite <- !app_assoc. done.
    + by repeat constructor.
    + by rewrite Hstr.
Qed.

Section GenerateInstances.

Variable instance_generator : list string -> list string * Z.
Variables (random_seeds : list Z).
Variables (k_range m_range num_pois num_sensors num_sinks area_side
           covg_radius comm_radius target_instances : Z).

Let instance_key := instance_key_of num_pois num_sensors num_sinks area_side
                      covg_radius comm_radius.
Let evaluation_key := evaluation_key_of num_pois num_sensors num_sinks
                        area_side covg_radius comm_radius.
Let blocks := Py.range 0 target_instances BLOCK_SIZE.
Let run := generate_instances instance_generator random_seeds k_range m_range
             num_pois num_sensors num_sinks area_side covg_radius comm_radius
             target_instances.
Let args := generator_args k_range m_range num_pois num_sensors num_sinks
              area_side covg_radius comm_radius.

(** The configuration is complete: nothing is touched. *)
Lemma generate_instances_complete (w : world) :
  faults w = [] ->
  target_instances <= Redis.hlen instance_key (store w) ->
  run w = (inr (Redis.hlen instance_key (store w), 0), w).
Proof.
  intros Hf Hge. unfold run, generate_instances.
  rewrite (bind_run _ _ _ _ _ (hlen_run _ w Hf)).
  unfold instance_key, instance_key_of in *.
  by rewrite bool_decide_eq_true_2 by lia.
Qed.

(** The configuration is not complete: the blocks are scanned, and what
    follows depends on the position [n] at which the scan stops. *)
Lemma generate_instances_incomplete (w : world) :
  faults w = [] ->
  Redis.hlen instance_key (store w) < target_instances ->
  let existing := Redis.hlen instance_key (store w) in
  exists (n : nat) (w1 : world),
    scan_blocks instance_key blocks (0, None, None) w
    = (inr (scan_result instance_key (0, None, None) blocks n), w1)
    /\ (n <= length blocks)%nat
    /\ faults w1 = []
    /\ now w1 = now w + 50 * Z.of_nat (n `min` length blocks)
    /\ trace w1 = trace w ++ scan_events instance_key (take n blocks) (blocks !! n)
    /\ Redis.hashes (store w1) = Redis.hashes (store w)
    /\ store w1 = scanned_store instance_key (now w) (take (S n) blocks)
                    (store w)
    /\ (forall (i : nat) (b : Z), (i < n)%nat -> blocks !! i = Some b ->
          is_Some (holder (now w + 50 * Z.of_nat i) (lock_key b instance_key)
                     (store w)))
    /\ match blocks !! n with
       | None => run w = (inr (existing, -1), w1)
       | Some block =>
           holder (now w + 50 * Z.of_nat n) (lock_key block instance_key)
             (store w) = None
           /\ (n = 0%nat ->
               store w1 = (Redis.setnx_expire (now w)
                             (lock_key block instance_key)
                             (Py.str (now w * 1000000)) LOCK_TIME (store w)).1)
           /\ let to_generate :=
                absent_seeds instance_key (store w)
                  (Py.slice random_seeds (Z.max block existing)
                     target_instances) in
              let w2 := log (EvPrint ("GOT LOCK :: " +:+ instance_key
                                      +:+ " ::> " +:+ Py.str block)) w1 in
              let out := (instance_generator (args to_generate)).1 in
              let status := (instance_generator (args to_generate)).2 in
              let pairs := pair_up to_generate out in
              if bool_decide (to_generate = [])
              then run w = (inr (existing, -2), w2)
              else
                (exists r w' rest,
                   run w = (r, w')
                   /\ trace w' = trace w2 ++ EvSpawn (args to_generate) :: rest
                   /\ Forall quiet rest
                   /\ (forall prev cur : Z, r = inr (prev, cur) ->
                         cur = Z.of_nat (length to_generate))
                   /\ forall key : string,
                        key <> lock_key block instance_key ->
                        Redis.strings (store w') !! key
                        = Redis.strings (store w1) !! key)
                /\
                (Forall line_ok (take (2 * length to_generate) out) ->
                exists w' : world,
                  run w = (inr (Redis.hlen instance_key (store w'),
                                Z.of_nat (length to_generate)), w')
                  /\ faults w' = []
                  /\ now w' = now w1
                  /\ trace w' = trace w2 ++ [EvSpawn (args to_generate)]
                       ++ concat (pair_events instance_key evaluation_key
                                    <$> pairs)
                       ++ [EvWait status;
                           EvDelete (lock_key block instance_key)]
                  /\ store w' = Redis.del (lock_key block instance_key)
                                  (foldl (write_pair instance_key evaluation_key)
                                     (store w1) pairs))
       end.
Proof.
  intros Hf Hlt existing.
  destruct (scan_blocks_run instance_key blocks (0, None, None) w Hf
              (range_NoDup _))
    as (n & w1 & Hscan & Hn & Hf1 & Hnow & Htr & Hh & Hheld & Hfree & Hst0
        & Hsc).
  exists n, w1. do 8 (split; [done|]).
  unfold run, generate_instances.
  rewrite (bind_run _ _ _ _ _ (hlen_run _ w Hf)).
  change ("INSTANCE:" +:+ config_suffix num_pois num_sensors num_sinks
            area_side covg_radius comm_radius) with instance_key.
  change ("EVALUATION:" +:+ config_suffix num_pois num_sensors num_sinks
            area_side covg_radius comm_radius) with evaluation_key.
  fold blocks existing.
  rewrite bool_decide_eq_false_2 by (unfold existing; lia).
  rewrite (bind_run _ _ _ _ _ Hscan).
  unfold scan_result.
  destruct (blocks !! n) as [block|] eqn:Hb.
  - split; [by apply Hfree|]. split; [intros ->; by apply Hst0|]. cbv zeta.
    set (w2 := log (EvPrint ("GOT LOCK :: " +:+ instance_key +:+ " ::> "
                             +:+ Py.str block)) w1).
    set (tg := absent_seeds instance_key (store w)
                 (Py.slice random_seeds (block `max` existing) target_instances)).
    assert (Hpr : print ("GOT LOCK :: " +:+ instance_key +:+ " ::> "
                         +:+ Py.str block) w1 = (inr tt, w2)) by done.
    assert (Hf2 : faults w2 = []) by done.
    assert (Hms : missing_seeds instance_key
                    (Py.slice random_seeds (block `max` existing) target_instances)
                    w2 = (inr tg, w2)).
    { rewrite missing_seeds_run by done. unfold tg, absent_seeds.
      unfold Redis.hexists, Redis.hash. simpl. by rewrite Hh. }
    rewrite (bind_run _ _ _ _ _ Hpr), (bind_run _ _ _ _ _ Hms).
    case_bool_decide as Htg.
    + by rewrite Htg.
    + rewrite bool_decide_eq_false_2 by (by destruct tg).
      change (map Py.str _) with (args tg).
      assert (Hsp : create_subprocess_exec instance_generator (args tg) w2
                    = (inr (Proc (instance_generator (args tg)).1
                              (instance_generator (args tg)).2),
                       log (EvSpawn (args tg)) w2)).
      { unfold create_subprocess_exec, bind, exec_request, roundtrip, emit.
        rewrite Hf2. by destruct (instance_generator (args tg)). }
      rewrite (bind_run _ _ _ _ _ Hsp).
      destruct (instance_generator (args tg)) as [out status] eqn:Hgen.
      simpl fst. simpl snd. split.
      { destruct (read_pairs_quiet instance_key evaluation_key tg
                    (Proc out status) (log (EvSpawn (args tg)) w2))
          as ([e|p3] & w3 & evs & Hrd & Hf3 & Htr3 & Hq3 & Hstr3); [done| |].
        - exists (inl e), w3, evs. unfold bind. rewrite Hrd.
          split; [done|]. split.
          { rewrite Htr3. simpl. by rewrite <- app_assoc. }
          split; [done|]. split; [done|]. intros key _. by rewrite Hstr3.
        - rewrite (bind_run _ _ _ _ _ Hrd).
          unfold bind at 1, wait at 1, bind at 1, emit at 1. unfold ret at 1.
          set (w4 := log _ w3).
          assert (Hf4 : faults w4 = []) by done.
          rewrite (bind_run _ _ _ _ _ (hlen_run _ w4 Hf4)).
          rewrite (bind_run _ _ _ _ _ (delete_key_run _ w4 Hf4)).
          eexists _, _, (evs ++ [EvWait (returncode p3);
                                 EvDelete (lock_key block instance_key)]).
          split; [reflexivity|]. split.
          { simpl. rewrite Htr3. simpl. rewrite <- !app_assoc. done. }
          split.
          { apply Forall_app. split; [done|]. by repeat constructor. }
          split; [by intros prev cur [= _ <-]|].
          intros key Hkey. simpl. rewrite lookup_delete_ne by done.
          by rewrite Hstr3. }
      intros Hok.
      destruct (read_pairs_run instance_key evaluation_key tg
                  (Proc out status) (log (EvSpawn (args tg)) w2))
        as (w3 & Hrd & Hf3 & Hnow3 & Htr3 & Hst3); [done|done|].
      rewrite (bind_run _ _ _ _ _ Hrd).
      unfold bind at 1, wait at 1, bind at 1, emit at 1. unfold ret at 1.
      set (w4 := log _ w3).
      assert (Hf4 : faults w4 = []) by done.
      rewrite (bind_run _ _ _ _ _ (hlen_run _ w4 Hf4)).
      rewrite (bind_run _ _ _ _ _ (delete_key_run _ w4 Hf4)).
      exists (log (EvDelete (lock_key block instance_key))
                (set_store (Redis.del (lock_key block instance_key) (store w4))
                   w4)).
      split.
      { unfold ret. simpl. do 3 f_equal.
        unfold Redis.hlen, Redis.hash, Redis.del. simpl.
        by rewrite lookup_delete_ne. }
      simpl in *. split; [done|]. split; [by rewrite Hnow3|].
      split.
      * rewrite Htr3. rewrite <- !app_assoc. done.
      * by rewrite Hst3.
  - destruct (last blocks) as [b|] eqn:Hlast; [done|].
    apply last_None in Hlast.
    assert (H0 : blocks !! 0%nat = Some 0).
    { apply range_lookup. unfold BLOCK_SIZE.
      unfold Redis.hlen in Hlt. split; lia. }
    by rewrite Hlast in H0.
Qed.


(** The position at which the scan stops is settled by the store: it is
    the first block that is free at the instant of its visit. *)
Lemma first_free_unique (w : world) (n n' : nat) :
  (n <= length blocks)%nat -> (n' <= length blocks)%nat ->
  (forall (i : nat) (b : Z), (i < n)%nat -> blocks !! i = Some b ->
     is_Some (holder (now w + 50 * Z.of_nat i) (lock_key b instance_key)
                (store w))) ->
  (forall b : Z, blocks !! n = Some b ->
     holder (now w + 50 * Z.of_nat n) (lock_key b instance_key) (store w)
     = None) ->
  (forall (i : nat) (b : Z), (i < n')%nat -> blocks !! i = Some b ->
     is_Some (holder (now w + 50 * Z.of_nat i) (lock_key b instance_key)
                (store w))) ->
  (forall b : Z, blocks !! n' = Some b ->
     holder (now w + 50 * Z.of_nat n') (lock_key b instance_key) (store w)
     = None) ->
  n = n'.
Proof.
  intros Hn Hn' Hheld Hfree Hheld' Hfree'.
  destruct (lt_eq_lt_dec n n') as [[Hlt|Heq]|Hgt]; [|done|]; exfalso.
  - destruct (lookup_lt_is_Some_2 blocks n ltac:(lia)) as [b Hb].
    destruct (Hheld' n b Hlt Hb) as [v Hv]. by rewrite (Hfree b Hb) in Hv.
  - destruct (lookup_lt_is_Some_2 blocks n' ltac:(lia)) as [b Hb].
    destruct (Hheld n' b Hgt Hb) as [v Hv]. by rewrite (Hfree' b Hb) in Hv.
Qed.

(** C7.  For a configuration whose count of instance records is below the
    target, the blocks visited are the offsets [0], [B], [2B], ... below
    the target, in increasing order (for a target of 45: 0, 20, 40).  The
    loop of lines 30-39 stops at a position [n] and leaves the store that
    the transactions [SETNX] and [EXPIRE] on the keys of the blocks at the
    positions up to [n] give, one transaction per block, in that order and
    50 ms apart.  Each block before [n] was held at the instant of its
    visit: the create was refused, the key keeps the value of its holder
    and its time to live is [LOCK_TIME] again.  Block [n], when there is
    one, was free: its key is created with the instant of the visit as
    value and a time to live of [LOCK_TIME].  The keys of the blocks after
    [n] are not touched.  The call makes exactly these lock attempts and no
    other, and what it does after the scan changes no key but the one it
    claimed. *)
Theorem block_scan_order (w : world) :
  faults w = [] ->
  Redis.hlen instance_key (store w) < target_instances ->
  (forall (i : nat) (b : Z),
      blocks !! i = Some b
      <-> b = BLOCK_SIZE * Z.of_nat i /\ b < target_instances)
  /\ Py.range 0 45 BLOCK_SIZE = [0; 20; 40]
  /\ exists (n : nat) (w1 : world) (r : exn + Z * Z) (w' : world)
            (rest : list event),
       scan_blocks instance_key blocks (0, None, None) w
       = (inr (scan_result instance_key (0, None, None) blocks n), w1)
       /\ store w1 = scanned_store instance_key (now w) (take (S n) blocks)
                       (store w)
       /\ run w = (r, w')
       /\ trace w' = trace w
            ++ scan_events instance_key (take n blocks) (blocks !! n) ++ rest
       /\ Forall not_lock rest
       /\ (forall (i : nat) (b : Z), (i < n)%nat -> blocks !! i = Some b ->
             let t := now w + 50 * Z.of_nat i in
             exists holder_stamp : string,
               holder t (lock_key b instance_key) (store w) = Some holder_stamp
               /\ Redis.strings (store w1) !! lock_key b instance_key
                  = Some (Redis.Entry holder_stamp
                            (Some (t + LOCK_TIME * 1000))))
       /\ (forall b : Z, blocks !! n = Some b ->
             let t := now w + 50 * Z.of_nat n in
             holder t (lock_key b instance_key) (store w) = None
             /\ Redis.strings (store w1) !! lock_key b instance_key
                = Some (Redis.Entry (Py.str (t * 1000000))
                          (Some (t + LOCK_TIME * 1000))))
       /\ (forall (i : nat) (b : Z), (n < i)%nat -> blocks !! i = Some b ->
             Redis.strings (store w1) !! lock_key b instance_key
             = Redis.strings (store w) !! lock_key b instance_key)
       /\ (forall key : string,
             (forall b : Z, blocks !! n = Some b ->
                            key <> lock_key b instance_key) ->
             Redis.strings (store w') !! key = Redis.strings (store w1) !! key).
Proof.
  intros Hf Hlt. split; [intros i b; apply range_lookup|].
  split; [reflexivity|].
  destruct (generate_instances_incomplete w Hf Hlt)
    as (n & w1 & Hscan & Hn & Hf1 & Hnow & Htr & Hh & Hsc & Hheld & Hcase).
  assert (Hnd : NoDup (take (S n) blocks)).
  { eapply sublist_NoDup; [apply range_NoDup|apply sublist_take]. }
  assert (Hbefore : forall (i : nat) (b : Z), (i < n)%nat ->
            blocks !! i = Some b ->
            let t := now w + 50 * Z.of_nat i in
            exists holder_stamp : string,
              holder t (lock_key b instance_key) (store w) = Some holder_stamp
              /\ Redis.strings (store w1) !! lock_key b instance_key
                 = Some (Redis.Entry holder_stamp
                           (Some (t + LOCK_TIME * 1000)))).
  { intros i b Hi Hb t. subst t. destruct (Hheld i b Hi Hb) as [v Hv].
    exists v. split; [done|]. rewrite Hsc.
    rewrite (scanned_store_visited _ _ _ _ i b Hnd)
      by (rewrite lookup_take_lt by lia; done).
    by rewrite Hv. }
  assert (Hafter : forall (i : nat) (b : Z), (n < i)%nat ->
            blocks !! i = Some b ->
            Redis.strings (store w1) !! lock_key b instance_key
            = Redis.strings (store w) !! lock_key b instance_key).
  { intros i b Hi Hb. rewrite Hsc. apply scanned_store_other.
    intros b' Hb' Heq%lock_key_inj. subst b'.
    apply list_elem_of_lookup in Hb' as [j Hj].
    apply lookup_take_Some in Hj as [Hj Hjn].
    pose proof (NoDup_lookup _ _ _ _ (range_NoDup target_instances) Hb Hj).
    lia. }
  exists n, w1. destruct (blocks !! n) as [block|] eqn:Hb.
  - destruct Hcase as (Hfree & _ & Hcase). cbv zeta in Hcase.
    assert (Hat : forall b : Z, Some block = Some b ->
              let t := now w + 50 * Z.of_nat n in
              holder t (lock_key b instance_key) (store w) = None
              /\ Redis.strings (store w1) !! lock_key b instance_key
                 = Some (Redis.Entry (Py.str (t * 1000000))
                           (Some (t + LOCK_TIME * 1000)))).
    { intros b [= <-] t. subst t. split; [done|]. rewrite Hsc.
      rewrite (scanned_store_visited _ _ _ _ n block Hnd)
        by (rewrite lookup_take_lt by lia; done).
      by rewrite Hfree. }
    case_bool_decide as Htg.
    + eexists _, _, [_]. split; [exact Hscan|]. split; [exact Hsc|].
      split; [exact Hcase|]. simpl. rewrite Htr.
      rewrite <- app_assoc. split; [reflexivity|].
      split; [by repeat constructor|]. done.
    + destruct Hcase as [(r & w' & rest & Hrun & Htr' & Hq & _ & Hstr) _].
      eexists r, w', (_ :: _ :: rest). split; [exact Hscan|].
      split; [exact Hsc|]. split; [exact Hrun|].
      rewrite Htr'. simpl. rewrite Htr. rewrite <- !app_assoc. simpl.
      split; [reflexivity|]. split.
      { constructor; [done|]. constructor; [done|].
        eapply Forall_impl; [exact Hq|]. by intros []. }
      split; [done|]. split; [done|]. split; [done|].
      intros key Hkey. apply Hstr. by apply Hkey.
  - exists (inr (Redis.hlen instance_key (store w), -1)), w1, [].
    rewrite app_nil_r. by repeat split.
Qed.

(** C8.  When the call claims the block at offset [block], that is, when
    this block is the first of the range that is free at the instant of its
    visit, and the configuration has [existing] instance records, the
    seeds given to the generator, after the eight parameters, are the seeds
    at the positions from [max block existing] up to but not including the
    target, in the order of the seed universe, without those that have an
    instance record in the store.  The generator is started once with these
    seeds, and the work returned is their number; it is not started at all
    when no seed is left, and the call then returns [-2]. *)
Theorem generation_range (w : world) (n : nat) (block : Z) :
  faults w = [] ->
  Redis.hlen instance_key (store w) < target_instances ->
  first_free instance_key target_instances (now w) (store w) n block ->
  let existing := Redis.hlen instance_key (store w) in
  let first := Z.max block existing in
  let range := Py.slice random_seeds first target_instances in
  let to_generate :=
    filter (fun s => Redis.hexists instance_key (Py.str s) (store w) = false)
      range in
  (forall (i : nat) (s : Z),
      range !! i = Some s
      <-> random_seeds !! (Z.to_nat first + i)%nat = Some s
          /\ first + Z.of_nat i < target_instances)
  /\ exists (r : exn + Z * Z) (w' : world) (rest : list event),
       run w = (r, w')
       /\ trace w' = trace w
            ++ scan_events instance_key (take n blocks) (Some block)
            ++ EvPrint ("GOT LOCK :: " +:+ instance_key +:+ " ::> "
                        +:+ Py.str block)
               :: (if bool_decide (to_generate = []) then []
                   else EvSpawn (args to_generate) :: rest)
       /\ Forall quiet rest
       /\ (to_generate = [] -> r = inr (existing, -2))
       /\ (forall prev cur : Z, to_generate <> [] -> r = inr (prev, cur) ->
             cur = Z.of_nat (length to_generate)).
Proof.
  intros Hf Hlt (Hblock & Hbefore & Hat) existing first range to_generate.
  fold blocks in Hblock, Hbefore.
  destruct (generate_instances_incomplete w Hf Hlt)
    as (n' & w1 & Hscan & Hn & Hf1 & Hnow & Htr & Hh & Hsc & Hheld & Hcase).
  assert (n = n') as <-.
  { apply (first_free_unique w); try done.
    - apply lookup_lt_Some in Hblock. lia.
    - intros b Hb. rewrite Hblock in Hb. by injection Hb as <-.
    - intros b Hb. rewrite Hb in Hcase. by destruct Hcase as [? _]. }
  rewrite Hblock in Hcase, Htr.
  destruct Hcase as (_ & _ & Hcase). cbv zeta in Hcase.
  fold existing in Hcase. unfold absent_seeds in Hcase.
  fold first range to_generate in Hcase.
  assert (Hpos : 0 <= first /\ 0 <= target_instances).
  { unfold first, existing, Redis.hlen in *. lia. }
  split; [intros i s; apply slice_lookup; lia|].
  case_bool_decide as Htg.
  - eexists _, _, []. split; [exact Hcase|]. simpl. rewrite Htr.
    rewrite <- app_assoc. by repeat split.
  - destruct Hcase as [(r & w' & rest & Hrun & Htr' & Hq & Hcur & _) _].
    exists r, w', rest. split; [exact Hrun|].
    rewrite Htr'. simpl. rewrite Htr. rewrite <- !app_assoc.
    split; [done|]. split; [done|]. split; [done|].
    intros prev cur _ Hr. by apply (Hcur prev cur).
Qed.

(** What a call on a configuration that is not complete returns, by what
    the scan finds. *)
Lemma call_outcome (w : world) :
  faults w = [] ->
  Redis.hlen instance_key (store w) < target_instances ->
  let existing := Redis.hlen instance_key (store w) in
  let held := all_held instance_key target_instances (now w) (store w) in
  let free := first_free instance_key target_instances (now w) (store w) in
  let left := fun block : Z =>
    absent_seeds instance_key (store w)
      (Py.slice random_seeds (Z.max block existing) target_instances) in
  (held \/ exists (n : nat) (block : Z), free n block)
  /\ (held ->
      (forall (n : nat) (block : Z), ~ free n block)
      /\ exists w' : world,
           run w = (inr (existing, -1), w')
           /\ Redis.hashes (store w') = Redis.hashes (store w))
  /\ (forall (n : nat) (block : Z), free n block ->
        (left block = [] ->
         exists w' : world,
           run w = (inr (existing, -2), w')
           /\ Redis.hashes (store w') = Redis.hashes (store w))
        /\ (left block <> [] ->
            forall (prev cur : Z) (w' : world),
              run w = (inr (prev, cur), w') ->
              cur = Z.of_nat (length (left block)) /\ 0 < cur)).
Proof.
  intros Hf Hlt existing held free left.
  destruct (generate_instances_incomplete w Hf Hlt)
    as (n' & w1 & Hscan & Hn & Hf1 & Hnow & Htr & Hh & Hsc & Hheld & Hcase).
  assert (Hfree' : forall b : Z, blocks !! n' = Some b ->
            holder (now w + 50 * Z.of_nat n') (lock_key b instance_key)
              (store w) = None).
  { intros b Hb. rewrite Hb in Hcase. by destruct Hcase as [? _]. }
  assert (Hexcl : held -> forall (n : nat) (block : Z), ~ free n block).
  { intros Hheld' n block (Hb & _ & Hnone).
    destruct (Hheld' n block Hb) as [v Hv]. by rewrite Hnone in Hv. }
  split; [|split].
  - destruct (blocks !! n') as [block|] eqn:Hb.
    + right. exists n', block. split; [done|]. split; [done|]. by apply Hfree'.
    + left. intros i b Hi. apply (Hheld i b); [|done].
      apply lookup_lt_Some in Hi. apply lookup_ge_None in Hb.
      fold blocks in Hi. lia.
  - intros Hheld'. split; [by apply Hexcl|].
    destruct (blocks !! n') as [block|] eqn:Hb.
    + exfalso. destruct (Hheld' n' block Hb) as [v Hv].
      by rewrite (Hfree' block eq_refl) in Hv.
    + by exists w1.
  - intros n block (Hb & Hbefore & Hnone). fold blocks in Hb, Hbefore.
    assert (n = n') as <-.
    { apply (first_free_unique w); try done.
      - apply lookup_lt_Some in Hb. lia.
      - intros b Hb'. rewrite Hb in Hb'. by injection Hb' as <-. }
    rewrite Hb in Hcase. destruct Hcase as (_ & _ & Hcase).
    cbv zeta in Hcase. fold existing in Hcase. fold (left block) in Hcase.
    split.
    + intros Hnil. rewrite bool_decide_eq_true_2 in Hcase by done.
      eexists. split; [exact Hcase|]. done.
    + intros Hne prev cur w' Hrun.
      rewrite bool_decide_eq_false_2 in Hcase by done.
      destruct Hcase as [(r0 & w0 & rest & Hrun' & _ & _ & Hcur & _) _].
      rewrite Hrun' in Hrun. injection Hrun as -> ->.
      specialize (Hcur prev cur eq_refl). split; [done|].
      rewrite Hcur. destruct (left block); [done|simpl; lia].
Qed.

End GenerateInstances.

(** ** The pairs read from the generator *)

Lemma pair_up_lookup (seeds : list Z) : forall (out : list string) (i : nat)
    (s : Z) (a b : string),
  pair_up seeds out !! i = Some (s, (a, b))
  <-> seeds !! i = Some s /\ a = line out (2 * i) /\ b = line out (2 * i + 1).
Proof.
  induction seeds as [|s0 rest IH]; intros out i s a b; simpl.
  - split; [done|]. by intros [? _].
  - destruct i as [|i]; simpl.
    + split; [by intros [= <- <- <-]|]. by intros ([= <-] & -> & ->).
    + rewrite IH. unfold line. rewrite !lookup_drop.
      replace (2 + 2 * i)%nat with (S (i + S (i + 0))) by lia.
      replace (2 + (2 * i + 1))%nat with (S (i + S (i + 0) + 1)) by lia.
      done.
Qed.

(** C3, as the code has it.  For a batch of [K] seeds the driver calls
    [readline] exactly [2K] times and pairs line [2i] and line [2i+1] with
    the [i]-th seed, in the order of the seeds; a line that is missing
    because the stream has ended is read as the empty string.  Whatever the
    number of lines of the generator and whatever its exit status, reading
    and waiting end without an exception once the lines read are within the
    limit and ASCII: a pair is written for every seed, and the exit status
    is only returned by [wait]. *)
Theorem pairing_integrity (instance_key evaluation_key : string)
    (seeds : list Z) (p : proc) (w : world) :
  faults w = [] ->
  Forall line_ok (take (2 * length seeds) (stdout p)) ->
  (forall (i : nat) (s : Z) (a b : string),
      pair_up seeds (stdout p) !! i = Some (s, (a, b))
      <-> seeds !! i = Some s
          /\ a = line (stdout p) (2 * i) /\ b = line (stdout p) (2 * i + 1))
  /\ exists w' : world,
       bind (read_pairs instance_key evaluation_key seeds p) wait w
       = (inr (returncode p), w')
       /\ trace w' = trace w
            ++ concat (pair_events instance_key evaluation_key
                         <$> pair_up seeds (stdout p))
            ++ [EvWait (returncode p)]
       /\ store w' = foldl (write_pair instance_key evaluation_key) (store w)
                       (pair_up seeds (stdout p)).
Proof.
  intros Hf Hok. split; [apply pair_up_lookup|].
  destruct (read_pairs_run instance_key evaluation_key seeds p w Hf Hok)
    as (w1 & Hrun & Hf1 & Hnow & Htr & Hst).
  rewrite (bind_run _ _ _ _ _ Hrun).
  exists (log (EvWait (returncode p)) w1). unfold wait, bind, emit, ret. simpl.
  split; [done|]. split; [|done]. rewrite Htr. by rewrite <- app_assoc.
Qed.

Lemma pairing_integrity_witness :
  exists w' : world,
    bind (read_pairs "INSTANCE:1:2:3:4:5:6" "EVALUATION:1:2:3:4:5:6" [7; 9]
            (Proc ["a"; "b"; "c"] 3)) wait fresh_world
    = (inr 3, w')
    /\ trace w'
       = [EvReadline "a"; EvReadline "b";
          EvWrite "INSTANCE:1:2:3:4:5:6" "EVALUATION:1:2:3:4:5:6" "7" "a" "b";
          EvReadline "c"; EvReadline "";
          EvWrite "INSTANCE:1:2:3:4:5:6" "EVALUATION:1:2:3:4:5:6" "9" "c" "";
          EvWait 3].
Proof.
  destruct (pairing_integrity "INSTANCE:1:2:3:4:5:6" "EVALUATION:1:2:3:4:5:6"
              [7; 9] (Proc ["a"; "b"; "c"] 3) fresh_world) as [_ (w' & H1 & H2 & _)].
  - reflexivity.
  - simpl. repeat constructor; vm_compute; congruence.
  - exists w'. split; [exact H1|]. rewrite H2. reflexivity.
Defined.

(** C3 is false as stated: for one seed and a generator that writes nothing
    and exits with status 1, the call returns normally, reports one instance
    of new work and has stored empty payloads for the seed. *)
Lemma short_output_is_silent :
  let r := generate_instances silent_generator [7] 1 1 1 2 3 4 5 6 1 fresh_world in
  r.1 = inr (1, 1)
  /\ Redis.hash "INSTANCE:1:2:3:4:5:6" (store r.2) !! "7" = Some ""
  /\ Redis.hash "EVALUATION:1:2:3:4:5:6" (store r.2) !! "7" = Some ""
  /\ EvWait 1 ∈ trace r.2.
Proof.
  vm_compute. repeat split; try reflexivity.
  repeat (first [apply list_elem_of_here | apply list_elem_of_further]).
Qed.

Lemma block_scan_order_witness :
  exists (r : exn + Z * Z) (w' : world) (rest : list event),
    generate_instances echo_generator fifty_seeds 1 1 1 2 3 4 5 6 45
      contended_world = (r, w')
    /\ trace w'
       = [EvLock "LOCK:BLOCK0:INSTANCE:1:2:3:4:5:6" false; EvSleep 50;
          EvLock "LOCK:BLOCK20:INSTANCE:1:2:3:4:5:6" true] ++ rest
    /\ Forall not_lock rest
    /\ Redis.strings (store w') !! "LOCK:BLOCK0:INSTANCE:1:2:3:4:5:6"
       = Some (Redis.Entry "other" (Some 10004000)).
Proof.
  destruct (block_scan_order echo_generator fifty_seeds 1 1 1 2 3 4 5 6 45
              contended_world)
    as (_ & _ & n & w1 & r & w' & rest & H1 & H2 & H3 & H4 & H5 & H6 & H7
        & H8 & H9).
  - reflexivity.
  - vm_compute. reflexivity.
  - assert (Hn : n = 1%nat).
    { destruct n as [|[|n]]; [|done|].
      - destruct (H7 0 eq_refl) as [Habs _]. by vm_compute in Habs.
      - destruct (H6 1%nat 20 ltac:(lia) eq_refl) as (v & Habs & _).
        by vm_compute in Habs. }
    subst n. exists r, w', rest. split; [exact H3|]. split; [exact H4|].
    split; [exact H5|].
    change "LOCK:BLOCK0:INSTANCE:1:2:3:4:5:6"
      with (lock_key 0 (instance_key_of 1 2 3 4 5 6)).
    rewrite H9 by (intros b [= <-] Heq; by vm_compute in Heq).
    destruct (H6 0%nat 0 ltac:(lia) eq_refl) as (v & Hv & ->).
    vm_compute in Hv. by injection Hv as <-.
Defined.

Lemma generation_range_witness :
  exists (r : exn + Z * Z) (w' : world) (rest : list event),
    generate_instances echo_generator fifty_seeds 1 1 1 2 3 4 5 6 45
      contended_world = (r, w')
    /\ trace w'
       = [EvLock "LOCK:BLOCK0:INSTANCE:1:2:3:4:5:6" false; EvSleep 50;
          EvLock "LOCK:BLOCK20:INSTANCE:1:2:3:4:5:6" true;
          EvPrint "GOT LOCK :: INSTANCE:1:2:3:4:5:6 ::> 20";
          EvSpawn (Py.str <$> [1; 1; 1; 2; 3; 4; 5; 6]
                               ++ Py.range_from 120 1 25)]
         ++ rest
    /\ Forall quiet rest.
Proof.
  destruct (generation_range echo_generator fifty_seeds 1 1 1 2 3 4 5 6 45
              contended_world 1 20)
    as (_ & r & w' & rest & H1 & H2 & H3 & _).
  - reflexivity.
  - vm_compute. reflexivity.
  - split; [reflexivity|]. split; [|vm_compute; reflexivity].
    intros [|i] b Hi Hb; [|lia]. injection Hb as <-. vm_compute. by eexists.
  - exists r, w', rest. split; [exact H1|]. split; [exact H2|exact H3].
Defined.
(** ** The sweeps *)

Lemma chars_length (s x : string) : x ∈ Py.chars s -> String.length x = 1%nat.
Proof.
  induction s as [|c s IH]; simpl.
  - by intros ?%elem_of_nil.
  - intros [->|?]%elem_of_cons; [done|auto].
Qed.

(** The test of line 130 never holds: the iterable given to [issubset] is a
    string, whose items are single characters, and no word of the set is
    one. *)
Lemma is_transient_false (exp : exn) : is_transient exp = false.
Proof.
  unfold is_transient, Py.issubset. simpl.
  rewrite bool_decide_eq_false_2; [done|].
  by intros ?%chars_length.
Qed.

Section Sweeps.

Variable instance_generator : list string -> list string * Z.
Variables (random_seeds : list Z) (k_range m_range target_instances : Z).

Let call := generate_instances instance_generator random_seeds k_range m_range.
Let sweep' := sweep instance_generator random_seeds k_range m_range
                target_instances.
Let loop := convergence_loop instance_generator random_seeds k_range m_range
              target_instances.

Lemma run_config_returns (p s k a c r prev cur : Z) (ra : bool) (w w' : world) :
  call p s k a c r target_instances w = (inr (prev, cur), w') ->
  run_config instance_generator random_seeds k_range m_range target_instances
    p s k a c r ra w
  = (inr (ra || negb (bool_decide (cur = 0))),
     log (EvPrint (">>>> KCMC:" +:+ config_suffix p s k a c r +:+ " "
                   +:+ Py.str prev +:+ " " +:+ Py.str cur)) w').
Proof.
  intros H. unfold run_config, try_except, call in *.
  by rewrite (bind_run _ _ _ _ _ H).
Qed.

Lemma run_config_raises (p s k a c r : Z) (exp : exn) (ra : bool) (w w' : world) :
  call p s k a c r target_instances w = (inl exp, w') ->
  run_config instance_generator random_seeds k_range m_range target_instances
    p s k a c r ra w
  = (inl exp, w').
Proof.
  intros H. unfold run_config, try_except, call in *.
  unfold bind at 1. rewrite H. by rewrite is_transient_false.
Qed.

Lemma sweep_app (pre post : list (list Z)) : forall (ra : bool) (w : world),
  sweep' (pre ++ post) ra w
  = match sweep' pre ra w with
    | (inr b, w') => sweep' post b w'
    | (inl e, w') => (inl e, w')
    end.
Proof.
  induction pre as [|cfg pre IH]; intros ra w; [done|].
  unfold sweep'. simpl.
  destruct cfg as [|p [|s [|k [|a [|c [|r [|]]]]]]]; try done.
  unfold bind.
  destruct (run_config _ _ _ _ _ _ _ _ _ _ _ _ _) as [[e|b] w']; [done|].
  apply IH.
Qed.

Lemma sweep_flag (configs : list (list Z)) : forall (ra b : bool) (w w1 : world),
  sweep' configs ra w = (inr b, w1) ->
  b = true
  <-> ra = true
      \/ exists pre p s k a c r post b0 wa prev cur wb,
           configs = pre ++ [p; s; k; a; c; r] :: post
           /\ sweep' pre ra w = (inr b0, wa)
           /\ call p s k a c r target_instances wa = (inr (prev, cur), wb)
           /\ cur <> 0.
Proof.
  induction configs as [|cfg rest IH]; intros ra b w w1 Hsw.
  - injection Hsw as <- <-. split; [by left|].
    intros [?|(pre & ? & ? & ? & ? & ? & ? & ? & ? & ? & ? & ? & ? & Hc & _)]; [done|].
    by destruct pre.
  - unfold sweep' in Hsw. simpl in Hsw.
    destruct cfg as [|p [|s [|k [|a [|c [|r [|]]]]]]]; try done.
    unfold bind at 1 in Hsw.
    destruct (call p s k a c r target_instances w) as [[exp|[prev cur]] w'] eqn:Hcall.
    + rewrite (run_config_raises _ _ _ _ _ _ _ _ _ _ Hcall) in Hsw. done.
    + rewrite (run_config_returns _ _ _ _ _ _ _ _ _ _ _ Hcall) in Hsw.
      apply IH in Hsw. rewrite Hsw. clear Hsw. split.
      * intros [Hra|(pre & p' & s' & k' & a' & c' & r' & post & b0 & wa & prev'
                     & cur' & wb & -> & Hpre & Hc & Hne)].
        -- apply orb_true_iff in Hra as [->|Hcur]; [by left|]. right.
           exists [], p, s, k, a, c, r, rest, ra, w, prev, cur, w'.
           repeat split; try done.
           apply negb_true_iff, bool_decide_eq_false in Hcur. done.
        -- right.
           exists ([p; s; k; a; c; r] :: pre), p', s', k', a', c', r', post, b0,
             wa, prev', cur', wb.
           repeat split; try done.
           unfold sweep'. simpl. unfold bind at 1.
           rewrite (run_config_returns _ _ _ _ _ _ _ _ _ _ _ Hcall). done.
      * intros [->|(pre & p' & s' & k' & a' & c' & r' & post & b0 & wa & prev'
                    & cur' & wb & Heq & Hpre & Hc & Hne)]; [by left|].
        destruct pre as [|cfg0 pre].
        -- simpl in Heq. injection Heq as <- <- <- <- <- <- <-.
           injection Hpre as <- <-. unfold call in *. rewrite Hcall in Hc.
           injection Hc as <- <- <-. left.
           apply orb_true_iff. right.
           by apply negb_true_iff, bool_decide_eq_false.
        -- simpl in Heq. injection Heq as <- ->. right.
           exists pre, p', s', k', a', c', r', post, b0, wa, prev', cur', wb.
           repeat split; try done.
           unfold sweep' in Hpre. simpl in Hpre. unfold bind at 1 in Hpre.
           by rewrite (run_config_returns _ _ _ _ _ _ _ _ _ _ _ Hcall) in Hpre.
Qed.

End Sweeps.

(** C5, as the code has it.  A sweep that ends without an error is followed
    by another sweep exactly when, for some configuration of the sweep, the
    call returned a work value other than zero; otherwise the loop ends
    normally; a sweep that ends with an error ends the loop with it.  The
    flag [run_again] records just that.  The work value is zero exactly
    when the configuration was already complete.  A call on a configuration
    that is not complete returns [-1] exactly when the scan finds every
    block held, and [-2] exactly when it claims a block and no seed of the
    range of that block is left to generate; both leave the records as they
    were, and both make the loop sweep again.  A positive value is returned
    when seeds were left. *)
Theorem convergence_condition (instance_generator : list string -> list string * Z)
    (random_seeds : list Z) (k_range m_range target_instances : Z) :
  let call := generate_instances instance_generator random_seeds k_range m_range in
  let sweep' := sweep instance_generator random_seeds k_range m_range
                  target_instances in
  let loop := convergence_loop instance_generator random_seeds k_range m_range
                target_instances in
  let work := fun (configs : list (list Z)) (w : world) =>
    exists pre p s k a c r post b0 wa prev cur wb,
      configs = pre ++ [p; s; k; a; c; r] :: post
      /\ sweep' pre false w = (inr b0, wa)
      /\ call p s k a c r target_instances wa = (inr (prev, cur), wb)
      /\ cur <> 0 in
  (forall (configs : list (list Z)) (fuel : nat) (w : world),
      match sweep' configs false w with
      | (inr b, w1) =>
          (b = true <-> work configs w)
          /\ (work configs w -> loop configs (S fuel) w = loop configs fuel w1)
          /\ (~ work configs w -> loop configs (S fuel) w = (inr Finished, w1))
      | (inl e, w1) => loop configs (S fuel) w = (inl e, w1)
      end)
  /\ (forall (p s k a c r : Z) (w : world),
        faults w = [] ->
        let instance_key := instance_key_of p s k a c r in
        let existing := Redis.hlen instance_key (store w) in
        let held := all_held instance_key target_instances (now w) (store w) in
        let free := first_free instance_key target_instances (now w) (store w) in
        let left := fun block : Z =>
          absent_seeds instance_key (store w)
            (Py.slice random_seeds (Z.max block existing) target_instances) in
        (target_instances <= existing ->
         call p s k a c r target_instances w = (inr (existing, 0), w))
        /\ (existing < target_instances -> held ->
            exists w' : world,
              call p s k a c r target_instances w = (inr (existing, -1), w')
              /\ Redis.hashes (store w') = Redis.hashes (store w))
        /\ (existing < target_instances ->
            forall (n : nat) (block : Z), free n block -> left block = [] ->
            exists w' : world,
              call p s k a c r target_instances w = (inr (existing, -2), w')
              /\ Redis.hashes (store w') = Redis.hashes (store w))
        /\ (forall (prev cur : Z) (w' : world),
              call p s k a c r target_instances w = (inr (prev, cur), w') ->
              (cur = 0 <-> target_instances <= existing)
              /\ (cur = -1 <-> existing < target_instances /\ held)
              /\ (cur = -2
                  <-> existing < target_instances
                      /\ exists (n : nat) (block : Z),
                           free n block /\ left block = [])
              /\ (0 < cur
                  <-> existing < target_instances
                      /\ exists (n : nat) (block : Z),
                           free n block /\ left block <> [])
              /\ (cur <= 0 ->
                  prev = existing
                  /\ Redis.hashes (store w') = Redis.hashes (store w))
              /\ (cur = 0 \/ cur = -1 \/ cur = -2 \/ 0 < cur))).
Proof.
  intros call sweep' loop work. split.
  - intros configs fuel w.
    destruct (sweep' configs false w) as [[e|b] w1] eqn:Hsw.
    + unfold loop. simpl. unfold bind. fold sweep'. by rewrite Hsw.
    + assert (Hb : b = true <-> work configs w).
      { rewrite (sweep_flag _ _ _ _ _ _ _ _ _ _ Hsw). split; [|by right].
        by intros [?|?]. }
      split; [done|].
      unfold loop. simpl. unfold bind. fold sweep'. rewrite Hsw.
      split.
      * intros Hw. apply Hb in Hw. by subst b.
      * intros Hw. destruct b; [|done]. exfalso. by apply Hw, Hb.
  - intros p s k a c r w Hf instance_key existing held free left.
    split; [|split; [|split]].
    + intros Hge. by apply generate_instances_complete.
    + intros Hlt Hheld.
      by destruct (call_outcome instance_generator random_seeds k_range
                     m_range p s k a c r target_instances w Hf Hlt)
        as (_ & Hout & _); destruct (Hout Hheld).
    + intros Hlt n block Hfree Hnil.
      destruct (call_outcome instance_generator random_seeds k_range
                  m_range p s k a c r target_instances w Hf Hlt)
        as (_ & _ & Hout).
      by destruct (Hout n block Hfree) as [Hout' _]; apply Hout'.
    + intros prev cur w' Hrun.
      destruct (decide (target_instances <= existing)) as [Hge|Hlt].
      { unfold call in Hrun.
        rewrite generate_instances_complete in Hrun by done.
        injection Hrun as <- <- <-.
        repeat split; try done; try lia; auto; intros; lia. }
      assert (Hlt' : existing < target_instances) by lia.
      destruct (call_outcome instance_generator random_seeds k_range
                  m_range p s k a c r target_instances w Hf Hlt')
        as (Hcases & Hheld & Hfree).
      fold instance_key existing held free left in Hcases, Hheld, Hfree.
      destruct Hcases as [Hh|(n & block & Hfr)].
      * destruct (Hheld Hh) as (Hno & w1 & Hrun1 & Hh1).
        unfold call in Hrun. rewrite Hrun1 in Hrun.
        injection Hrun as <- <- <-.
        split; [split; lia|]. split; [done|].
        split.
        { split; [done|].
          intros [_ (n & block & Hfr & _)]. by destruct (Hno n block). }
        split.
        { split; [lia|].
          intros [_ (n & block & Hfr & _)]. by destruct (Hno n block). }
        split; [done|]. auto.
      * destruct (Hfree n block Hfr) as [Hnil Hsome].
        assert (Hnot : ~ held).
        { intros Hh. destruct (Hheld Hh) as [Hno _]. by apply (Hno n block). }
        assert (Huniq : forall (n' : nat) (block' : Z),
                  free n' block' -> block' = block).
        { intros n' block' Hfr'.
          destruct Hfr as (Hb & Hbefore & Hnone).
          destruct Hfr' as (Hb' & Hbefore' & Hnone').
          assert (n = n').
          { apply (first_free_unique p s k a c r target_instances w);
              try done.
            - apply lookup_lt_Some in Hb. lia.
            - apply lookup_lt_Some in Hb'. lia.
            - intros b Hb0. rewrite Hb in Hb0. by injection Hb0 as <-.
            - intros b Hb0. rewrite Hb' in Hb0. by injection Hb0 as <-. }
          subst n'. rewrite Hb in Hb'. by injection Hb'. }
        destruct (decide (left block = [])) as [Hl|Hl].
        -- destruct (Hnil Hl) as (w1 & Hrun1 & Hh1).
           unfold call in Hrun. rewrite Hrun1 in Hrun.
           injection Hrun as <- <- <-.
           split; [split; lia|]. split; [split; [done|by intros [_ ?]]|].
           split.
           { split; [|done]. intros _. split; [done|]. by exists n, block. }
           split.
           { split; [lia|]. intros [_ (n' & block' & Hfr' & Hne)].
             by rewrite (Huniq _ _ Hfr') in Hne. }
           split; [done|]. auto.
        -- destruct (Hsome Hl prev cur w' Hrun) as [Hcur Hpos].
           split; [split; lia|]. split; [split; [lia|by intros [_ ?]]|].
           split.
           { split; [lia|]. intros [_ (n' & block' & Hfr' & Hl')].
             by rewrite (Huniq _ _ Hfr') in Hl'. }
           split.
           { split; [|done]. intros _. split; [done|]. by exists n, block. }
           split; [lia|]. auto.
Qed.

Lemma convergence_condition_witness :
  (exists w' : world,
     generate_instances echo_generator fifty_seeds 1 1 1 2 3 4 5 6 20
       contended_world = (inr (0, -1), w')
     /\ Redis.hashes (store w') = Redis.hashes (store contended_world))
  /\ (exists w' : world,
        generate_instances echo_generator [] 1 1 1 2 3 4 5 6 20
          fresh_world = (inr (0, -2), w')
        /\ Redis.hashes (store w') = Redis.hashes (store fresh_world)).
Proof.
  split.
  - apply (proj1 (proj2 (proj2 (convergence_condition echo_generator
                                  fifty_seeds 1 1 20) 1 2 3 4 5 6
                                  contended_world eq_refl))).
    + vm_compute. reflexivity.
    + intros [|i] b Hb; [|done]. injection Hb as <-. vm_compute. by eexists.
  - apply (proj1 (proj2 (proj2 (proj2 (convergence_condition echo_generator
                                         [] 1 1 20) 1 2 3 4 5 6
                                         fresh_world eq_refl)))
             ltac:(vm_compute; reflexivity) 0%nat 0).
    + split; [reflexivity|]. split; [intros i b Hi; lia|].
      vm_compute. reflexivity.
    + reflexivity.
Defined.

(** C5 is false as stated: with the only block of the configuration held by
    another worker, the call reports -1, no instance record is produced in
    the sweep, and yet the sweep ends with [run_again] set and the loop goes
    on to sweep again. *)
Lemma contended_pass_repeats :
  let s := sweep echo_generator fifty_seeds 1 1 20 [[1; 2; 3; 4; 5; 6]] false
             contended_world in
  s.1 = inr true
  /\ Redis.hashes (store s.2) = ∅
  /\ trace s.2 = [EvLock "LOCK:BLOCK0:INSTANCE:1:2:3:4:5:6" false; EvSleep 50;
                  EvPrint ">>>> KCMC:1:2:3:4:5:6 0 -1"]
  /\ (convergence_loop echo_generator fifty_seeds 1 1 20 [[1; 2; 3; 4; 5; 6]] 1
        contended_world).1 = inr Unfinished.
Proof. vm_compute. repeat split; reflexivity. Qed.

(** ** Errors *)

(** C4, as the code has it.  An error raised while a configuration is
    processed that does not match the connection-reset-like signature ends
    the sweep at that configuration: the configurations after it are not
    processed.  An error that ends a sweep ends the loop.  An error that
    ends the script is reported by printing its traceback, after which the
    process ends with exit status 0.  Nothing is said here of an error that
    matches the signature. *)
Theorem fatal_error_aborts (instance_generator : list string -> list string * Z) :
  (forall (random_seeds : list Z) (k_range m_range target_instances : Z)
          (pre post : list (list Z)) (p s k a c r : Z) (ra b0 : bool)
          (w wa wb : world) (exp : exn),
      sweep instance_generator random_seeds k_range m_range target_instances
        pre ra w = (inr b0, wa) ->
      generate_instances instance_generator random_seeds k_range m_range
        p s k a c r target_instances wa = (inl exp, wb) ->
      reset_signature exp = false ->
      sweep instance_generator random_seeds k_range m_range target_instances
        (pre ++ [p; s; k; a; c; r] :: post) ra w = (inl exp, wb))
  /\ (forall (random_seeds : list Z) (k_range m_range target_instances : Z)
            (configs : list (list Z)) (fuel : nat) (w w1 : world) (exp : exn),
        sweep instance_generator random_seeds k_range m_range target_instances
          configs false w = (inl exp, w1) ->
        convergence_loop instance_generator random_seeds k_range m_range
          target_instances configs (S fuel) w = (inl exp, w1))
  /\ (forall (seeds_text : string) (csv_rows : list (list string))
            (argv2 argv3 argv4 : string) (fuel : nat) (w w1 : world) (exp : exn),
        script instance_generator seeds_text csv_rows argv2 argv3 argv4 fuel w
        = (inl exp, w1) ->
        main instance_generator seeds_text csv_rows argv2 argv3 argv4 fuel w
        = (Exit 0, log (EvTraceback exp) w1)).
Proof.
  split; [|split].
  - intros seeds km mr target pre post p s k a c r ra b0 w wa wb exp Hpre Hcall _.
    rewrite sweep_app, Hpre. simpl. unfold bind.
    by rewrite (run_config_raises _ _ _ _ _ _ _ _ _ _ _ _ _ _ _ Hcall).
  - intros seeds km mr target configs fuel w w1 exp Hsw. simpl. unfold bind.
    by rewrite Hsw.
  - intros seeds_text rows a2 a3 a4 fuel w w1 exp Hs.
    unfold main, try_except. by rewrite Hs.
Qed.

Lemma fatal_error_aborts_witness :
  let w := World 0 Redis.empty [Some (ValueError "boom")] [] in
  sweep echo_generator fifty_seeds 1 1 20
    ([] ++ [1; 2; 3; 4; 5; 6] :: [[6; 5; 4; 3; 2; 1]]) false w
  = (inl (ValueError "boom"), World 0 Redis.empty [] [])
  /\ main echo_generator "1 2 3" two_config_rows "2" "1" "1" 3 w
     = (Exit 0,
        World 30000 Redis.empty []
          [EvSleep 30000; EvTraceback (ValueError "boom")]).
Proof.
  split.
  - apply (proj1 (fatal_error_aborts echo_generator) fifty_seeds 1 1 20 [] _
             1 2 3 4 5 6 false false
             (World 0 Redis.empty [Some (ValueError "boom")] [])
             (World 0 Redis.empty [Some (ValueError "boom")] [])).
    + reflexivity.
    + vm_compute. reflexivity.
    + vm_compute. reflexivity.
  - apply (proj2 (proj2 (fatal_error_aborts echo_generator)) "1 2 3"
             two_config_rows "2" "1" "1" 3%nat
             (World 0 Redis.empty [Some (ValueError "boom")] [])
             (World 30000 Redis.empty [] [EvSleep 30000])).
    vm_compute. reflexivity.
Defined.

(** C4 is false as stated: an error that does not match the signature is
    not reported with a status other than zero.  When the generator cannot
    be started, the error ends the sweep at the first configuration, the
    second one is not processed, the traceback is printed and the process
    ends with exit status 0. *)
Lemma fatal_error_exits_with_status_zero :
  let exp := OSError "[Errno 2] No such file or directory: '/app/instance_generator'" in
  let end_ := main echo_generator "1 2 3" two_config_rows "2" "1" "1" 3
                missing_generator_world in
  reset_signature exp = false
  /\ end_.1 = Exit 0
  /\ trace end_.2
     = [EvSleep 30000; EvLock "LOCK:BLOCK0:INSTANCE:1:2:3:4:5:6" true;
        EvPrint "GOT LOCK :: INSTANCE:1:2:3:4:5:6 ::> 0"; EvTraceback exp].
Proof. vm_compute. repeat split; reflexivity. Qed.

(** The test of line 130 never holds, also for an error that matches the
    signature: when the first round trip to the store fails with
    "Connection reset by peer", there is no delay and the second
    configuration is not processed. *)
Lemma connection_reset_is_not_retried :
  reset_signature (ConnectionError "Connection reset by peer") = true
  /\ is_transient (ConnectionError "Connection reset by peer") = false
  /\ main echo_generator "1 2 3" two_config_rows "2" "1" "1" 3 reset_world
     = (Exit 0,
        World 30000 Redis.empty []
          [EvSleep 30000;
           EvTraceback (ConnectionError "Connection reset by peer")]).
Proof. repeat split; vm_compute; reflexivity. Qed.

(** ** Loading the seeds and the configurations *)

Lemma int_cases (s : string) (w : world) :
  match Py.int s with
  | Some n => int s w = (inr n, w)
  | None => exists msg, int s w = (inl (ValueError msg), w)
  end.
Proof. unfold int. destruct (Py.int s); [done|]. by eexists. Qed.

Lemma ints_of_tokens_cases (tokens : list string) (w : world) :
  match ints_of_tokens tokens w with
  | (inr ns, w') =>
      w' = w
      /\ Forall2 (fun tok n => Py.int tok = Some n)
           (filter (fun tok => tok <> "") tokens) ns
  | (inl e, w') =>
      w' = w
      /\ (exists msg, e = ValueError msg)
      /\ exists tok, tok ∈ tokens /\ tok <> "" /\ Py.int tok = None
  end.
Proof.
  induction tokens as [|tok rest IH]; simpl.
  - split; [done|]. rewrite filter_nil. constructor.
  - rewrite filter_cons. destruct tok as [|ch tok].
    + rewrite decide_False by (by intros H; apply H). simpl.
      destruct (ints_of_tokens rest w) as [[e|ns] w']; [|done].
      destruct IH as (-> & Hm & tok & Hin & Hne & Hint).
      split; [done|]. split; [done|]. exists tok.
      split; [by apply elem_of_cons; right|done].
    + rewrite decide_True by done. simpl. unfold bind at 1.
      pose proof (int_cases (String ch tok) w) as Hi.
      destruct (Py.int (String ch tok)) as [n|] eqn:Hint.
      * rewrite Hi. unfold bind at 1.
        destruct (ints_of_tokens rest w) as [[e|ns] w'].
        -- destruct IH as (-> & Hm & tok' & Hin & Hne & Hint').
           split; [done|]. split; [done|]. exists tok'.
           split; [by apply elem_of_cons; right|done].
        -- destruct IH as [-> IH]. split; [done|]. by constructor.
      * destruct Hi as [msg ->]. split; [done|]. split; [by eexists|].
        exists (String ch tok). split; [by apply elem_of_cons; left|done].
Qed.

Lemma ints_of_fields_cases (fields : list string) (w : world) :
  match ints_of_fields fields w with
  | (inr ns, w') =>
      w' = w /\ Forall2 (fun f n => Py.int (Py.strip f) = Some n) fields ns
  | (inl e, w') =>
      w' = w
      /\ (exists msg, e = ValueError msg)
      /\ exists f, f ∈ fields /\ Py.int (Py.strip f) = None
  end.
Proof.
  induction fields as [|f rest IH]; simpl.
  - split; [done|constructor].
  - unfold bind at 1. pose proof (int_cases (Py.strip f) w) as Hi.
    destruct (Py.int (Py.strip f)) as [n|] eqn:Hint.
    + rewrite Hi. unfold bind at 1.
      destruct (ints_of_fields rest w) as [[e|ns] w'].
      * destruct IH as (-> & Hm & f' & Hin & Hint').
        split; [done|]. split; [done|]. exists f'.
        split; [by apply elem_of_cons; right|done].
      * destruct IH as [-> IH]. split; [done|]. by constructor.
    + destruct Hi as [msg ->]. split; [done|]. split; [by eexists|].
      exists f. split; [by apply elem_of_cons; left|done].
Qed.

Lemma read_configs_cases (rows : list (list string)) (i : nat) (w : world) :
  match read_configs (S i) rows w with
  | (inr cfgs, w') =>
      w' = w
      /\ Forall2 (Forall2 (fun f n => Py.int (Py.strip f) = Some n)) rows cfgs
  | (inl e, w') =>
      w' = w
      /\ (exists msg, e = ValueError msg)
      /\ exists row f, row ∈ rows /\ f ∈ row /\ Py.int (Py.strip f) = None
  end.
Proof.
  revert i. induction rows as [|row rest IH]; intros i; simpl.
  - split; [done|constructor].
  - unfold bind at 1. pose proof (ints_of_fields_cases row w) as Hrow.
    destruct (ints_of_fields row w) as [[e|cfg] w'].
    + destruct Hrow as (-> & Hm & f & Hin & Hint).
      split; [done|]. split; [done|]. exists row, f.
      split; [by apply elem_of_cons; left|done].
    + destruct Hrow as [-> Hrow]. unfold bind at 1.
      specialize (IH (S i)).
      destruct (read_configs (S (S i)) rest w) as [[e|cfgs] w'].
      * destruct IH as (-> & Hm & row' & f & Hin & Hf & Hint).
        split; [done|]. split; [done|]. exists row', f.
        split; [by apply elem_of_cons; right|done].
      * destruct IH as [-> IH]. split; [done|]. by constructor.
Qed.

Lemma split_occurs (sep c : ascii) (s tok : string) :
  tok ∈ Py.split sep s -> occurs c tok = true -> occurs c s = true /\ c <> sep.
Proof.
  revert tok. induction s as [|ch s IH]; intros tok; simpl.
  - intros ->%list_elem_of_singleton. done.
  - case_bool_decide as Hsep.
    + intros [->|Hin]%elem_of_cons; [done|]. intros Hoc.
      destruct (IH tok Hin Hoc) as [-> ?]. by rewrite orb_true_r.
    + destruct (Py.split sep s) as [|w0 ws] eqn:Hsp.
      * intros ->%list_elem_of_singleton. simpl. rewrite orb_false_r.
        intros Hc%bool_decide_eq_true. subst ch.
        rewrite bool_decide_eq_true_2 by done. done.
      * intros [->|Hin]%elem_of_cons; simpl.
        -- intros [Hc%bool_decide_eq_true|Hoc]%orb_true_iff.
           ++ subst ch. by rewrite bool_decide_eq_true_2.
           ++ destruct (IH w0 ltac:(by apply elem_of_cons; left) Hoc) as [-> ?].
              by rewrite orb_true_r.
        -- intros Hoc.
           destruct (IH tok ltac:(by apply elem_of_cons; right) Hoc) as [-> ?].
           by rewrite orb_true_r.
Qed.

Lemma replace_char_occurs (old new c : ascii) (s : string) :
  occurs c (Py.replace_char old new s) = true ->
  (c = new \/ occurs c s = true) /\ (c = old -> old = new).
Proof.
  induction s as [|ch s IH]; simpl; [done|].
  intros [Hc%bool_decide_eq_true|Hoc]%orb_true_iff.
  - case_bool_decide as Hold; subst.
    + split; [by left|done].
    + split; [right; by rewrite bool_decide_eq_true_2|done].
  - destruct (IH Hoc) as [[-> | ->] H2]; split; auto.
    right. by rewrite orb_true_r.
Qed.

Lemma seed_tokens_clean (text tok : string) :
  tok ∈ seed_tokens text ->
  occurs " " tok = false /\ occurs "009" tok = false /\ occurs "010" tok = false.
Proof.
  intros Hin. unfold seed_tokens in Hin.
  repeat split; apply not_true_is_false; intros Hoc;
    destruct (split_occurs _ _ _ _ Hin Hoc) as [Hoc1 Hne]; [done| |].
  - apply replace_char_occurs in Hoc1 as [[?|Hoc2] _]; [done|].
    apply replace_char_occurs in Hoc2 as [_ Habs]. by specialize (Habs eq_refl).
  - apply replace_char_occurs in Hoc1 as [_ Habs]. by specialize (Habs eq_refl).
Qed.

(** C9, as the code has it.  The seed source is cut at spaces, tabs and
    newlines; the seeds loaded are the integers of the pieces that are not
    empty, each once, and loading fails with [ValueError] exactly when one
    of these pieces is not an integer.  An empty seed source is accepted and
    gives an empty list of seeds.  The configurations are the rows after the
    first row, every field stripped and converted to an integer, in order;
    loading them fails with [ValueError] exactly when a field of one of
    these rows is not an integer, whatever the first row holds.  The last
    two parts say the failures outright: one piece of the seed source that
    is not empty and not an integer makes the loading of the seeds fail,
    and one field that is not an integer makes the loading of the
    configurations fail. *)
Theorem loading_contract :
  (forall (text : string) (w : world),
      (forall tok : string, tok ∈ seed_tokens text ->
         occurs " " tok = false /\ occurs "009" tok = false
         /\ occurs "010" tok = false)
      /\ match read_seeds text w with
         | (inr seeds, w') =>
             w' = w /\ NoDup seeds
             /\ forall z : Z,
                  z ∈ seeds
                  <-> exists tok, tok ∈ seed_tokens text /\ tok <> ""
                                  /\ Py.int tok = Some z
         | (inl e, w') =>
             w' = w /\ (exists msg, e = ValueError msg)
             /\ exists tok, tok ∈ seed_tokens text /\ tok <> ""
                            /\ Py.int tok = None
         end)
  /\ (forall w : world, read_seeds "" w = (inr [], w))
  /\ (forall (header : list string) (rows : list (list string)) (w : world),
        match read_configs 0 (header :: rows) w with
        | (inr cfgs, w') =>
            w' = w
            /\ Forall2 (Forall2 (fun f n => Py.int (Py.strip f) = Some n))
                 rows cfgs
        | (inl e, w') =>
            w' = w /\ (exists msg, e = ValueError msg)
            /\ exists row f, row ∈ rows /\ f ∈ row
                             /\ Py.int (Py.strip f) = None
        end)
  /\ (forall (header : list string) (rows : list (list string))
            (row : list string) (f : string) (w : world),
        row ∈ rows -> f ∈ row -> Py.int (Py.strip f) = None ->
        exists msg, read_configs 0 (header :: rows) w = (inl (ValueError msg), w))
  /\ (forall (text tok : string) (w : world),
        tok ∈ seed_tokens text -> tok <> "" -> Py.int tok = None ->
        exists msg, read_seeds text w = (inl (ValueError msg), w)).
Proof.
  split; [|split; [|split; [|split]]].
  - intros text w. split; [intros tok; apply seed_tokens_clean|].
    unfold read_seeds, bind.
    pose proof (ints_of_tokens_cases (seed_tokens text) w) as H.
    destruct (ints_of_tokens (seed_tokens text) w) as [[e|ns] w']; [done|].
    destruct H as [-> HF]. unfold ret. split; [done|].
    split; [apply NoDup_elements|]. intros z.
    rewrite elem_of_elements, elem_of_list_to_set. split.
    + intros Hz. apply list_elem_of_lookup in Hz as [i Hi].
      destruct (Forall2_lookup_r _ _ _ _ _ HF Hi) as (tok & Htok & Hint).
      apply list_elem_of_lookup_2 in Htok.
      apply list_elem_of_filter in Htok as [Hne Hin]. by exists tok.
    + intros (tok & Hin & Hne & Hint).
      assert (Hf : tok ∈ filter (fun tok => tok <> "") (seed_tokens text))
        by by apply list_elem_of_filter.
      apply list_elem_of_lookup in Hf as [i Hi].
      destruct (Forall2_lookup_l _ _ _ _ _ HF Hi) as (n & Hn & Hint').
      rewrite Hint in Hint'. injection Hint' as <-.
      by eapply list_elem_of_lookup_2.
  - intros w. reflexivity.
  - intros header rows w. apply (read_configs_cases rows 0 w).
  - intros header rows row f w Hrow Hf Hint.
    pose proof (read_configs_cases rows 0 w) as H. simpl.
    destruct (read_configs 1 rows w) as [[e|cfgs] w'].
    + destruct H as (-> & [msg ->] & _). by exists msg.
    + destruct H as [_ HF]. exfalso.
      apply list_elem_of_lookup in Hrow as [i Hi].
      destruct (Forall2_lookup_l _ _ _ _ _ HF Hi) as (cfg & _ & Hcfg).
      apply list_elem_of_lookup in Hf as [j Hj].
      destruct (Forall2_lookup_l _ _ _ _ _ Hcfg Hj) as (n & _ & Hn).
      by rewrite Hint in Hn.
  - intros text tok w Hin Hne Hint. unfold read_seeds, bind.
    pose proof (ints_of_tokens_cases (seed_tokens text) w) as H.
    destruct (ints_of_tokens (seed_tokens text) w) as [[e|ns] w'].
    + destruct H as (-> & [msg ->] & _). by exists msg.
    + destruct H as [_ HF]. exfalso.
      assert (Hf : tok ∈ filter (fun tok => tok <> "") (seed_tokens text))
        by by apply list_elem_of_filter.
      apply list_elem_of_lookup in Hf as [i Hi].
      destruct (Forall2_lookup_l _ _ _ _ _ HF Hi) as (n & _ & Hn).
      by rewrite Hint in Hn.
Qed.

Lemma loading_contract_witness :
  (exists msg : string,
     read_configs 0 bad_rows fresh_world = (inl (ValueError msg), fresh_world))
  /\ (exists msg : string,
        read_seeds bad_seeds fresh_world = (inl (ValueError msg), fresh_world)).
Proof.
  split.
  - apply (proj1 (proj2 (proj2 (proj2 loading_contract)))
             ["pois"; "sensors"; "sinks"; "area"; "covg"; "comm"]
             [["1"; "2"; "3"; "4"; "5"; "six"]]
             ["1"; "2"; "3"; "4"; "5"; "six"] "six" fresh_world).
    + apply list_elem_of_here.
    + do 5 apply list_elem_of_further. apply list_elem_of_here.
    + vm_compute. reflexivity.
  - apply (proj2 (proj2 (proj2 (proj2 loading_contract)))
             bad_seeds "x7" fresh_world).
    + vm_compute. do 2 apply list_elem_of_further. apply list_elem_of_here.
    + done.
    + vm_compute. reflexivity.
Defined.

(** C9 is false as stated: an empty seed source is not a parsing error.  It
    loads as the empty list of seeds, and the script goes on to sweep the
    configurations. *)
Lemma empty_seed_source_is_accepted :
  read_seeds "" fresh_world = (inr [], fresh_world)
  /\ main echo_generator "" two_config_rows "0" "1" "1" 2 fresh_world
     = (Exit 0,
        World 30000 Redis.empty []
          [EvSleep 30000; EvPrint ">>>> KCMC:1:2:3:4:5:6 0 0";
           EvPrint ">>>> KCMC:6:5:4:3:2:1 0 0"]).
Proof. split; vm_compute; reflexivity. Qed.

(** ** The records written by a batch *)

Lemma instance_key_not_evaluation_key (p s k a c r p' s' k' a' c' r' : Z) :
  instance_key_of p s k a c r <> evaluation_key_of p' s' k' a' c' r'.
Proof. done. Qed.

Lemma instance_key_not_lock_key (p s k a c r b : Z) (key : string) :
  instance_key_of p s k a c r <> lock_key b key.
Proof. done. Qed.

Lemma hash_write_pair (instance_key evaluation_key key : string) (d : Redis.db)
    (pr : Z * (string * string)) :
  instance_key <> evaluation_key ->
  Redis.hash key (write_pair instance_key evaluation_key d pr)
  = if decide (key = evaluation_key)
    then <[Py.str pr.1 := Py.strip pr.2.2]> (Redis.hash key d)
    else if decide (key = instance_key)
         then <[Py.str pr.1 := Py.strip pr.2.1]> (Redis.hash key d)
         else Redis.hash key d.
Proof.
  intros Hne. unfold write_pair, Redis.hset, Redis.hash. simpl.
  destruct (decide (key = evaluation_key)) as [->|He].
  - rewrite lookup_insert_eq. simpl. by rewrite lookup_insert_ne.
  - rewrite lookup_insert_ne by done.
    destruct (decide (key = instance_key)) as [->|Hi].
    + by rewrite lookup_insert_eq.
    + by rewrite lookup_insert_ne.
Qed.

Lemma foldl_write_pair (instance_key evaluation_key : string)
    (pairs : list (Z * (string * string))) : forall d : Redis.db,
  instance_key <> evaluation_key ->
  Redis.strings (foldl (write_pair instance_key evaluation_key) d pairs)
  = Redis.strings d
  /\ dom (Redis.hash instance_key
            (foldl (write_pair instance_key evaluation_key) d pairs))
     = dom (Redis.hash instance_key d)
       ∪ list_to_set ((fun pr => Py.str pr.1) <$> pairs)
  /\ forall key : string, key <> instance_key -> key <> evaluation_key ->
       Redis.hash key (foldl (write_pair instance_key evaluation_key) d pairs)
       = Redis.hash key d.
Proof.
  induction pairs as [|pr rest IH]; intros d Hne; simpl.
  - split; [done|]. split; [|done].
    by rewrite (right_id_L ∅ (∪)).
  - destruct (IH (write_pair instance_key evaluation_key d pr) Hne)
      as (Hs & Hd & Hframe).
    split; [by rewrite Hs|]. split.
    + rewrite Hd, hash_write_pair by done.
      rewrite decide_False by done. rewrite decide_True by done.
      rewrite dom_insert_L.
      rewrite (comm_L (∪) {[_]} (dom _)). by rewrite <- (assoc_L (∪)).
    + intros key Hi He. rewrite Hframe by done.
      rewrite hash_write_pair by done.
      rewrite decide_False by done. by rewrite decide_False by done.
Qed.

Lemma pair_up_seeds (seeds : list Z) : forall out : list string,
  (fun pr => pr.1) <$> pair_up seeds out = seeds.
Proof.
  induction seeds as [|s rest IH]; intros out; simpl; [done|].
  by rewrite IH.
Qed.

Lemma slice_prefix {A} (xs : list A) (b : Z) :
  0 <= b <= Z.of_nat (length xs) ->
  Py.slice xs 0 b = take (Z.to_nat b) xs.
Proof.
  intros Hb. unfold Py.slice, Py.clamp.
  rewrite !bool_decide_eq_false_2 by lia.
  replace (Z.of_nat (length xs) `min` 0) with 0 by lia.
  replace (Z.of_nat (length xs) `min` b - 0) with b by lia.
  done.
Qed.

Lemma absent_seeds_all (instance_key : string) (d : Redis.db) (seeds : list Z) :
  Redis.hash instance_key d = ∅ -> absent_seeds instance_key d seeds = seeds.
Proof.
  intros He. unfold absent_seeds.
  induction seeds as [|s rest IH]; [done|].
  rewrite filter_cons, IH. rewrite decide_True; [done|].
  unfold Redis.hexists. rewrite He, lookup_empty.
  apply bool_decide_eq_false_2. by intros [? ?].
Qed.

(** ** A single worker on a store of its own *)

Lemma strings_after_claim_and_release (t : Z) (key val : string) (d : Redis.db) :
  Redis.strings d = ∅ ->
  delete key (Redis.strings (Redis.setnx_expire t key val LOCK_TIME d).1) = ∅.
Proof.
  intros He. unfold Redis.setnx_expire, Redis.setnx, Redis.expire.
  assert (Redis.find t key d = None) as ->.
  { unfold Redis.find. by rewrite He, lookup_empty. }
  match goal with
  | |- context [Redis.find t key ?d'] =>
      assert (Redis.find t key d' = Some (Redis.Entry val None)) as ->
        by (unfold Redis.find; simpl; by rewrite lookup_insert_eq)
  end.
  rewrite bool_decide_eq_false_2 by (unfold LOCK_TIME; lia). simpl.
  rewrite He. rewrite !delete_insert_eq. apply delete_empty.
Qed.

Section Convergence.

Variable instance_generator : list string -> list string * Z.
Variables (random_seeds : list Z) (k_range m_range target_instances : Z).

Hypothesis Htarget : 0 <= target_instances <= Z.of_nat (length random_seeds).
Hypothesis Hnodup : NoDup random_seeds.
Hypothesis Hlines : forall args, Forall line_ok (instance_generator args).1.

Let call := generate_instances instance_generator random_seeds k_range m_range.

Lemma fresh_call (p s k a c r : Z) (w : world) :
  settled target_instances w ->
  Redis.hash (instance_key_of p s k a c r) (store w) = ∅ ->
  0 < target_instances ->
  exists w' : world,
    call p s k a c r target_instances w
    = (inr (target_instances, target_instances), w')
    /\ settled target_instances w'
    /\ Redis.hlen (instance_key_of p s k a c r) (store w') = target_instances
    /\ forall p' s' k' a' c' r' : Z,
         instance_key_of p' s' k' a' c' r' <> instance_key_of p s k a c r ->
         Redis.hash (instance_key_of p' s' k' a' c' r') (store w')
         = Redis.hash (instance_key_of p' s' k' a' c' r') (store w).
Proof.
  intros (Hf & Hstr & Hall) Hempty Hpos.
  set (ikey := instance_key_of p s k a c r) in *.
  set (ekey := evaluation_key_of p s k a c r).
  assert (Hlen0 : Redis.hlen ikey (store w) = 0).
  { unfold Redis.hlen. by rewrite Hempty, map_size_empty. }
  destruct (generate_instances_incomplete instance_generator random_seeds
              k_range m_range p s k a c r target_instances w Hf)
    as (n & w1 & _ & _ & Hf1 & _ & _ & Hh & _ & Hheld & Hcase).
  { fold ikey. lia. }
  fold ikey in Hheld, Hcase.
  assert (Hb0 : Py.range 0 target_instances BLOCK_SIZE !! 0%nat = Some 0).
  { apply range_lookup. unfold BLOCK_SIZE. lia. }
  assert (Hn : n = 0%nat).
  { destruct n as [|n]; [done|]. exfalso.
    destruct (Hheld 0%nat 0 ltac:(lia) Hb0) as [v Hv].
    unfold holder, Redis.find in Hv. by rewrite Hstr, lookup_empty in Hv. }
  subst n. rewrite Hb0 in Hcase.
  destruct Hcase as (_ & Hst1 & Hcase). specialize (Hst1 eq_refl).
  cbv zeta in Hcase. rewrite Hlen0 in Hcase.
  replace (0 `max` 0) with 0 in Hcase by lia.
  rewrite slice_prefix in Hcase by lia.
  rewrite absent_seeds_all in Hcase by done.
  set (tg := take (Z.to_nat target_instances) random_seeds) in *.
  assert (Hlen : length tg = Z.to_nat target_instances).
  { unfold tg. rewrite length_take. lia. }
  rewrite bool_decide_eq_false_2 in Hcase
    by (intros Habs; rewrite Habs in Hlen; simpl in Hlen; lia).
  destruct Hcase as [_ Hcase].
  destruct Hcase as (w' & Hrun & Hf' & _ & _ & Hst').
  { apply Forall_take, Hlines. }
  fold ekey in Hst'.
  set (pairs := pair_up tg _) in *.
  destruct (foldl_write_pair ikey ekey pairs (store w1)
              (instance_key_not_evaluation_key _ _ _ _ _ _ _ _ _ _ _ _))
    as (Hs & Hd & Hframe).
  assert (Hsize : Redis.hlen ikey (store w') = target_instances).
  { unfold Redis.hlen. rewrite Hst'. unfold Redis.del, Redis.hash at 1. simpl.
    rewrite lookup_delete_ne by (symmetry; apply instance_key_not_lock_key).
    fold (Redis.hash ikey (foldl (write_pair ikey ekey) (store w1) pairs)).
    rewrite <- size_dom, Hd.
    assert (Redis.hash ikey (store w1) = ∅) as ->.
    { unfold Redis.hash. rewrite Hh. exact Hempty. }
    rewrite dom_empty_L, (left_id_L ∅ (∪)).
    assert (Hmap : (fun pr => Py.str pr.1) <$> pairs = Py.str <$> tg).
    { transitivity (Py.str <$> ((fun pr => pr.1) <$> pairs)).
      - by rewrite <- list_fmap_compose.
      - unfold pairs. by rewrite pair_up_seeds. }
    rewrite Hmap, size_list_to_set.
    - rewrite length_fmap. lia.
    - apply NoDup_fmap_2; [apply _|].
      eapply sublist_NoDup; [exact Hnodup|apply sublist_take]. }
  exists w'. split.
  { rewrite Hsize in Hrun. rewrite Hlen in Hrun.
    by rewrite Z2Nat.id in Hrun by lia. }
  assert (Hother : forall p' s' k' a' c' r' : Z,
    instance_key_of p' s' k' a' c' r' <> ikey ->
    Redis.hash (instance_key_of p' s' k' a' c' r') (store w')
    = Redis.hash (instance_key_of p' s' k' a' c' r') (store w)).
  { intros p' s' k' a' c' r' Hne. rewrite Hst'.
    unfold Redis.del, Redis.hash at 1. simpl.
    rewrite lookup_delete_ne by (symmetry; apply instance_key_not_lock_key).
    fold (Redis.hash (instance_key_of p' s' k' a' c' r')
            (foldl (write_pair ikey ekey) (store w1) pairs)).
    rewrite Hframe; [|done|apply instance_key_not_evaluation_key].
    unfold Redis.hash. by rewrite Hh. }
  split; [|split; [done|done]].
  split; [done|]. split.
  - rewrite Hst'. unfold Redis.del. simpl. rewrite Hs, Hst1.
    by apply strings_after_claim_and_release.
  - intros p' s' k' a' c' r'.
    destruct (decide (instance_key_of p' s' k' a' c' r' = ikey)) as [->|Hne].
    + by right.
    + unfold Redis.hlen. rewrite Hother by done. apply Hall.
Qed.

Lemma settled_call (p s k a c r : Z) (w : world) :
  settled target_instances w ->
  exists (prev cur : Z) (w' : world),
    call p s k a c r target_instances w = (inr (prev, cur), w')
    /\ settled target_instances w'
    /\ Redis.hlen (instance_key_of p s k a c r) (store w') = target_instances
    /\ forall cfg : list Z,
         complete target_instances (store w) cfg ->
         complete target_instances (store w') cfg.
Proof.
  intros Hs. pose proof Hs as (Hf & Hstr & Hall).
  assert (Hdone : Redis.hlen (instance_key_of p s k a c r) (store w)
                  = target_instances ->
    exists (prev cur : Z) (w' : world),
      call p s k a c r target_instances w = (inr (prev, cur), w')
      /\ settled target_instances w'
      /\ Redis.hlen (instance_key_of p s k a c r) (store w') = target_instances
      /\ forall cfg : list Z,
           complete target_instances (store w) cfg ->
           complete target_instances (store w') cfg).
  { intros Hc. exists target_instances, 0, w. unfold call.
    rewrite generate_instances_complete by (done || lia).
    by rewrite Hc. }
  destruct (Hall p s k a c r) as [Hempty|Hc]; [|by apply Hdone].
  destruct (decide (target_instances = 0)) as [H0|Hne].
  { apply Hdone. unfold Redis.hlen. rewrite Hempty, map_size_empty. lia. }
  destruct (fresh_call p s k a c r w Hs Hempty ltac:(lia))
    as (w' & Hrun & Hs' & Hlen & Hother).
  exists target_instances, target_instances, w'.
  split; [done|]. split; [done|]. split; [done|].
  intros cfg Hcfg. unfold complete in *.
  destruct cfg as [|p' [|s' [|k' [|a' [|c' [|r' [|]]]]]]]; try done.
  destruct (decide (instance_key_of p' s' k' a' c' r'
                    = instance_key_of p s k a c r)) as [->|Hne'].
  - done.
  - unfold Redis.hlen in *. by rewrite Hother.
Qed.

Lemma settled_sweep (configs : list (list Z)) : forall (ra : bool) (w : world),
  settled target_instances w ->
  Forall (fun cfg => length cfg = 6%nat) configs ->
  exists (b : bool) (w' : world),
    sweep instance_generator random_seeds k_range m_range target_instances
      configs ra w = (inr b, w')
    /\ settled target_instances w'
    /\ Forall (complete target_instances (store w')) configs
    /\ forall cfg : list Z,
         complete target_instances (store w) cfg ->
         complete target_instances (store w') cfg.
Proof.
  induction configs as [|cfg rest IH]; intros ra w Hs Hsix.
  - exists ra, w. split; [done|]. split; [done|]. split; [constructor|done].
  - apply Forall_cons in Hsix as [Hcfg Hsix].
    destruct cfg as [|p [|s [|k [|a [|c [|r [|]]]]]]]; try done.
    destruct (settled_call p s k a c r w Hs)
      as (prev & cur & w1 & Hrun & Hs1 & Hlen & Hkeep).
    destruct (IH (ra || negb (bool_decide (cur = 0)))
                (log (EvPrint (">>>> KCMC:" +:+ config_suffix p s k a c r +:+ " "
                               +:+ Py.str prev +:+ " " +:+ Py.str cur)) w1))
      as (b & w' & Hsw & Hs' & Hall & Hkeep'); [done|done|].
    exists b, w'. simpl. unfold bind at 1.
    rewrite (run_config_returns _ _ _ _ _ _ _ _ _ _ _ _ _ _ _ _ Hrun).
    split; [done|]. split; [done|]. split.
    + constructor; [|done]. apply Hkeep'. exact Hlen.
    + intros cfg Hc. by apply Hkeep', Hkeep.
Qed.

End Convergence.

(** A sweep over complete configurations changes nothing and prints one
    line per configuration. *)
Lemma complete_sweep (instance_generator : list string -> list string * Z)
    (random_seeds : list Z) (k_range m_range target_instances : Z)
    (configs : list (list Z)) : forall (ra : bool) (w : world),
  faults w = [] ->
  Forall (complete target_instances (store w)) configs ->
  exists w' : world,
    sweep instance_generator random_seeds k_range m_range target_instances
      configs ra w = (inr ra, w')
    /\ store w' = store w
    /\ faults w' = []
    /\ exists evs : list event, trace w' = trace w ++ evs /\ Forall not_write evs.
Proof.
  induction configs as [|cfg rest IH]; intros ra w Hf Hall.
  - exists w. repeat split; try done. exists []. by rewrite app_nil_r.
  - apply Forall_cons in Hall as [Hcfg Hall]. unfold complete in Hcfg.
    destruct cfg as [|p [|s [|k [|a [|c [|r [|]]]]]]]; try done.
    assert (Hrun : generate_instances instance_generator random_seeds k_range
                     m_range p s k a c r target_instances w
                   = (inr (target_instances, 0), w)).
    { rewrite generate_instances_complete by (done || lia). by rewrite Hcfg. }
    destruct (IH ra
                (log (EvPrint (">>>> KCMC:" +:+ config_suffix p s k a c r +:+ " "
                               +:+ Py.str target_instances +:+ " " +:+ Py.str 0))
                   w))
      as (w' & Hsw & Hst & Hf' & evs & Htr & Hq); [done|done|].
    exists w'. simpl. unfold bind at 1.
    rewrite (run_config_returns _ _ _ _ _ _ _ _ _ _ _ _ _ _ _ _ Hrun).
    rewrite bool_decide_eq_true_2 by done. rewrite orb_false_r.
    split; [done|]. split; [done|]. split; [done|].
    exists (EvPrint (">>>> KCMC:" +:+ config_suffix p s k a c r +:+ " "
                     +:+ Py.str target_instances +:+ " " +:+ Py.str 0) :: evs).
    split.
    + rewrite Htr. simpl. by rewrite <- app_assoc.
    + by constructor.
Qed.

Lemma constant_generator_lines (args : list string) :
  Forall line_ok (constant_generator args).1.
Proof.
  unfold constant_generator. simpl.
  induction (drop 8 args) as [|x rest IH]; simpl; [constructor|].
  constructor; [by vm_compute|]. constructor; [by vm_compute|]. exact IH.
Qed.

(** ** A seed universe smaller than the target *)

Lemma hlen_ext (key : string) (d d' : Redis.db) :
  Redis.hashes d = Redis.hashes d' -> Redis.hlen key d = Redis.hlen key d'.
Proof. intros H. unfold Redis.hlen, Redis.hash. by rewrite H. Qed.

Lemma absent_seeds_ext (key : string) (d d' : Redis.db) (seeds : list Z) :
  Redis.hashes d = Redis.hashes d' ->
  absent_seeds key d seeds = absent_seeds key d' seeds.
Proof.
  intros H. unfold absent_seeds, Redis.hexists, Redis.hash. by rewrite H.
Qed.

(** A call on an incomplete configuration none of whose remaining seeds is
    missing returns a work value other than zero and writes nothing. *)
Lemma stuck_call (instance_generator : list string -> list string * Z)
    (random_seeds : list Z) (k_range m_range p s k a c r target_instances : Z)
    (w : world) :
  faults w = [] ->
  Redis.hlen (instance_key_of p s k a c r) (store w) < target_instances ->
  (forall block : Z, 0 <= block ->
     absent_seeds (instance_key_of p s k a c r) (store w)
       (Py.slice random_seeds
          (Z.max block (Redis.hlen (instance_key_of p s k a c r) (store w)))
          target_instances) = []) ->
  exists (cur : Z) (w' : world),
    generate_instances instance_generator random_seeds k_range m_range
      p s k a c r target_instances w
    = (inr (Redis.hlen (instance_key_of p s k a c r) (store w), cur), w')
    /\ cur <> 0
    /\ faults w' = []
    /\ Redis.hashes (store w') = Redis.hashes (store w).
Proof.
  intros Hf Hlt Hnone.
  destruct (generate_instances_incomplete instance_generator random_seeds
              k_range m_range p s k a c r target_instances w Hf Hlt)
    as (n & w1 & _ & _ & Hf1 & _ & _ & Hh & _ & _ & Hcase).
  destruct (Py.range 0 target_instances BLOCK_SIZE !! n) as [block|] eqn:Hb.
  - destruct Hcase as (_ & _ & Hcase). cbv zeta in Hcase.
    apply range_lookup in Hb as [Hb _].
    rewrite Hnone in Hcase by (unfold BLOCK_SIZE in Hb; lia).
    rewrite bool_decide_eq_true_2 in Hcase by done.
    eexists (-2), _. split; [exact Hcase|]. by repeat split.
  - exists (-1), w1. by repeat split.
Qed.

Lemma stuck_loop (fuel : nat) : forall w : world,
  faults w = [] ->
  Redis.hashes (store w) = Redis.hashes (store after_first_sweep) ->
  (convergence_loop echo_generator [7] 1 1 2 [[1; 2; 3; 4; 5; 6]] fuel w).1
  = inr Unfinished.
Proof.
  induction fuel as [|fuel IH]; intros w Hf Hh; [done|].
  assert (Hlen : Redis.hlen (instance_key_of 1 2 3 4 5 6) (store w) = 1).
  { rewrite (hlen_ext _ _ _ Hh). vm_compute. reflexivity. }
  destruct (stuck_call echo_generator [7] 1 1 1 2 3 4 5 6 2 w Hf)
    as (cur & w' & Hrun & Hcur & Hf' & Hh').
  { rewrite Hlen. lia. }
  { intros block Hblock. rewrite Hlen.
    replace (Py.slice [7] (block `max` 1) 2) with (@nil Z); [done|].
    unfold Py.slice, Py.clamp. rewrite !bool_decide_eq_false_2 by lia.
    simpl length.
    replace (Z.to_nat (Z.of_nat 1 `min` (block `max` 1))) with 1%nat by lia.
    simpl. by destruct (Z.to_nat _). }
  simpl. unfold bind at 1. unfold bind at 1.
  rewrite (run_config_returns _ _ _ _ _ _ _ _ _ _ _ _ _ _ _ _ Hrun).
  rewrite bool_decide_eq_false_2 by done. simpl negb. simpl orb.
  unfold ret at 1. apply IH; [done|]. simpl. congruence.
Qed.

(** C2 is false as stated: with a seed universe of one seed and a target of
    two, a worker on an empty store generates the one seed in its first
    sweep and then never leaves the loop, however many sweeps it is given:
    the configuration stays below the target, so every call reports -2 or
    -1. *)
Lemma short_seed_universe_never_converges :
  Redis.hlen (instance_key_of 1 2 3 4 5 6) (store after_first_sweep) = 1
  /\ forall fuel : nat,
       (convergence_loop echo_generator [7] 1 1 2 [[1; 2; 3; 4; 5; 6]] fuel
          fresh_world).1 = inr Unfinished.
Proof.
  split; [vm_compute; reflexivity|].
  intros [|fuel]; [done|].
  assert (Hsw : sweep echo_generator [7] 1 1 2 [[1; 2; 3; 4; 5; 6]] false
                  fresh_world = (inr true, after_first_sweep)).
  { vm_compute. reflexivity. }
  change (convergence_loop echo_generator [7] 1 1 2 [[1; 2; 3; 4; 5; 6]] (S fuel)
            fresh_world)
    with (bind (sweep echo_generator [7] 1 1 2 [[1; 2; 3; 4; 5; 6]] false)
            (fun run_again : bool =>
               if run_again
               then convergence_loop echo_generator [7] 1 1 2
                      [[1; 2; 3; 4; 5; 6]] fuel
               else ret Finished) fresh_world).
  rewrite (bind_run _ _ _ _ _ Hsw).
  apply stuck_loop; [|done]. vm_compute. reflexivity.
Qed.

(** * Further properties *)

(** ** Relations between the store before and after *)

Section Relates.

Context (R : Redis.db -> Redis.db -> Prop) `{!Reflexive R} `{!Transitive R}.

Lemma relates_same {A} (m : M A) :
  (forall w, store (m w).2 = store w) -> relates R m.
Proof. intros H w. by rewrite H. Qed.

Lemma relates_ret {A} (a : A) : relates R (ret a).
Proof. by apply relates_same. Qed.

Lemma relates_raise {A} (e : exn) : relates R (@raise A e).
Proof. by apply relates_same. Qed.

Lemma relates_bind {A B} (m : M A) (k : A -> M B) :
  relates R m -> (forall a, relates R (k a)) -> relates R (bind m k).
Proof.
  intros Hm Hk w. unfold bind. specialize (Hm w).
  destruct (m w) as [[e|a] w1]; [done|]. simpl in Hm.
  etrans; [exact Hm|]. apply Hk.
Qed.

Lemma relates_try_except {A} (m : M A) (h : exn -> M A) :
  relates R m -> (forall e, relates R (h e)) -> relates R (try_except m h).
Proof.
  intros Hm Hh w. unfold try_except. specialize (Hm w).
  destruct (m w) as [[e|a] w1]; [|done]. simpl in Hm.
  etrans; [exact Hm|]. apply Hh.
Qed.

End Relates.

(** ** The effect of the commands on the store, whatever the failures *)

Lemma roundtrip_same (w : world) :
  store (roundtrip w).2 = store w /\ now (roundtrip w).2 = now w
  /\ trace (roundtrip w).2 = trace w.
Proof. unfold roundtrip. by destruct (faults w) as [|[e|] fs]. Qed.

Lemma hlen_same (key : string) (w : world) :
  store (hlen key w).2 = store w /\ now (hlen key w).2 = now w
  /\ trace (hlen key w).2 = trace w.
Proof.
  unfold hlen, bind. pose proof (roundtrip_same w) as H.
  by destruct (roundtrip w) as [[e|[]] w1].
Qed.

Lemma hexists_same (key field : string) (w : world) :
  store (hexists key field w).2 = store w /\ now (hexists key field w).2 = now w
  /\ trace (hexists key field w).2 = trace w
  /\ forall b : bool, (hexists key field w).1 = inr b ->
       b = Redis.hexists key field (store w).
Proof.
  unfold hexists, bind. pose proof (roundtrip_same w) as (Hs & Hn & Ht).
  destruct (roundtrip w) as [[e|[]] w1]; simpl in *; [done|].
  repeat split; try done. intros b [= <-]. by rewrite Hs.
Qed.

Lemma lock_pipeline_raises (lock : string) (w w' : world) (e : exn) :
  lock_pipeline lock w = (inl e, w') ->
  store w' = store w /\ now w' = now w /\ trace w' = trace w.
Proof.
  unfold lock_pipeline, bind, time_ns. simpl.
  pose proof (roundtrip_same w) as H.
  destruct (roundtrip w) as [[e'|[]] w1]; simpl in *.
  - by intros [= _ <-].
  - by destruct (Redis.setnx_expire _ _ _ _ _) as [d [b1 b2]].
Qed.

Lemma write_pipeline_effect (instance_key evaluation_key field v1 v2 : string)
    (w : world) :
  let r := write_pipeline instance_key evaluation_key field v1 v2 w in
  now r.2 = now w
  /\ match r.1 with
     | inl _ => store r.2 = store w /\ trace r.2 = trace w
     | inr _ =>
         store r.2 = Redis.hset evaluation_key field v2
                       (Redis.hset instance_key field v1 (store w))
         /\ trace r.2 = trace w
              ++ [EvWrite instance_key evaluation_key field v1 v2]
     end.
Proof.
  unfold write_pipeline, bind. pose proof (roundtrip_same w) as (Hs & Hn & Ht).
  destruct (roundtrip w) as [[e|[]] w1]; simpl in *; [done|].
  by rewrite Hs, Hn, Ht.
Qed.

Lemma delete_key_effect (key : string) (w : world) :
  let r := delete_key key w in
  now r.2 = now w
  /\ match r.1 with
     | inl _ => store r.2 = store w /\ trace r.2 = trace w
     | inr _ =>
         store r.2 = Redis.del key (store w)
         /\ trace r.2 = trace w ++ [EvDelete key]
     end.
Proof.
  unfold delete_key, bind. pose proof (roundtrip_same w) as (Hs & Hn & Ht).
  destruct (roundtrip w) as [[e|[]] w1]; simpl in *; [done|].
  by rewrite Hs, Hn, Ht.
Qed.

Lemma readline_same (p : proc) (w : world) :
  store (readline p w).2 = store w /\ now (readline p w).2 = now w.
Proof.
  unfold readline. destruct (stdout p) as [|l ls]; [done|].
  by case_bool_decide.
Qed.

Lemma decode_ascii_same (raw : string) (w : world) :
  (decode_ascii raw w).2 = w.
Proof. unfold decode_ascii. by destruct (is_ascii raw). Qed.

Lemma decode_ascii_cases (raw : string) (w w' : world) (r : exn + string) :
  decode_ascii raw w = (r, w') -> w' = w /\ forall o, r = inr o -> o = raw.
Proof.
  unfold decode_ascii. destruct (is_ascii raw); intros [= <- <-]; split; try done.
  by intros o [= <-].
Qed.

Lemma missing_seeds_effect (instance_key : string) (seeds : list Z) :
  forall (w w' : world) (r : exn + list Z),
  missing_seeds instance_key seeds w = (r, w') ->
  store w' = store w /\ now w' = now w /\ trace w' = trace w
  /\ forall tg : list Z,
       r = inr tg ->
       Forall (fun s => Redis.hexists instance_key (Py.str s) (store w) = false) tg.
Proof.
  induction seeds as [|s rest IH]; intros w w' r Hrun; simpl in Hrun.
  - injection Hrun as <- <-. repeat split; try done.
    all: intros tg [= <-]; constructor.
  - unfold bind at 1 in Hrun.
    pose proof (hexists_same instance_key (Py.str s) w) as (Hs & Hn & Ht & Hb).
    destruct (hexists instance_key (Py.str s) w) as [[e|b] w1]; simpl in *.
    { injection Hrun as <- <-. repeat split; try done. }
    specialize (Hb b eq_refl). unfold bind at 1 in Hrun.
    destruct (missing_seeds instance_key rest w1) as [[e|others] w2] eqn:Hrest.
    + injection Hrun as <- <-.
      destruct (IH _ _ _ Hrest) as (Hs' & Hn' & Ht' & _).
      repeat split; congruence.
    + injection Hrun as <- <-.
      destruct (IH _ _ _ Hrest) as (Hs' & Hn' & Ht' & Htg).
      repeat split; try congruence. intros tg [= <-].
      specialize (Htg others eq_refl). rewrite Hs in Htg.
      destruct b; [done|]. constructor; [by rewrite Hb|done].
Qed.

Lemma read_pairs_effect (instance_key evaluation_key : string) (tg : list Z) :
  forall (p : proc) (w w' : world) (r : exn + proc),
  read_pairs instance_key evaluation_key tg p w = (r, w') ->
  now w' = now w
  /\ exists pairs : list (Z * (string * string)),
       Forall (fun pr => pr.1 ∈ tg) pairs
       /\ store w' = foldl (write_pair instance_key evaluation_key) (store w) pairs.
Proof.
  induction tg as [|s rest IH]; intros p w w' r Hrun; simpl in Hrun.
  - injection Hrun as <- <-. split; [done|]. exists []. by split.
  - unfold bind at 1 in Hrun.
    pose proof (readline_same p w) as [Hs1 Hn1].
    destruct (readline p w) as [[e|[l1 p1]] w1]; simpl in *.
    { injection Hrun as <- <-. split; [done|]. exists []. by split. }
    unfold bind at 1 in Hrun.
    destruct (decode_ascii l1 w1) as [[e|o1] w1'] eqn:Hdec1;
      apply decode_ascii_cases in Hdec1 as [-> Ho1].
    { injection Hrun as <- <-. split; [done|]. exists []. by split. }
    rewrite (Ho1 _ eq_refl) in Hrun. clear Ho1.
    unfold bind at 1 in Hrun.
    pose proof (readline_same p1 w1) as [Hs2 Hn2].
    destruct (readline p1 w1) as [[e|[l2 p2]] w2]; simpl in *.
    { injection Hrun as <- <-. split; [congruence|]. exists []. split; [done|].
      simpl. congruence. }
    unfold bind at 1 in Hrun.
    destruct (decode_ascii l2 w2) as [[e|o2] w2'] eqn:Hdec2;
      apply decode_ascii_cases in Hdec2 as [-> Ho2].
    { injection Hrun as <- <-. split; [congruence|]. exists []. split; [done|].
      simpl. congruence. }
    rewrite (Ho2 _ eq_refl) in Hrun. clear Ho2.
    unfold bind at 1 in Hrun.
    pose proof (write_pipeline_effect instance_key evaluation_key (Py.str s)
                  (Py.strip l1) (Py.strip l2) w2) as [Hn3 Hw].
    destruct (write_pipeline _ _ _ _ _ w2) as [[e|[]] w3]; simpl in *.
    { destruct Hw as [Hs3 _]. injection Hrun as <- <-. split; [congruence|].
      exists []. split; [done|]. simpl. congruence. }
    destruct Hw as [Hs3 _].
    destruct (IH _ _ _ _ Hrun) as (Hnow & pairs & Hin & Hst).
    split; [congruence|].
    exists ((s, (l1, l2)) :: pairs). split.
    + constructor; [by apply elem_of_cons; left|].
      eapply Forall_impl; [exact Hin|]. intros pr Hpr. by apply elem_of_cons; right.
    + rewrite Hst, Hs3, Hs2, Hs1. done.
Qed.

Lemma scan_blocks_hashes (instance_key : string) (blocks : list Z) :
  forall (st : scan_state) (w w' : world) (r : exn + scan_state),
  scan_blocks instance_key blocks st w = (r, w') ->
  Redis.hashes (store w') = Redis.hashes (store w)
  /\ forall (b : Z) (lock : option string) (hl : option bool),
       r = inr (b, lock, hl) ->
       lock = st.1.2 \/ exists b', lock = Some (lock_key b' instance_key).
Proof.
  induction blocks as [|b rest IH]; intros st w w' r Hrun; simpl in Hrun.
  - injection Hrun as <- <-. split; [done|]. intros b lock hl [= ->]. by left.
  - unfold bind at 1 in Hrun.
    destruct (lock_pipeline (lock_key b instance_key) w) as [[e|hl] w1] eqn:Hlock.
    + injection Hrun as <- <-.
      apply lock_pipeline_raises in Hlock as (-> & _). by split.
    + apply lock_pipeline_inr in Hlock as (_ & _ & Hst & _).
      assert (Hh : Redis.hashes (store w1) = Redis.hashes (store w))
        by (rewrite Hst; apply setnx_expire_hashes).
      destruct hl.
      * injection Hrun as <- <-. split; [done|].
        intros b0 lock hl [= <- <- <-]. right. by exists b.
      * unfold bind at 1, sleep at 1 in Hrun.
        apply IH in Hrun as [Hh' Hlock']. simpl in *.
        split; [congruence|]. intros b0 lock hl Hr.
        destruct (Hlock' _ _ _ Hr) as [->|?]; [|by right]. right. by exists b.
Qed.

Lemma hash_del (key lock : string) (d : Redis.db) :
  key <> lock -> Redis.hash key (Redis.del lock d) = Redis.hash key d.
Proof. intros Hne. unfold Redis.hash, Redis.del. simpl. by rewrite lookup_delete_ne. Qed.

Lemma record_key_not_lock_key (key : string) (b : Z) (instance_key : string) :
  record_key key -> key <> lock_key b instance_key.
Proof. by intros (p & s & k & a & c & r & [-> | ->]). Qed.

Lemma record_key_not_empty (key : string) : record_key key -> key <> "".
Proof. by intros (p & s & k & a & c & r & [-> | ->]). Qed.

Lemma batch_written_same (instance_key evaluation_key : string) (d0 d : Redis.db) :
  Redis.hashes d = Redis.hashes d0 ->
  batch_written instance_key evaluation_key d0 d.
Proof.
  intros Hh. exists []. split; [constructor|]. intros key _. simpl.
  unfold Redis.hash. by rewrite Hh.
Qed.

Lemma hashes_write_pair (instance_key evaluation_key : string) (d d' : Redis.db)
    (pr : Z * (string * string)) :
  Redis.hashes d = Redis.hashes d' ->
  Redis.hashes (write_pair instance_key evaluation_key d pr)
  = Redis.hashes (write_pair instance_key evaluation_key d' pr).
Proof.
  intros H. unfold write_pair, Redis.hset, Redis.hash. simpl. by rewrite H.
Qed.

Lemma hashes_foldl_write_pair (instance_key evaluation_key : string)
    (pairs : list (Z * (string * string))) : forall d d' : Redis.db,
  Redis.hashes d = Redis.hashes d' ->
  Redis.hashes (foldl (write_pair instance_key evaluation_key) d pairs)
  = Redis.hashes (foldl (write_pair instance_key evaluation_key) d' pairs).
Proof.
  induction pairs as [|pr rest IH]; intros d d' H; simpl; [done|].
  by apply IH, hashes_write_pair.
Qed.

Lemma batch_written_fold (instance_key evaluation_key : string) (d0 d1 d : Redis.db)
    (tg : list Z) (pairs : list (Z * (string * string))) :
  Redis.hashes d1 = Redis.hashes d0 ->
  Forall (fun s => Redis.hexists instance_key (Py.str s) d1 = false) tg ->
  Forall (fun pr => pr.1 ∈ tg) pairs ->
  Redis.hashes d
  = Redis.hashes (foldl (write_pair instance_key evaluation_key) d1 pairs) ->
  batch_written instance_key evaluation_key d0 d.
Proof.
  intros Hh Htg Hin Hd. exists pairs. split.
  - apply Forall_forall. intros pr Hpr.
    pose proof (proj1 (Forall_forall _ _) Hin _ Hpr) as Hpr'.
    pose proof (proj1 (Forall_forall _ _) Htg _ Hpr') as Hex.
    simpl in Hex. clear Htg. rename Hex into Htg. unfold Redis.hexists in Htg.
    apply bool_decide_eq_false in Htg. unfold Redis.hash in *. rewrite <- Hh.
    destruct (default ∅ (Redis.hashes d1 !! instance_key) !! Py.str pr.1) eqn:E;
      [|done].
    exfalso. apply Htg. by eexists.
  - intros key _. unfold Redis.hash. rewrite Hd.
    by rewrite (hashes_foldl_write_pair _ _ _ d1 d0).
Qed.

Lemma batch_written_del (instance_key evaluation_key lock : string)
    (d0 d : Redis.db) :
  (forall key, record_key key -> key <> lock) ->
  batch_written instance_key evaluation_key d0 d ->
  batch_written instance_key evaluation_key d0 (Redis.del lock d).
Proof.
  intros Hne (pairs & Habs & Hd). exists pairs. split; [done|].
  intros key Hkey. rewrite hash_del by by apply Hne. by apply Hd.
Qed.

(** However a call of [generate_instances] ends, the records in the store
    are those of before and the pairs written for some of the seeds that had
    no instance record. *)
Lemma generate_instances_batch_written
    (instance_generator : list string -> list string * Z)
    (random_seeds : list Z) (k_range m_range p s k a c r target_instances : Z)
    (w w' : world) (res : exn + Z * Z) :
  generate_instances instance_generator random_seeds k_range m_range
    p s k a c r target_instances w = (res, w') ->
  batch_written (instance_key_of p s k a c r) (evaluation_key_of p s k a c r)
    (store w) (store w').
Proof.
  intros Hrun. unfold generate_instances in Hrun.
  change ("INSTANCE:" +:+ config_suffix p s k a c r)
    with (instance_key_of p s k a c r) in Hrun.
  change ("EVALUATION:" +:+ config_suffix p s k a c r)
    with (evaluation_key_of p s k a c r) in Hrun.
  set (ikey := instance_key_of p s k a c r) in *.
  set (ekey := evaluation_key_of p s k a c r) in *.
  unfold bind at 1 in Hrun.
  pose proof (hlen_same ikey w) as (Hs0 & _).
  destruct (hlen ikey w) as [[e|existing] w0]; simpl in Hs0.
  { injection Hrun as <- <-. apply batch_written_same. by rewrite Hs0. }
  case_bool_decide.
  { injection Hrun as <- <-. apply batch_written_same. by rewrite Hs0. }
  unfold bind at 1 in Hrun.
  destruct (scan_blocks ikey _ _ w0) as [[e|[[block lock] hl]] w1] eqn:Hscan;
    apply scan_blocks_hashes in Hscan as [Hh1 Hlock].
  { injection Hrun as <- <-. apply batch_written_same. by rewrite Hh1, Hs0. }
  specialize (Hlock _ _ _ eq_refl). simpl in Hlock.
  destruct hl as [[|]|]; cycle 1.
  { injection Hrun as <- <-. apply batch_written_same. by rewrite Hh1, Hs0. }
  { injection Hrun as <- <-. apply batch_written_same. by rewrite Hh1, Hs0. }
  unfold bind at 1, print at 1, emit at 1 in Hrun.
  unfold bind at 1 in Hrun.
  destruct (missing_seeds ikey _ _) as [[e|tg] w2] eqn:Hms;
    apply missing_seeds_effect in Hms as (Hs2 & _ & _ & Htg); simpl in Hs2.
  { injection Hrun as <- <-. apply batch_written_same. by rewrite Hs2, Hh1, Hs0. }
  specialize (Htg _ eq_refl). simpl in Htg.
  case_bool_decide.
  { injection Hrun as <- <-. apply batch_written_same. by rewrite Hs2, Hh1, Hs0. }
  unfold bind at 1, create_subprocess_exec at 1, bind at 1 in Hrun.
  pose proof (roundtrip_same w2) as (Hsx & _). fold exec_request in Hsx.
  destruct (exec_request w2) as [[e|[]] wx]; simpl in Hsx.
  { injection Hrun as <- <-. apply batch_written_same.
    by rewrite Hsx, Hs2, Hh1, Hs0. }
  unfold bind at 1, emit at 1 in Hrun.
  destruct (instance_generator _) as [out status].
  unfold ret at 1 in Hrun. unfold bind at 1 in Hrun.
  destruct (read_pairs ikey ekey tg _ _) as [[e|p'] w3] eqn:Hrd;
    apply read_pairs_effect in Hrd as (_ & pairs & Hin & Hs3); simpl in Hs3.
  all: assert (Hw3 : batch_written ikey ekey (store w) (store w3))
    by (apply (batch_written_fold _ _ _ (store w1) _ tg pairs);
        [by rewrite Hh1, Hs0|done|done|by rewrite Hs3, Hsx, Hs2]).
  { by injection Hrun as <- <-. }
  unfold bind at 1, wait at 1, bind at 1, emit at 1 in Hrun.
  unfold ret at 1 in Hrun. unfold bind at 1 in Hrun.
  match type of Hrun with
  | context [hlen ikey ?v] =>
      pose proof (hlen_same ikey v) as (Hs4 & _);
      destruct (hlen ikey v) as [[e|count] w4]; simpl in Hs4
  end.
  { injection Hrun as <- <-. by rewrite Hs4. }
  unfold bind at 1 in Hrun.
  pose proof (delete_key_effect (default "" lock) w4) as [_ Hdel].
  destruct (delete_key (default "" lock) w4) as [[e|[]] w5]; simpl in Hdel.
  { destruct Hdel as [Hs5 _]. injection Hrun as <- <-. by rewrite Hs5, Hs4. }
  destruct Hdel as [Hs5 _]. injection Hrun as <- <-. rewrite Hs5, Hs4.
  apply batch_written_del; [|done]. intros key Hkey.
  destruct Hlock as [->|[b' ->]]; simpl.
  - by apply record_key_not_empty.
  - by apply record_key_not_lock_key.
Qed.

(** ** From one call to the whole script *)

Lemma int_same (s : string) (w : world) : (int s w).2 = w.
Proof. unfold int. by destruct (Py.int s). Qed.

Lemma read_seeds_same (text : string) (w : world) : (read_seeds text w).2 = w.
Proof.
  unfold read_seeds, bind.
  pose proof (ints_of_tokens_cases (seed_tokens text) w) as H.
  destruct (ints_of_tokens (seed_tokens text) w) as [[e|ns] w']; by destruct H.
Qed.

Lemma read_configs_same (rows : list (list string)) (w : world) :
  (read_configs 0 rows w).2 = w.
Proof.
  destruct rows as [|header rows]; [done|]. simpl.
  pose proof (read_configs_cases rows 0 w) as H.
  destruct (read_configs 1 rows w) as [[e|cfgs] w']; by destruct H.
Qed.

Section Lift.

Context (R : Redis.db -> Redis.db -> Prop) `{!Reflexive R} `{!Transitive R}.

Variable instance_generator : list string -> list string * Z.
Variable target : Z.

Hypothesis Hcall :
  forall (random_seeds : list Z) (k_range m_range p s k a c r : Z),
    relates R (generate_instances instance_generator random_seeds k_range
                 m_range p s k a c r target).

Lemma relates_sweep (random_seeds : list Z) (k_range m_range : Z)
    (configs : list (list Z)) : forall ra : bool,
  relates R (sweep instance_generator random_seeds k_range m_range target
               configs ra).
Proof.
  induction configs as [|cfg rest IH]; intros ra; simpl.
  - by apply (relates_ret R).
  - destruct cfg as [|p [|s [|k [|a [|c [|r [|]]]]]]];
      try by apply (relates_raise R).
    refine (relates_bind R _ _ _ _); [|apply IH].
    unfold run_config. refine (relates_try_except R _ _ _ _).
    + refine (relates_bind R _ _ _ _); [apply Hcall|]. intros [prev cur].
      refine (relates_bind R _ _ _ _); [ |intros; by apply (relates_ret R)].
      by apply (relates_same R).
    + intros e. destruct (is_transient e); [|by apply (relates_raise R)].
      refine (relates_bind R _ _ _ _); [ |intros; by apply (relates_ret R)].
      by apply (relates_same R).
Qed.

Lemma relates_loop (random_seeds : list Z) (k_range m_range : Z)
    (configs : list (list Z)) (fuel : nat) :
  relates R (convergence_loop instance_generator random_seeds k_range m_range
               target configs fuel).
Proof.
  induction fuel as [|fuel IH]; simpl; [by apply (relates_ret R)|].
  refine (relates_bind R _ _ _ _); [apply relates_sweep|].
  intros [|]; [apply IH|by apply (relates_ret R)].
Qed.

End Lift.

Section LiftMain.

(** The relation may depend on the target, which the script reads from its
    second argument; when that is not a number the script ends before it
    touches the store, and [0] stands for the target. *)
Context (R : Z -> Redis.db -> Redis.db -> Prop)
  `{!forall t, Reflexive (R t)} `{!forall t, Transitive (R t)}.

Variable instance_generator : list string -> list string * Z.

Hypothesis Hcall :
  forall (random_seeds : list Z) (k_range m_range p s k a c r target : Z),
    relates (R target)
      (generate_instances instance_generator random_seeds k_range
         m_range p s k a c r target).

Lemma relates_bind_int {A} (t : Z) (s : string) (k : Z -> M A) :
  (forall n : Z, Py.int s = Some n -> relates (R t) (k n)) ->
  relates (R t) (bind (int s) k).
Proof.
  intros Hk w. unfold bind, int. destruct (Py.int s) as [n|]; [by apply Hk|done].
Qed.

Lemma relates_script (seeds_text : string) (csv_rows : list (list string))
    (argv2 argv3 argv4 : string) (fuel : nat) :
  relates (R (default 0 (Py.int argv2)))
    (script instance_generator seeds_text csv_rows argv2 argv3 argv4 fuel).
Proof.
  unfold script. set (t := default 0 (Py.int argv2)).
  refine (relates_bind (R t) _ _ _ _); [by apply (relates_same (R t))|].
  intros _. apply relates_bind_int. intros target Htarget.
  assert (Ht : t = target) by (unfold t; by rewrite Htarget). subst target.
  apply relates_bind_int. intros k_range _.
  apply relates_bind_int. intros m_range _.
  refine (relates_bind (R t) _ _ _ _);
    [apply (relates_same (R t)); intros; by rewrite read_seeds_same|].
  intros seeds.
  refine (relates_bind (R t) _ _ _ _);
    [apply (relates_same (R t)); intros; by rewrite read_configs_same|].
  intros configs. apply (relates_loop (R t)). intros. apply Hcall.
Qed.

Lemma relates_main_target (seeds_text : string) (csv_rows : list (list string))
    (argv2 argv3 argv4 : string) (fuel : nat) (w : world) :
  R (default 0 (Py.int argv2)) (store w)
    (store (main instance_generator seeds_text csv_rows argv2 argv3 argv4 fuel
              w).2).
Proof.
  unfold main. set (t := default 0 (Py.int argv2)).
  pose proof (relates_try_except (R t)
                (script instance_generator seeds_text csv_rows argv2 argv3
                   argv4 fuel)
                (fun exp => bind (emit (EvTraceback exp)) (fun _ => ret Finished))
                (relates_script _ _ _ _ _ _)) as Hm.
  specialize (Hm ltac:(intros e; refine (relates_bind (R t) _ _ _ _);
                         [by apply (relates_same (R t))|
                          intros; by apply (relates_ret (R t))]) w).
  by destruct (try_except _ _ w) as [[e|[|]] w'].
Qed.

End LiftMain.

Lemma relates_main (R : Redis.db -> Redis.db -> Prop) `{!Reflexive R}
    `{!Transitive R} (instance_generator : list string -> list string * Z) :
  (forall (random_seeds : list Z) (k_range m_range p s k a c r target : Z),
      relates R (generate_instances instance_generator random_seeds k_range
                   m_range p s k a c r target)) ->
  forall (seeds_text : string) (csv_rows : list (list string))
         (argv2 argv3 argv4 : string) (fuel : nat) (w : world),
    R (store w)
      (store (main instance_generator seeds_text csv_rows argv2 argv3 argv4
                fuel w).2).
Proof.
  intros Hcall seeds_text csv_rows argv2 argv3 argv4 fuel w.
  by apply (relates_main_target (fun _ => R)).
Qed.

(** ** Pairs of records *)

Lemma keys_of_same_configuration (p s k a c r p' s' k' a' c' r' : Z) :
  instance_key_of p s k a c r = instance_key_of p' s' k' a' c' r'
  <-> evaluation_key_of p s k a c r = evaluation_key_of p' s' k' a' c' r'.
Proof.
  unfold instance_key_of, evaluation_key_of.
  split; intros H%(inj (String.app _)); by rewrite H.
Qed.

Lemma evaluation_key_not_instance_key (p s k a c r p' s' k' a' c' r' : Z) :
  evaluation_key_of p s k a c r <> instance_key_of p' s' k' a' c' r'.
Proof. done. Qed.

Lemma pairs_consistent_write_pair (p s k a c r : Z) (d : Redis.db)
    (pr : Z * (string * string)) :
  pairs_consistent d ->
  pairs_consistent
    (write_pair (instance_key_of p s k a c r) (evaluation_key_of p s k a c r) d pr).
Proof.
  intros Hd p' s' k' a' c' r'.
  rewrite !hash_write_pair by apply instance_key_not_evaluation_key.
  rewrite (decide_False (P := instance_key_of _ _ _ _ _ _ = evaluation_key_of _ _ _ _ _ _))
    by apply instance_key_not_evaluation_key.
  destruct (decide (instance_key_of p' s' k' a' c' r' = instance_key_of p s k a c r))
    as [Hi|Hi].
  - rewrite decide_True by by apply keys_of_same_configuration.
    rewrite !dom_insert_L. by rewrite Hd.
  - rewrite decide_False by (by intros He%keys_of_same_configuration).
    rewrite decide_False by apply evaluation_key_not_instance_key.
    apply Hd.
Qed.

Lemma pairs_consistent_batch (p s k a c r : Z) (d0 d : Redis.db) :
  batch_written (instance_key_of p s k a c r) (evaluation_key_of p s k a c r) d0 d ->
  pairs_consistent d0 -> pairs_consistent d.
Proof.
  intros (pairs & _ & Hd) Hd0 p' s' k' a' c' r'.
  rewrite !Hd by (do 6 eexists; eauto).
  clear Hd. revert d0 Hd0. induction pairs as [|pr rest IH]; intros d0 Hd0; simpl.
  - apply Hd0.
  - apply IH. by apply pairs_consistent_write_pair.
Qed.

(** X1.  Through a whole run of the script, whatever the failures of the
    store, the output of the generator and the way the run ends, the seeds
    with an instance record stay those with an evaluation record, in every
    configuration: the two records of a seed are written together or not at
    all. *)
Theorem records_stay_paired (instance_generator : list string -> list string * Z)
    (seeds_text : string) (csv_rows : list (list string))
    (argv2 argv3 argv4 : string) (fuel : nat) (w : world) :
  pairs_consistent (store w) ->
  pairs_consistent
    (store (main instance_generator seeds_text csv_rows argv2 argv3 argv4 fuel
              w).2).
Proof.
  set (R := fun d d' : Redis.db => pairs_consistent d -> pairs_consistent d').
  assert (Hrefl : Reflexive R) by (intros d H; exact H).
  assert (Htrans : Transitive R)
    by (intros d1 d2 d3 H12 H23 H1; apply H23, H12, H1).
  apply (@relates_main R Hrefl Htrans instance_generator).
  intros seeds km mr p s k a c r target w0.
  destruct (generate_instances _ _ _ _ _ _ _ _ _ _ _ w0) as [res w'] eqn:Hrun.
  apply generate_instances_batch_written in Hrun. simpl.
  unfold R. by eapply pairs_consistent_batch.
Qed.

Lemma records_stay_paired_witness :
  pairs_consistent
    (store (main echo_generator "7 8 9" two_config_rows "2" "1" "1" 3
              fresh_world).2).
Proof.
  apply (records_stay_paired echo_generator "7 8 9" two_config_rows "2" "1" "1"
           3 fresh_world).
  intros p s k a c r. reflexivity.
Defined.

Lemma instances_kept_batch (p s k a c r : Z) (d0 d : Redis.db) :
  batch_written (instance_key_of p s k a c r) (evaluation_key_of p s k a c r) d0 d ->
  instances_kept d0 d.
Proof.
  intros (pairs & Habs & Hd) p' s' k' a' c' r' field payload Hf.
  rewrite Hd by (do 6 eexists; eauto). clear Hd.
  assert (Hne : Forall (fun pr : Z * (string * string) =>
                          instance_key_of p' s' k' a' c' r'
                          = instance_key_of p s k a c r ->
                          Py.str pr.1 <> field) pairs).
  { eapply Forall_impl; [exact Habs|]. intros pr Hpr Heq Hfe.
    rewrite Heq, <- Hfe in Hf. simpl in Hpr. congruence. }
  clear Habs. revert d0 Hf. induction pairs as [|pr rest IH]; intros d0 Hf; simpl.
  - done.
  - apply Forall_cons in Hne as [Hpr Hne]. apply IH; [done|].
    rewrite hash_write_pair by apply instance_key_not_evaluation_key.
    rewrite decide_False by apply instance_key_not_evaluation_key.
    destruct (decide (instance_key_of p' s' k' a' c' r'
                      = instance_key_of p s k a c r)) as [Heq|Hneq]; [|done].
    rewrite lookup_insert_ne by by apply Hpr. done.
Qed.

(** X2.  Through a whole run of the script, however it ends, every instance
    record that was in the store is still there with the same payload: the
    script never deletes and never overwrites an instance record. *)
Theorem instance_records_are_write_once
    (instance_generator : list string -> list string * Z)
    (seeds_text : string) (csv_rows : list (list string))
    (argv2 argv3 argv4 : string) (fuel : nat) (w : world) :
  instances_kept (store w)
    (store (main instance_generator seeds_text csv_rows argv2 argv3 argv4 fuel
              w).2).
Proof.
  assert (Hrefl : Reflexive instances_kept) by (intros d p s k a c r f v H; exact H).
  assert (Htrans : Transitive instances_kept).
  { intros d1 d2 d3 H12 H23 p s k a c r f v H. by apply H23, H12. }
  apply (@relates_main instances_kept Hrefl Htrans instance_generator).
  intros seeds km mr p s k a c r target w0.
  destruct (generate_instances _ _ _ _ _ _ _ _ _ _ _ w0) as [res w'] eqn:Hrun.
  apply generate_instances_batch_written in Hrun. simpl.
  by eapply instances_kept_batch.
Qed.

(** ** What one call does, step by step, whatever the failures *)

Lemma claims_app (evs1 evs2 : list event) :
  claims (evs1 ++ evs2) = claims evs1 ++ claims evs2.
Proof. apply omap_app. Qed.

Lemma spawns_app (evs1 evs2 : list event) :
  spawns (evs1 ++ evs2) = spawns evs1 ++ spawns evs2.
Proof. apply omap_app. Qed.

Lemma scan_blocks_effect (instance_key : string) (blocks : list Z) :
  forall (st : scan_state) (w w' : world) (r : exn + scan_state),
  st.2 <> Some true ->
  scan_blocks instance_key blocks st w = (r, w') ->
  Redis.hashes (store w') = Redis.hashes (store w)
  /\ (forall key : string,
        (forall b : Z, b ∈ blocks -> key <> lock_key b instance_key) ->
        Redis.strings (store w') !! key = Redis.strings (store w) !! key)
  /\ exists evs : list event,
       trace w' = trace w ++ evs /\ spawns evs = []
       /\ match r with
          | inr (b, lock, Some true) =>
              b ∈ blocks /\ lock = Some (lock_key b instance_key)
              /\ claims evs = [lock_key b instance_key]
              /\ lock_left (now w') (lock_key b instance_key) (store w')
          | inr (b, lock, hl) =>
              claims evs = [] /\ (hl = None -> blocks = [] /\ st.2 = None)
          | inl _ => claims evs = []
          end.
Proof.
  induction blocks as [|b rest IH]; intros st w w' r Hst Hrun; simpl in Hrun.
  - injection Hrun as <- <-. split; [done|]. split; [done|]. exists [].
    rewrite (right_id_L [] (++)). repeat split; try done.
    destruct st as [[b lock] [[|]|]]; by simpl in *.
  - unfold bind at 1 in Hrun.
    destruct (lock_pipeline (lock_key b instance_key) w) as [[e|hl] w1] eqn:Hlock.
    + injection Hrun as <- <-.
      apply lock_pipeline_raises in Hlock as (-> & _ & ->). split; [done|].
      split; [done|]. exists []. by rewrite (right_id_L [] (++)).
    + apply lock_pipeline_inr in Hlock as (_ & Hn & Hs & Ht & _).
      assert (Hh : Redis.hashes (store w1) = Redis.hashes (store w))
        by (rewrite Hs; apply setnx_expire_hashes).
      assert (Hfr : forall key : string,
                (forall b0 : Z, b0 ∈ b :: rest -> key <> lock_key b0 instance_key) ->
                Redis.strings (store w1) !! key = Redis.strings (store w) !! key).
      { intros key Hkey. rewrite Hs. apply strings_setnx_expire_ne.
        apply Hkey. by apply elem_of_cons; left. }
      destruct hl.
      * injection Hrun as <- <-. split; [done|]. split; [done|].
        exists [EvLock (lock_key b instance_key) true].
        repeat split; try done; [by apply elem_of_cons; left|].
        eexists. rewrite Hs, Hn. by apply setnx_expire_entry.
      * unfold bind at 1, sleep at 1 in Hrun.
        apply IH in Hrun as (Hh' & Hfr' & evs & Ht' & Hsp & Hr); [|done].
        simpl in *.
        split; [congruence|]. split.
        { intros key Hkey. rewrite Hfr', Hfr; [done|done|].
          intros b0 Hb0. apply Hkey. by apply elem_of_cons; right. }
        exists (EvLock (lock_key b instance_key) false :: EvSleep 50 :: evs).
        split; [rewrite Ht', Ht; by rewrite <- !(assoc_L (++))|].
        split; [done|].
        destruct r as [e|[[b' lock] [[|]|]]]; simpl; try done.
        -- destruct Hr as (Hin & -> & Hc & Hl). repeat split; try done.
           by apply elem_of_cons; right.
        -- destruct Hr as [Hc _]. by split.
        -- destruct Hr as [Hc Hnone]. split; [done|]. intros _.
           by destruct (Hnone eq_refl) as [_ ?].
Qed.

Lemma missing_seeds_result (instance_key : string) (seeds : list Z) :
  forall (w w' : world) (tg : list Z),
  missing_seeds instance_key seeds w = (inr tg, w') ->
  tg = absent_seeds instance_key (store w) seeds.
Proof.
  unfold absent_seeds.
  induction seeds as [|s rest IH]; intros w w' tg Hrun; simpl in Hrun.
  - by injection Hrun as <- <-.
  - unfold bind at 1 in Hrun.
    pose proof (hexists_same instance_key (Py.str s) w) as (Hs & _ & _ & Hb).
    destruct (hexists instance_key (Py.str s) w) as [[e|b] w1]; simpl in *;
      [done|].
    specialize (Hb b eq_refl). unfold bind at 1 in Hrun.
    destruct (missing_seeds instance_key rest w1) as [[e|others] w2] eqn:Hrest;
      [done|].
    injection Hrun as <- <-. apply IH in Hrest. rewrite Hs in Hrest.
    rewrite filter_cons. rewrite <- Hb, <- Hrest.
    destruct b; [by rewrite decide_False|by rewrite decide_True].
Qed.

Lemma readline_events (p : proc) (w : world) :
  exists evs : list event,
    trace (readline p w).2 = trace w ++ evs /\ claims evs = [] /\ spawns evs = [].
Proof.
  unfold readline. destruct (stdout p) as [|l ls].
  - by exists [EvReadline ""].
  - case_bool_decide.
    + exists []. by rewrite (right_id_L [] (++)).
    + by exists [EvReadline l].
Qed.

Lemma read_pairs_full (instance_key evaluation_key : string) (tg : list Z) :
  forall (p : proc) (w w' : world) (r : exn + proc),
  read_pairs instance_key evaluation_key tg p w = (r, w') ->
  now w' = now w
  /\ exists (pairs : list (Z * (string * string))) (evs : list event),
       pairs.*1 `prefix_of` tg
       /\ (forall p' : proc, r = inr p' -> pairs.*1 = tg)
       /\ store w' = foldl (write_pair instance_key evaluation_key) (store w) pairs
       /\ trace w' = trace w ++ evs /\ claims evs = [] /\ spawns evs = [].
Proof.
  induction tg as [|s rest IH]; intros p w w' r Hrun; simpl in Hrun.
  - injection Hrun as <- <-. split; [done|]. exists [], [].
    by rewrite (right_id_L [] (++)).
  - unfold bind at 1 in Hrun.
    pose proof (readline_same p w) as [Hs1 Hn1].
    pose proof (readline_events p w) as (evs1 & Ht1 & Hc1 & Hp1).
    destruct (readline p w) as [[e|[l1 p1]] w1]; simpl in *.
    { injection Hrun as <- <-. split; [done|]. exists [], evs1.
      repeat split; try done. apply prefix_nil. }
    unfold bind at 1 in Hrun.
    destruct (decode_ascii l1 w1) as [[e|o1] w1'] eqn:Hdec1;
      apply decode_ascii_cases in Hdec1 as [-> Ho1].
    { injection Hrun as <- <-. split; [done|]. exists [], evs1.
      repeat split; try done. apply prefix_nil. }
    rewrite (Ho1 _ eq_refl) in Hrun. clear Ho1.
    unfold bind at 1 in Hrun.
    pose proof (readline_same p1 w1) as [Hs2 Hn2].
    pose proof (readline_events p1 w1) as (evs2 & Ht2 & Hc2 & Hp2).
    assert (Hc12 : claims (evs1 ++ evs2) = [] /\ spawns (evs1 ++ evs2) = [])
      by by rewrite claims_app, spawns_app, Hc1, Hc2, Hp1, Hp2.
    destruct Hc12 as [Hc12 Hp12].
    destruct (readline p1 w1) as [[e|[l2 p2]] w2]; simpl in *.
    { injection Hrun as <- <-. split; [congruence|]. exists [], (evs1 ++ evs2).
      repeat split; try done; [apply prefix_nil|simpl; congruence|].
      by rewrite Ht2, Ht1, (assoc_L (++)). }
    unfold bind at 1 in Hrun.
    destruct (decode_ascii l2 w2) as [[e|o2] w2'] eqn:Hdec2;
      apply decode_ascii_cases in Hdec2 as [-> Ho2].
    { injection Hrun as <- <-. split; [congruence|]. exists [], (evs1 ++ evs2).
      repeat split; try done; [apply prefix_nil|simpl; congruence|].
      by rewrite Ht2, Ht1, (assoc_L (++)). }
    rewrite (Ho2 _ eq_refl) in Hrun. clear Ho2.
    unfold bind at 1 in Hrun.
    pose proof (write_pipeline_effect instance_key evaluation_key (Py.str s)
                  (Py.strip l1) (Py.strip l2) w2) as [Hn3 Hw].
    destruct (write_pipeline _ _ _ _ _ w2) as [[e|[]] w3]; simpl in *.
    { destruct Hw as [Hs3 Ht3]. injection Hrun as <- <-. split; [congruence|].
      exists [], (evs1 ++ evs2).
      repeat split; try done; [apply prefix_nil|simpl; congruence|].
      by rewrite Ht3, Ht2, Ht1, (assoc_L (++)). }
    destruct Hw as [Hs3 Ht3].
    destruct (IH _ _ _ _ Hrun)
      as (Hnow & pairs & evs & Hpre & Hfull & Hst & Ht & Hc & Hp).
    split; [congruence|].
    exists ((s, (l1, l2)) :: pairs),
      (evs1 ++ evs2
       ++ EvWrite instance_key evaluation_key (Py.str s) (Py.strip l1)
            (Py.strip l2) :: evs).
    repeat split.
    + simpl. by apply prefix_cons.
    + intros p' Hr. simpl. f_equal. by eapply Hfull.
    + rewrite Hst, Hs3, Hs2, Hs1. done.
    + rewrite Ht, Ht3, Ht2, Ht1. rewrite <- !(assoc_L (++)). done.
    + rewrite !claims_app, Hc1, Hc2. simpl. exact Hc.
    + rewrite !spawns_app, Hp1, Hp2. simpl. exact Hp.
Qed.

Lemma evaluation_key_not_lock_key (p s k a c r b : Z) (key : string) :
  evaluation_key_of p s k a c r <> lock_key b key.
Proof. done. Qed.

Lemma strings_del (key lock : string) (d : Redis.db) :
  Redis.strings (Redis.del lock d) !! key
  = if decide (key = lock) then None else Redis.strings d !! key.
Proof.
  unfold Redis.del. simpl. destruct (decide (key = lock)) as [->|Hne].
  - by rewrite lookup_delete_eq.
  - by rewrite lookup_delete_ne.
Qed.

(** The two ways in which a call of [generate_instances] can go: it ends
    before any block is claimed, or it claims one block and then looks for
    the seeds to generate, starts the generator, writes the pairs it reads
    and releases the lock, as far as the failures let it go. *)
Lemma generate_instances_effect
    (instance_generator : list string -> list string * Z)
    (random_seeds : list Z) (k_range m_range p s k a c r target_instances : Z)
    (w w' : world) (res : exn + Z * Z) :
  generate_instances instance_generator random_seeds k_range m_range
    p s k a c r target_instances w = (res, w') ->
  let ikey := instance_key_of p s k a c r in
  let ekey := evaluation_key_of p s k a c r in
  let existing := Redis.hlen ikey (store w) in
  (exists evs : list event,
     trace w' = trace w ++ evs /\ claims evs = [] /\ spawns evs = []
     /\ Redis.hashes (store w') = Redis.hashes (store w)
     /\ (forall key : string,
           (forall b : Z, b ∈ Py.range 0 target_instances BLOCK_SIZE ->
                          key <> lock_key b ikey) ->
           Redis.strings (store w') !! key = Redis.strings (store w) !! key)
     /\ match res with
        | inl _ => True
        | inr (n, work) =>
            n = existing
            /\ (work = 0 /\ target_instances <= existing
                \/ work = -1 /\ existing < target_instances)
        end)
  \/ (exists (block : Z) (evs1 evs2 : list event)
        (pairs : list (Z * (string * string))),
        let lock := lock_key block ikey in
        let tg := absent_seeds ikey (store w)
                    (Py.slice random_seeds (Z.max block existing)
                       target_instances) in
        existing < target_instances
        /\ block ∈ Py.range 0 target_instances BLOCK_SIZE
        /\ trace w' = trace w ++ evs1 ++ evs2
        /\ claims evs1 = [lock] /\ spawns evs1 = [] /\ claims evs2 = []
        /\ pairs.*1 `prefix_of` tg
        /\ (forall key : string, key <> lock ->
              Redis.hash key (store w')
              = Redis.hash key (foldl (write_pair ikey ekey) (store w) pairs))
        /\ (spawns evs2 = [] /\ pairs = []
            \/ tg <> []
               /\ spawns evs2
                  = [generator_args k_range m_range p s k a c r tg])
        /\ (forall key : string,
              (forall b : Z, b ∈ Py.range 0 target_instances BLOCK_SIZE ->
                             key <> lock_key b ikey) ->
              Redis.strings (store w') !! key = Redis.strings (store w) !! key)
        /\ match res with
           | inr (n, work) =>
               work = -2 /\ n = existing /\ tg = []
               /\ lock_left (now w') lock (store w')
               \/ 0 < work /\ work = Z.of_nat (length tg) /\ pairs.*1 = tg
                  /\ n = Redis.hlen ikey (store w')
                  /\ Redis.strings (store w') !! lock = None
           | inl _ => lock_left (now w') lock (store w')
           end).
Proof.
  intros Hrun ikey ekey existing. unfold generate_instances in Hrun.
  change ("INSTANCE:" +:+ config_suffix p s k a c r) with ikey in Hrun.
  change ("EVALUATION:" +:+ config_suffix p s k a c r) with ekey in Hrun.
  assert (Hie : ikey <> ekey) by apply instance_key_not_evaluation_key.
  unfold bind at 1 in Hrun.
  pose proof (hlen_same ikey w) as (Hs0 & Hn0 & Ht0).
  assert (Hex : forall n w0, hlen ikey w = (inr n, w0) -> n = existing).
  { unfold hlen, bind. pose proof (roundtrip_same w) as (Hs & _).
    destruct (roundtrip w) as [[e|[]] w1]; [done|]. intros n w0 [= <- <-].
    unfold existing. simpl in Hs. by rewrite Hs. }
  destruct (hlen ikey w) as [[e|n0] w0]; simpl in Hs0, Hn0, Ht0.
  { injection Hrun as <- <-. left. exists [].
    rewrite (right_id_L [] (++)), Hs0. done. }
  rewrite (Hex n0 w0 eq_refl) in Hrun. clear Hex n0.
  case_bool_decide as Hge.
  { injection Hrun as <- <-. left. exists [].
    rewrite (right_id_L [] (++)), Hs0. repeat split; try done. left. split; [done|lia]. }
  unfold bind at 1 in Hrun.
  destruct (scan_blocks ikey _ _ w0) as [[e|[[block lock] hl]] w1] eqn:Hscan;
    apply scan_blocks_effect in Hscan as (Hh1 & Hf1 & evs1 & Ht1 & Hp1 & Hr1);
    try done.
  all: rewrite Hs0 in Hf1.
  { injection Hrun as <- <-. left. exists evs1.
    repeat split; try done; congruence. }
  destruct hl as [[|]|]; cycle 1.
  { injection Hrun as <- <-. left. exists evs1. destruct Hr1 as [Hc1 _].
    repeat split; try done; try congruence. right. split; [done|lia]. }
  { exfalso. destruct Hr1 as [_ Hnone]. destruct (Hnone eq_refl) as [Hnil _].
    assert (Hl : Py.range 0 target_instances BLOCK_SIZE !! 0%nat = Some 0).
    { apply range_lookup. unfold BLOCK_SIZE, existing, Redis.hlen in *. lia. }
    by rewrite Hnil in Hl. }
  destruct Hr1 as (Hin & -> & Hc1 & Hleft).
  right. exists block, evs1.
  unfold bind at 1, print at 1, emit at 1 in Hrun.
  unfold bind at 1 in Hrun.
  match type of Hrun with
  | context [log ?ev w1] => set (ev1 := ev) in *; set (w1' := log ev1 w1) in *
  end.
  assert (Hhash1 : Redis.hashes (store w1) = Redis.hashes (store w))
    by congruence.
  set (tg := absent_seeds ikey (store w)
               (Py.slice random_seeds (Z.max block existing) target_instances)).
  destruct (missing_seeds ikey _ w1') as [[e|tg'] w2] eqn:Hms.
  { apply missing_seeds_effect in Hms as (Hs2 & Hn2 & Ht2 & _).
    injection Hrun as <- <-. exists [ev1], []. simpl in *.
    repeat split; try done; try lia.
    - by rewrite Ht2, Ht1, Ht0, <- (assoc_L (++)).
    - apply prefix_nil.
    - intros key _. unfold Redis.hash. by rewrite Hs2, Hhash1.
    - by left.
    - intros key Hkey. rewrite Hs2. by apply Hf1.
    - by rewrite Hn2, Hs2. }
  pose proof (missing_seeds_result _ _ _ _ _ Hms) as Htg. simpl in Htg.
  rewrite (absent_seeds_ext _ _ (store w)) in Htg by done.
  change (tg' = tg) in Htg. subst tg'.
  apply missing_seeds_effect in Hms as (Hs2 & Hn2 & Ht2 & _). simpl in *.
  case_bool_decide as Hlen.
  { injection Hrun as <- <-. exists [ev1], [].
    repeat split; try done; try lia.
    - by rewrite Ht2, Ht1, Ht0, <- (assoc_L (++)).
    - apply prefix_nil.
    - intros key _. unfold Redis.hash. by rewrite Hs2, Hhash1.
    - by left.
    - intros key Hkey. rewrite Hs2. by apply Hf1.
    - left. repeat split; try done.
      + by apply nil_length_inv.
      + by rewrite Hn2, Hs2. }
  unfold bind at 1, create_subprocess_exec at 1, bind at 1 in Hrun.
  pose proof (roundtrip_same w2) as (Hsx & Hnx & Htx).
  fold exec_request in Hsx, Hnx, Htx.
  destruct (exec_request w2) as [[e|[]] wx]; simpl in Hsx, Hnx, Htx.
  { injection Hrun as <- <-. exists [ev1], [].
    repeat split; try done; try lia.
    - by rewrite Htx, Ht2, Ht1, Ht0, <- (assoc_L (++)).
    - apply prefix_nil.
    - intros key _. unfold Redis.hash. by rewrite Hsx, Hs2, Hhash1.
    - by left.
    - intros key Hkey. rewrite Hsx, Hs2. by apply Hf1.
    - by rewrite Hnx, Hn2, Hsx, Hs2. }
  rewrite Hs2 in Hsx. rewrite Hn2 in Hnx. rewrite Ht2 in Htx.
  clear Hs2 Hn2 Ht2. clear w2.
  rename wx into w2, Hsx into Hs2, Hnx into Hn2, Htx into Ht2.
  unfold bind at 1, emit at 1 in Hrun.
  destruct (instance_generator _) as [out status].
  unfold ret at 1 in Hrun. unfold bind at 1 in Hrun.
  match type of Hrun with
  | context [log ?ev w2] => set (ev2 := ev) in *; set (w2' := log ev2 w2) in *
  end.
  assert (Htgne : tg <> []) by (intros Hnil; by rewrite Hnil in Hlen).
  destruct (read_pairs ikey ekey tg _ w2') as [[e|p'] w3] eqn:Hrd;
    apply read_pairs_full in Hrd
      as (Hn3 & pairs & evs3 & Hpre & Hfull & Hs3 & Ht3 & Hc3 & Hp3);
    simpl in Hn3, Hs3, Ht3.
  all: assert (Hstr3 : Redis.strings (store w3) = Redis.strings (store w1))
    by (rewrite Hs3, Hs2; by apply foldl_write_pair).
  all: assert (Hhash3 : forall key : string,
                 Redis.hash key (store w3)
                 = Redis.hash key (foldl (write_pair ikey ekey) (store w) pairs))
    by (intros key; unfold Redis.hash; rewrite Hs3;
        by rewrite (hashes_foldl_write_pair _ _ _ (store w2) (store w))
          by congruence).
  { injection Hrun as <- <-. exists (ev1 :: ev2 :: evs3), pairs.
    repeat split; try done; try lia.
    - rewrite Ht3, Ht2, Ht1, Ht0. by rewrite <- !(assoc_L (++)).
    - right. split; [done|]. simpl. by rewrite Hp3.
    - intros key Hkey. rewrite Hstr3. by apply Hf1.
    - destruct Hleft as [stamp Hleft]. exists stamp.
      rewrite Hstr3, Hn3, Hn2. done. }
  specialize (Hfull _ eq_refl).
  unfold bind at 1, wait at 1, bind at 1, emit at 1 in Hrun.
  unfold ret at 1 in Hrun. unfold bind at 1 in Hrun.
  match type of Hrun with
  | context [log ?ev w3] => set (ev3 := ev) in *; set (w3' := log ev3 w3) in *
  end.
  pose proof (hlen_same ikey w3') as (Hs4 & Hn4 & Ht4).
  assert (Hcount : forall n w4, hlen ikey w3' = (inr n, w4) ->
                     n = Redis.hlen ikey (store w3)).
  { unfold hlen, bind. pose proof (roundtrip_same w3') as (Hs & _).
    destruct (roundtrip w3') as [[e|[]] w4]; [done|]. intros n w4' [= <- <-].
    simpl in Hs. by rewrite Hs. }
  destruct (hlen ikey w3') as [[e|count] w4]; simpl in Hs4, Hn4, Ht4.
  { injection Hrun as <- <-. exists (ev1 :: ev2 :: evs3 ++ [ev3]), pairs.
    repeat split; try done; try lia.
    - rewrite Ht4, Ht3, Ht2, Ht1, Ht0. by rewrite <- !(assoc_L (++)).
    - simpl. rewrite claims_app, Hc3. done.
    - intros key _. rewrite <- Hhash3. unfold Redis.hash. by rewrite Hs4.
    - right. split; [done|]. simpl. rewrite spawns_app, Hp3. done.
    - intros key Hkey. rewrite Hs4. simpl. rewrite Hstr3. by apply Hf1.
    - destruct Hleft as [stamp Hleft]. exists stamp.
      rewrite Hs4. simpl. rewrite Hstr3, Hn4. simpl. rewrite Hn3, Hn2. done. }
  rewrite (Hcount _ _ eq_refl) in Hrun. clear Hcount count.
  unfold bind at 1 in Hrun. simpl in Hrun.
  pose proof (delete_key_effect (lock_key block ikey) w4) as [Hn5 Hdel].
  destruct (delete_key (lock_key block ikey) w4) as [[e|[]] w5]; simpl in Hdel, Hn5.
  { destruct Hdel as [Hs5 Ht5]. injection Hrun as <- <-.
    exists (ev1 :: ev2 :: evs3 ++ [ev3]), pairs.
    repeat split; try done; try lia.
    - rewrite Ht5, Ht4, Ht3, Ht2, Ht1, Ht0. by rewrite <- !(assoc_L (++)).
    - simpl. rewrite claims_app, Hc3. done.
    - intros key _. rewrite <- Hhash3. unfold Redis.hash. by rewrite Hs5, Hs4.
    - right. split; [done|]. simpl. rewrite spawns_app, Hp3. done.
    - intros key Hkey. rewrite Hs5, Hs4. simpl. rewrite Hstr3. by apply Hf1.
    - destruct Hleft as [stamp Hleft]. exists stamp.
      rewrite Hs5, Hs4. simpl. rewrite Hstr3, Hn5, Hn4. simpl.
      rewrite Hn3, Hn2. done. }
  destruct Hdel as [Hs5 Ht5]. injection Hrun as <- <-.
  exists (ev1 :: ev2 :: evs3 ++ [ev3; EvDelete (lock_key block ikey)]), pairs.
  assert (Hlenpos : 0 < Z.of_nat (length tg))
    by (destruct tg; [done|simpl; lia]).
  repeat split; try done; try lia.
  - rewrite Ht5, Ht4, Ht3, Ht2, Ht1, Ht0. by rewrite <- !(assoc_L (++)).
  - simpl. rewrite claims_app, Hc3. done.
  - intros key Hkey. rewrite <- Hhash3. rewrite Hs5, hash_del by done.
    unfold Redis.hash. by rewrite Hs4.
  - right. split; [done|]. simpl. rewrite spawns_app, Hp3. done.
  - intros key Hkey. rewrite Hs5, strings_del.
    rewrite decide_False by by apply Hkey. rewrite Hs4. simpl.
    rewrite Hstr3. by apply Hf1.
  - right. repeat split; try done.
    + unfold Redis.hlen. rewrite Hs5, hash_del by apply instance_key_not_lock_key.
      unfold Redis.hash. by rewrite Hs4.
    + rewrite Hs5, strings_del. by rewrite decide_True.
Qed.

(** X3.  A call claims at most one lock, and exactly one when it returns an
    amount of work other than [0] and [-1].  It releases the lock it has
    claimed only when it returns a positive amount of work: when it returns
    [-2] (nothing to generate from the claimed block on) or raises after the
    claim, the lock stays in the store, to expire one [LOCK_TIME] after the
    claim; the clock does not move between the claim and the end of the
    call. *)
Theorem lock_released_only_after_work
    (instance_generator : list string -> list string * Z)
    (random_seeds : list Z) (k_range m_range p s k a c r target_instances : Z)
    (w : world) :
  let out := generate_instances instance_generator random_seeds k_range m_range
               p s k a c r target_instances w in
  exists evs : list event,
    trace out.2 = trace w ++ evs
    /\ (length (claims evs) <= 1)%nat
    /\ match out.1 with
       | inr (_, work) => work = 0 \/ work = -1 \/ length (claims evs) = 1%nat
       | inl _ => True
       end
    /\ Forall (fun key =>
                 match out.1 with
                 | inr (_, work) =>
                     if bool_decide (0 < work)
                     then Redis.strings (store out.2) !! key = None
                     else lock_left (now out.2) key (store out.2)
                 | inl _ => lock_left (now out.2) key (store out.2)
                 end) (claims evs).
Proof.
  intros out.
  destruct (generate_instances_effect instance_generator random_seeds k_range
              m_range p s k a c r target_instances w out.2 out.1
              (surjective_pairing _))
    as [(evs & Ht & Hc & _ & _ & _ & Hres)
       |(block & evs1 & evs2 & pairs & _ & _ & Ht & Hc1 & _ & Hc2 & _ & _ & _ & _
         & Hres)].
  - exists evs. rewrite Hc. split; [done|]. split; [simpl; lia|].
    split; [|constructor]. destruct out.1 as [e|[n work]]; [done|].
    destruct Hres as [_ [[-> _]|[-> _]]]; auto.
  - exists (evs1 ++ evs2). rewrite claims_app, Hc1, Hc2. split; [done|].
    split; [simpl; lia|].
    split; [destruct out.1 as [e|[n work]]; auto|].
    constructor; [|constructor].
    destruct out.1 as [e|[n work]]; [done|].
    destruct Hres as [(-> & _ & _ & Hleft)|(Hpos & _ & _ & _ & Hnone)].
    + by rewrite bool_decide_eq_false_2 by lia.
    + by rewrite bool_decide_eq_true_2 by lia.
Qed.

(** ** The keys of the store *)

Lemma pretty_N_go_no_colon (x : N) : forall s : string,
  occurs ":" s = false -> occurs ":" (pretty_N_go x s) = false.
Proof.
  induction (N.lt_wf_0 x) as [x _ IH]; intros s Hs.
  assert (x = 0 \/ 0 < x)%N as [->|Hpos] by lia.
  - by rewrite pretty_N_go_0.
  - rewrite pretty_N_go_step by done. apply IH; [by apply N.div_lt|].
    simpl. rewrite Hs. unfold pretty_N_char. by repeat case_match.
Qed.

Lemma str_no_colon (n : Z) : occurs ":" (Py.str n) = false.
Proof.
  assert (HN : forall x : N, occurs ":" (pretty x) = false).
  { intros x. unfold pretty, pretty_N. case_decide; [done|].
    by apply pretty_N_go_no_colon. }
  unfold Py.str, pretty, pretty_Z. destruct n as [|x|x]; [done|apply HN|].
  simpl. apply HN.
Qed.

Lemma colon_split (a1 : string) : forall a2 r1 r2 : string,
  occurs ":" a1 = false -> occurs ":" a2 = false ->
  a1 +:+ ":" +:+ r1 = a2 +:+ ":" +:+ r2 -> a1 = a2 /\ r1 = r2.
Proof.
  assert (Hnil : forall x : string, "" +:+ x = x) by done.
  assert (Hcons : forall (ch : ascii) (x y : string),
            String ch x +:+ y = String ch (x +:+ y)) by done.
  induction a1 as [|c1 a1 IH]; intros [|c2 a2] r1 r2 H1 H2 Heq; simpl in H1, H2;
    rewrite ?Hcons, ?Hnil in Heq.
  - by injection Heq as ->.
  - injection Heq as <- _. by rewrite bool_decide_eq_true_2 in H2.
  - injection Heq as -> _. by rewrite bool_decide_eq_true_2 in H1.
  - injection Heq as -> Heq.
    apply orb_false_iff in H1 as [_ H1]. apply orb_false_iff in H2 as [_ H2].
    destruct (IH _ _ _ H1 H2 Heq) as [-> ->]. done.
Qed.

Lemma config_suffix_inj (p s k a c r p' s' k' a' c' r' : Z) :
  config_suffix p s k a c r = config_suffix p' s' k' a' c' r' ->
  (p, s, k, a, c, r) = (p', s', k', a', c', r').
Proof.
  unfold config_suffix. intros H.
  apply colon_split in H as [Hp H]; try apply str_no_colon.
  apply colon_split in H as [Hs H]; try apply str_no_colon.
  apply colon_split in H as [Hk H]; try apply str_no_colon.
  apply colon_split in H as [Ha H]; try apply str_no_colon.
  apply colon_split in H as [Hc Hr]; try apply str_no_colon.
  unfold Py.str in *.
  apply (inj pretty) in Hp, Hs, Hk, Ha, Hc, Hr. by subst.
Qed.

Lemma instance_key_of_inj (p s k a c r p' s' k' a' c' r' : Z) :
  instance_key_of p s k a c r = instance_key_of p' s' k' a' c' r' ->
  (p, s, k, a, c, r) = (p', s', k', a', c', r').
Proof.
  unfold instance_key_of. intros H%(inj (String.app _)).
  by apply config_suffix_inj.
Qed.

Lemma lock_key_split (b b' : Z) (key key' : string) :
  lock_key b key = lock_key b' key' -> b = b' /\ key = key'.
Proof.
  unfold lock_key. intros H%(inj (String.app _)).
  apply colon_split in H as [Hb ->]; try apply str_no_colon.
  by apply (inj pretty) in Hb.
Qed.

(** X4.  The keys are faithful to what they name: two configurations with
    the same instance key, or the same evaluation key, are the same
    configuration, and two locks with the same key are the locks of the same
    block of the same configuration.  A number prints without a colon, so
    the fields of a key can be read back. *)
Theorem keys_name_one_configuration (p s k a c r p' s' k' a' c' r' b b' : Z) :
  (instance_key_of p s k a c r = instance_key_of p' s' k' a' c' r'
   <-> (p, s, k, a, c, r) = (p', s', k', a', c', r'))
  /\ (evaluation_key_of p s k a c r = evaluation_key_of p' s' k' a' c' r'
      <-> (p, s, k, a, c, r) = (p', s', k', a', c', r'))
  /\ (lock_key b (instance_key_of p s k a c r)
      = lock_key b' (instance_key_of p' s' k' a' c' r')
      <-> (b, p, s, k, a, c, r) = (b', p', s', k', a', c', r')).
Proof.
  split; [|split].
  - split; [apply instance_key_of_inj|by intros [= -> -> -> -> -> ->]].
  - split; [|by intros [= -> -> -> -> -> ->]].
    intros H. by apply instance_key_of_inj, keys_of_same_configuration.
  - split; [|by intros [= -> -> -> -> -> -> ->]].
    intros [-> H]%lock_key_split. apply instance_key_of_inj in H.
    by injection H as -> -> -> -> -> ->.
Qed.

(** X5.  A call for one configuration leaves every other configuration
    alone, whatever the failures and however it ends: the instance and
    evaluation records of another configuration and the locks of its blocks
    are after the call what they were before. *)
Theorem call_leaves_other_configurations
    (instance_generator : list string -> list string * Z)
    (random_seeds : list Z) (k_range m_range p s k a c r target_instances : Z)
    (w : world) (p' s' k' a' c' r' : Z) :
  (p', s', k', a', c', r') <> (p, s, k, a, c, r) ->
  let out := generate_instances instance_generator random_seeds k_range m_range
               p s k a c r target_instances w in
  Redis.hash (instance_key_of p' s' k' a' c' r') (store out.2)
  = Redis.hash (instance_key_of p' s' k' a' c' r') (store w)
  /\ Redis.hash (evaluation_key_of p' s' k' a' c' r') (store out.2)
     = Redis.hash (evaluation_key_of p' s' k' a' c' r') (store w)
  /\ forall b : Z,
       Redis.strings (store out.2) !! lock_key b (instance_key_of p' s' k' a' c' r')
       = Redis.strings (store w) !! lock_key b (instance_key_of p' s' k' a' c' r').
Proof.
  intros Hne out.
  assert (Hik : instance_key_of p' s' k' a' c' r' <> instance_key_of p s k a c r)
    by (intros H; by apply Hne, instance_key_of_inj).
  assert (Hek : evaluation_key_of p' s' k' a' c' r'
                <> evaluation_key_of p s k a c r)
    by (intros H; by apply Hik, keys_of_same_configuration).
  assert (Hlk : forall b b' : Z,
            lock_key b (instance_key_of p' s' k' a' c' r')
            <> lock_key b' (instance_key_of p s k a c r))
    by (intros b b' [_ H]%lock_key_split; by apply Hik).
  destruct (generate_instances_effect instance_generator random_seeds k_range
              m_range p s k a c r target_instances w out.2 out.1
              (surjective_pairing _))
    as [(evs & _ & _ & _ & Hh & Hstr & _)
       |(block & evs1 & evs2 & pairs & _ & _ & _ & _ & _ & _ & _ & Hh & _ & Hstr
         & _)].
  - unfold Redis.hash. rewrite Hh. repeat split; try done.
    intros b. apply Hstr. intros b' _. apply Hlk.
  - rewrite !Hh by (apply instance_key_not_lock_key
                    || apply evaluation_key_not_lock_key).
    pose proof (foldl_write_pair (instance_key_of p s k a c r)
                  (evaluation_key_of p s k a c r) pairs (store w)
                  (instance_key_not_evaluation_key _ _ _ _ _ _ _ _ _ _ _ _))
      as (_ & _ & Hframe).
    split; [|split].
    + apply Hframe; [done|]. apply instance_key_not_evaluation_key.
    + apply Hframe; [|done]. apply evaluation_key_not_instance_key.
    + intros b. apply Hstr. intros b' _. apply Hlk.
Qed.

Lemma call_leaves_other_configurations_witness :
  let out := generate_instances echo_generator [7; 8; 9] 1 1 1 2 3 4 5 6 2
               fresh_world in
  Redis.hash (instance_key_of 6 5 4 3 2 1) (store out.2)
  = Redis.hash (instance_key_of 6 5 4 3 2 1) (store fresh_world)
  /\ Redis.hash (evaluation_key_of 6 5 4 3 2 1) (store out.2)
     = Redis.hash (evaluation_key_of 6 5 4 3 2 1) (store fresh_world)
  /\ forall b : Z,
       Redis.strings (store out.2) !! lock_key b (instance_key_of 6 5 4 3 2 1)
       = Redis.strings (store fresh_world)
           !! lock_key b (instance_key_of 6 5 4 3 2 1).
Proof.
  apply (call_leaves_other_configurations echo_generator [7; 8; 9] 1 1
           1 2 3 4 5 6 2 fresh_world 6 5 4 3 2 1).
  discriminate.
Defined.

(** ** Counting the records *)

Lemma slice_length {A} (xs : list A) (a b : Z) :
  0 <= a -> 0 <= b -> Z.of_nat (length (Py.slice xs a b)) <= Z.max 0 (b - a).
Proof.
  intros Ha Hb. unfold Py.slice, Py.clamp.
  rewrite !bool_decide_eq_false_2 by lia.
  rewrite length_take. lia.
Qed.

Lemma slice_NoDup {A} (xs : list A) (a b : Z) : NoDup xs -> NoDup (Py.slice xs a b).
Proof.
  intros H. unfold Py.slice. eapply sublist_NoDup; [exact H|].
  etrans; [apply sublist_take|apply sublist_drop].
Qed.

Lemma absent_seeds_length (instance_key : string) (d : Redis.db) (seeds : list Z) :
  (length (absent_seeds instance_key d seeds) <= length seeds)%nat.
Proof. apply length_filter. Qed.

Lemma size_list_to_set_length (l : list string) :
  (size (list_to_set l : gset string) <= length l)%nat.
Proof.
  induction l as [|x l IH]; [by rewrite list_to_set_nil, size_empty|].
  rewrite list_to_set_cons, size_union_alt, size_singleton. simpl.
  assert (Hsub : list_to_set l ∖ {[x]} ⊆ (list_to_set l : gset string))
    by by apply subseteq_difference_l.
  apply subseteq_size in Hsub. lia.
Qed.

Lemma hlen_foldl_write_pair_le (instance_key evaluation_key : string)
    (pairs : list (Z * (string * string))) (d : Redis.db) :
  instance_key <> evaluation_key ->
  Redis.hlen instance_key (foldl (write_pair instance_key evaluation_key) d pairs)
  <= Redis.hlen instance_key d + Z.of_nat (length pairs).
Proof.
  intros Hne. unfold Redis.hlen.
  destruct (foldl_write_pair instance_key evaluation_key pairs d Hne)
    as (_ & Hdom & _).
  rewrite <- !size_dom, Hdom.
  set (fields := (fun pr : Z * (string * string) => Py.str pr.1) <$> pairs).
  rewrite size_union_alt.
  assert (Hsub : list_to_set fields ∖ dom (Redis.hash instance_key d)
                 ⊆ (list_to_set fields : gset string))
    by by apply subseteq_difference_l.
  apply subseteq_size in Hsub.
  pose proof (size_list_to_set_length fields) as Hle.
  unfold fields in Hle at 2. rewrite length_fmap in Hle. lia.
Qed.

Lemma hlen_foldl_write_pair (instance_key evaluation_key : string)
    (pairs : list (Z * (string * string))) (d : Redis.db) :
  instance_key <> evaluation_key ->
  NoDup pairs.*1 ->
  Forall (fun s => Redis.hexists instance_key (Py.str s) d = false) pairs.*1 ->
  Redis.hlen instance_key (foldl (write_pair instance_key evaluation_key) d pairs)
  = Redis.hlen instance_key d + Z.of_nat (length pairs).
Proof.
  intros Hne Hnd Habs. unfold Redis.hlen.
  destruct (foldl_write_pair instance_key evaluation_key pairs d Hne)
    as (_ & Hdom & _).
  rewrite <- !size_dom, Hdom.
  replace ((fun pr : Z * (string * string) => Py.str pr.1) <$> pairs)
    with (Py.str <$> pairs.*1) by (by rewrite <- list_fmap_compose).
  rewrite size_union.
  - rewrite size_list_to_set by (apply (NoDup_fmap_2 _); exact Hnd).
    rewrite !length_fmap. lia.
  - intros x Hx Hin. apply elem_of_list_to_set in Hin.
    apply list_elem_of_fmap in Hin as (sd & -> & Hsd).
    pose proof (proj1 (Forall_forall _ _) Habs _ Hsd) as Hfalse. simpl in Hfalse.
    unfold Redis.hexists in Hfalse. apply bool_decide_eq_false in Hfalse.
    apply Hfalse. by apply elem_of_dom.
Qed.

Lemma range_nonneg (target b : Z) : b ∈ Py.range 0 target BLOCK_SIZE -> 0 <= b < target.
Proof.
  intros [i Hi]%list_elem_of_lookup. apply range_lookup in Hi as [-> Hlt].
  unfold BLOCK_SIZE in *. lia.
Qed.

Lemma hlen_nonneg (key : string) (d : Redis.db) : 0 <= Redis.hlen key d.
Proof. unfold Redis.hlen. lia. Qed.

Lemma absent_seeds_bound (instance_key : string) (d : Redis.db) (seeds : list Z)
    (block target : Z) :
  0 <= block -> Redis.hlen instance_key d < target ->
  Redis.hlen instance_key d
  + Z.of_nat (length (absent_seeds instance_key d
                        (Py.slice seeds (Z.max block (Redis.hlen instance_key d))
                           target)))
  <= target.
Proof.
  intros Hb Hlt. pose proof (hlen_nonneg instance_key d) as H0.
  pose proof (absent_seeds_length instance_key d
                (Py.slice seeds (Z.max block (Redis.hlen instance_key d)) target)).
  pose proof (slice_length seeds (Z.max block (Redis.hlen instance_key d)) target
                ltac:(lia) ltac:(lia)).
  lia.
Qed.

(** X6.  What the pair returned by a call means when the seeds are distinct,
    whatever the failures.  With a positive amount of work the first number
    is the count of instance records after the call, which is the count
    before plus the work, and is at most the target.  Otherwise the work is
    [0], [-1] or [-2], the first number is the count before the call, and the
    count has not changed. *)
Theorem returned_pair_counts
    (instance_generator : list string -> list string * Z)
    (random_seeds : list Z) (k_range m_range p s k a c r target_instances : Z)
    (w : world) :
  NoDup random_seeds ->
  let out := generate_instances instance_generator random_seeds k_range m_range
               p s k a c r target_instances w in
  let before := Redis.hlen (instance_key_of p s k a c r) (store w) in
  let after := Redis.hlen (instance_key_of p s k a c r) (store out.2) in
  match out.1 with
  | inr (n, work) =>
      if bool_decide (0 < work)
      then n = before + work /\ after = n /\ n <= target_instances
      else (work = 0 \/ work = -1 \/ work = -2) /\ n = before /\ after = before
  | inl _ => True
  end.
Proof.
  intros Hnd out before after.
  assert (Hie : instance_key_of p s k a c r <> evaluation_key_of p s k a c r)
    by apply instance_key_not_evaluation_key.
  destruct (generate_instances_effect instance_generator random_seeds k_range
              m_range p s k a c r target_instances w out.2 out.1
              (surjective_pairing _))
    as [(evs & _ & _ & _ & Hh & _ & Hres)
       |(block & evs1 & evs2 & pairs & Hlt & Hin & _ & _ & _ & _ & Hpre & Hh & _
         & _ & Hres)].
  - destruct out.1 as [e|[n work]]; [done|]. destruct Hres as [-> Hwork].
    rewrite bool_decide_eq_false_2 by lia.
    split; [lia|]. split; [done|]. by apply hlen_ext.
  - destruct out.1 as [e|[n work]]; [done|].
    specialize (Hh (instance_key_of p s k a c r)
                  (instance_key_not_lock_key _ _ _ _ _ _ _ _)).
    destruct Hres as [(-> & -> & Hnil & _)|(Hpos & -> & Hfull & -> & _)].
    + rewrite bool_decide_eq_false_2 by lia.
      split; [auto|]. split; [done|].
      rewrite Hnil in Hpre. apply prefix_nil_inv in Hpre.
      apply fmap_nil_inv in Hpre. subst pairs. unfold after, Redis.hlen.
      by rewrite Hh.
    + rewrite bool_decide_eq_true_2 by lia.
      assert (Hafter : after = before + Z.of_nat (length pairs)).
      { unfold after, Redis.hlen at 1. rewrite Hh.
        apply hlen_foldl_write_pair; [done|..]; rewrite Hfull.
        - apply NoDup_filter. by apply slice_NoDup.
        - apply Forall_forall. intros sd Hsd.
          by apply list_elem_of_filter in Hsd as [Hsd _]. }
      assert (Hlen : length pairs
                     = length (absent_seeds (instance_key_of p s k a c r)
                                 (store w)
                                 (Py.slice random_seeds
                                    (Z.max block before) target_instances)))
        by (unfold before; rewrite <- Hfull; by rewrite length_fmap).
      fold after. rewrite Hafter, Hlen. split; [done|]. split; [done|].
      apply absent_seeds_bound; [|done]. by apply range_nonneg in Hin as [? _].
Qed.

Lemma returned_pair_counts_witness :
  let out := generate_instances echo_generator [7; 8; 9] 1 1 1 2 3 4 5 6 2
               fresh_world in
  let before := Redis.hlen (instance_key_of 1 2 3 4 5 6) (store fresh_world) in
  let after := Redis.hlen (instance_key_of 1 2 3 4 5 6) (store out.2) in
  match out.1 with
  | inr (n, work) =>
      if bool_decide (0 < work)
      then n = before + work /\ after = n /\ n <= 2
      else (work = 0 \/ work = -1 \/ work = -2) /\ n = before /\ after = before
  | inl _ => True
  end.
Proof.
  apply (returned_pair_counts echo_generator [7; 8; 9] 1 1 1 2 3 4 5 6 2
           fresh_world).
  apply (bool_decide_unpack _). vm_compute. exact I.
Defined.

Lemma call_ceiling (instance_generator : list string -> list string * Z)
    (random_seeds : list Z) (k_range m_range p s k a c r target_instances : Z)
    (w : world) (p' s' k' a' c' r' : Z) :
  Redis.hlen (instance_key_of p' s' k' a' c' r')
    (store (generate_instances instance_generator random_seeds k_range m_range
              p s k a c r target_instances w).2)
  <= Z.max (Redis.hlen (instance_key_of p' s' k' a' c' r') (store w))
       target_instances.
Proof.
  set (out := generate_instances _ _ _ _ _ _ _ _ _ _ _ w).
  assert (Hie : instance_key_of p s k a c r <> evaluation_key_of p s k a c r)
    by apply instance_key_not_evaluation_key.
  destruct (generate_instances_effect instance_generator random_seeds k_range
              m_range p s k a c r target_instances w out.2 out.1
              (surjective_pairing _))
    as [(evs & _ & _ & _ & Hh & _)
       |(block & evs1 & evs2 & pairs & Hlt & Hin & _ & _ & _ & _ & Hpre & Hh & _)].
  - rewrite (hlen_ext _ _ _ Hh). lia.
  - unfold Redis.hlen at 1. rewrite Hh by apply instance_key_not_lock_key.
    destruct (decide (instance_key_of p' s' k' a' c' r'
                      = instance_key_of p s k a c r)) as [->|Hne].
    + pose proof (hlen_foldl_write_pair_le _ _ pairs (store w) Hie) as Hle.
      unfold Redis.hlen at 1 in Hle.
      apply prefix_length in Hpre. rewrite length_fmap in Hpre.
      apply range_nonneg in Hin as [Hb _].
      pose proof (absent_seeds_bound _ (store w) random_seeds block
                    target_instances Hb Hlt).
      lia.
    + destruct (foldl_write_pair _ _ pairs (store w) Hie) as (_ & _ & Hframe).
      rewrite Hframe; [|done|apply instance_key_not_evaluation_key].
      unfold Redis.hlen. lia.
Qed.

(** X7.  The target is a ceiling for a whole run of the script, whatever the
    failures and however the run ends: for every configuration, the count of
    instance records after the run is at most the larger of the count before
    and the target read from the second argument.  When that argument is not
    a number the run ends before it touches the store. *)
Theorem target_is_a_ceiling (instance_generator : list string -> list string * Z)
    (seeds_text : string) (csv_rows : list (list string))
    (argv2 argv3 argv4 : string) (fuel : nat) (w : world) (p s k a c r : Z) :
  Redis.hlen (instance_key_of p s k a c r)
    (store (main instance_generator seeds_text csv_rows argv2 argv3 argv4 fuel
              w).2)
  <= Z.max (Redis.hlen (instance_key_of p s k a c r) (store w))
       (default 0 (Py.int argv2)).
Proof.
  set (R := fun (t : Z) (d d' : Redis.db) =>
              forall p s k a c r : Z,
                Redis.hlen (instance_key_of p s k a c r) d'
                <= Z.max (Redis.hlen (instance_key_of p s k a c r) d) t).
  assert (Hrefl : forall t, Reflexive (R t)) by (intros t d ??????; lia).
  assert (Htrans : forall t, Transitive (R t)).
  { intros t d1 d2 d3 H12 H23 p0 s0 k0 a0 c0 r0.
    specialize (H12 p0 s0 k0 a0 c0 r0). specialize (H23 p0 s0 k0 a0 c0 r0). lia. }
  apply (@relates_main_target R Hrefl Htrans instance_generator).
  intros seeds km mr p0 s0 k0 a0 c0 r0 target w0 p1 s1 k1 a1 c1 r1.
  apply call_ceiling.
Qed.

(** X8.  Whatever the failures, a call starts the generator at most once and
    only while it holds a lock: the start comes after the one claim of the
    call.  The seeds it asks for are never none, and they are the seeds
    without an instance record, at the beginning of the call, among the
    positions from [max block existing] up to the target. *)
Theorem generator_runs_under_lock
    (instance_generator : list string -> list string * Z)
    (random_seeds : list Z) (k_range m_range p s k a c r target_instances : Z)
    (w : world) :
  let out := generate_instances instance_generator random_seeds k_range m_range
               p s k a c r target_instances w in
  let ikey := instance_key_of p s k a c r in
  let existing := Redis.hlen ikey (store w) in
  exists evs : list event,
    trace out.2 = trace w ++ evs
    /\ match spawns evs with
       | [] => True
       | args :: more =>
           more = []
           /\ exists (block : Z) (evs1 evs2 : list event),
                evs = evs1 ++ evs2 /\ spawns evs1 = []
                /\ claims evs1 = [lock_key block ikey]
                /\ block ∈ Py.range 0 target_instances BLOCK_SIZE
                /\ let tg := absent_seeds ikey (store w)
                               (Py.slice random_seeds (Z.max block existing)
                                  target_instances) in
                   tg <> []
                   /\ args = generator_args k_range m_range p s k a c r tg
       end.
Proof.
  intros out ikey existing.
  destruct (generate_instances_effect instance_generator random_seeds k_range
              m_range p s k a c r target_instances w out.2 out.1
              (surjective_pairing _))
    as [(evs & Ht & _ & Hsp & _)
       |(block & evs1 & evs2 & pairs & _ & Hin & Ht & Hc1 & Hsp1 & _ & _ & _
         & Hsp2 & _)].
  - exists evs. by rewrite Hsp.
  - exists (evs1 ++ evs2). split; [done|]. rewrite spawns_app, Hsp1. simpl.
    destruct Hsp2 as [[-> _]|[Hne ->]]; [done|].
    split; [done|]. by exists block, evs1, evs2.
Qed.

(** ** The exceptions of a call *)

Section Raises.

Context (P : exn -> Prop).

Lemma raises_only_ret {A} (Q : A -> Prop) (a : A) : Q a -> raises_only P Q (ret a).
Proof. intros Ha w. by exists []. Qed.

Lemma raises_only_raise {A} (Q : A -> Prop) (e : exn) :
  P e -> raises_only P Q (raise e).
Proof. intros He w. exists []. split; [done|]. by left. Qed.

Lemma raises_only_bind {A B} (Q : A -> Prop) (Q' : B -> Prop) (m : M A)
    (k : A -> M B) :
  raises_only P Q m -> (forall a, Q a -> raises_only P Q' (k a)) ->
  raises_only P Q' (bind m k).
Proof.
  intros Hm Hk w. unfold bind. destruct (Hm w) as (used1 & Hf1 & Hr1).
  destruct (m w) as [[e|a] w1]; simpl in *.
  - exists used1. by split.
  - destruct (Hk a Hr1 w1) as (used2 & Hf2 & Hr2).
    exists (used1 ++ used2). split; [by rewrite Hf1, Hf2, (assoc_L (++))|].
    destruct (k a w1).1 as [e|b]; [|done].
    destruct Hr2 as [?|Hin]; [by left|right]. apply elem_of_app. by right.
Qed.

Lemma raises_only_weaken {A} (Q Q' : A -> Prop) (m : M A) :
  (forall a, Q a -> Q' a) -> raises_only P Q m -> raises_only P Q' m.
Proof.
  intros HQ Hm w. destruct (Hm w) as (used & Hf & Hr). exists used.
  split; [done|]. destruct (m w).1; [done|by apply HQ].
Qed.

Lemma raises_only_emit (ev : event) : raises_only P (fun _ => True) (emit ev).
Proof. intros w. by exists []. Qed.

Lemma raises_only_sleep (ms : Z) : raises_only P (fun _ => True) (sleep ms).
Proof. intros w. by exists []. Qed.

Lemma raises_only_roundtrip : raises_only P (fun _ => True) roundtrip.
Proof.
  intros w. unfold roundtrip. destruct (faults w) as [|[e|] fs] eqn:Hf; simpl.
  - exists []. by rewrite Hf.
  - exists [Some e]. split; [done|]. right. by apply list_elem_of_here.
  - by exists [None].
Qed.

Lemma raises_only_hlen (key : string) :
  raises_only P (fun n => 0 <= n) (hlen key).
Proof.
  unfold hlen. eapply raises_only_bind; [apply raises_only_roundtrip|].
  intros _ _ w. exists []. split; [done|]. simpl. unfold Redis.hlen. lia.
Qed.

Lemma raises_only_hexists (key field : string) :
  raises_only P (fun _ => True) (hexists key field).
Proof.
  unfold hexists. eapply raises_only_bind; [apply raises_only_roundtrip|].
  intros _ _ w. by exists [].
Qed.

Lemma raises_only_lock_pipeline (lock : string) :
  raises_only P (fun _ => True) (lock_pipeline lock).
Proof.
  unfold lock_pipeline.
  eapply (raises_only_bind (fun _ => True)); [intros w; by exists []|].
  intros stamp _. eapply raises_only_bind; [apply raises_only_roundtrip|].
  intros _ _ w. exists [].
  by destruct (Redis.setnx_expire _ _ _ _ _) as [d [b1 b2]].
Qed.

Lemma raises_only_write_pipeline (ikey ekey field v1 v2 : string) :
  raises_only P (fun _ => True) (write_pipeline ikey ekey field v1 v2).
Proof.
  unfold write_pipeline. eapply raises_only_bind; [apply raises_only_roundtrip|].
  intros _ _ w. by exists [].
Qed.

Lemma raises_only_delete_key (key : string) :
  raises_only P (fun _ => True) (delete_key key).
Proof.
  unfold delete_key. eapply raises_only_bind; [apply raises_only_roundtrip|].
  intros _ _ w. by exists [].
Qed.

Lemma raises_only_scan_blocks (instance_key : string) (blocks : list Z) :
  forall st : scan_state,
  raises_only P (fun st' => st'.2 = None -> blocks = [] /\ st.2 = None)
    (scan_blocks instance_key blocks st).
Proof.
  induction blocks as [|b rest IH]; intros st; simpl.
  - by apply raises_only_ret.
  - eapply raises_only_bind; [apply raises_only_lock_pipeline|].
    intros [|] _; [by apply raises_only_ret|].
    eapply raises_only_bind; [apply raises_only_sleep|]. intros _ _.
    eapply raises_only_weaken; [|apply IH]. simpl. intros st' H Hnone.
    by destruct (H Hnone).
Qed.

Lemma raises_only_missing_seeds (instance_key : string) (seeds : list Z) :
  raises_only P (fun _ => True) (missing_seeds instance_key seeds).
Proof.
  induction seeds as [|sd rest IH]; simpl; [by apply raises_only_ret|].
  eapply raises_only_bind; [apply raises_only_hexists|]. intros present _.
  eapply raises_only_bind; [apply IH|]. intros others _.
  by apply raises_only_ret.
Qed.

End Raises.

Section RaisesCall.

Variable instance_generator : list string -> list string * Z.
Variable args : list string.

Let lines := (instance_generator args).1.

Lemma raises_only_readline (p : proc) :
  stdout p ⊆ lines ->
  raises_only (bad_line instance_generator)
    (fun r => (r.1 = "" \/ r.1 ∈ lines) /\ stdout r.2 ⊆ lines) (readline p).
Proof.
  intros Hsub. unfold readline. destruct (stdout p) as [|l ls] eqn:Hout.
  - eapply raises_only_bind; [apply raises_only_emit|]. intros _ _.
    apply raises_only_ret. simpl. split; [by left|]. by rewrite Hout.
  - assert (Hl : l ∈ lines) by (apply Hsub, list_elem_of_here).
    case_bool_decide as Hlong.
    + apply raises_only_raise. exists args, l. eexists. split; [done|]. by left.
    + eapply raises_only_bind; [apply raises_only_emit|]. intros _ _.
      apply raises_only_ret. simpl. split; [by right|].
      intros x Hx. by apply Hsub, list_elem_of_further.
Qed.

Lemma raises_only_decode_ascii (raw : string) :
  raw = "" \/ raw ∈ lines ->
  raises_only (bad_line instance_generator) (fun _ => True) (decode_ascii raw).
Proof.
  intros Hraw. unfold decode_ascii. destruct (is_ascii raw) eqn:Hascii.
  - by apply raises_only_ret.
  - apply raises_only_raise. destruct Hraw as [->|Hraw]; [done|].
    exists args, raw. eexists. split; [done|]. by right.
Qed.

Lemma raises_only_read_pairs (instance_key evaluation_key : string)
    (tg : list Z) : forall p : proc,
  stdout p ⊆ lines ->
  raises_only (bad_line instance_generator) (fun _ => True)
    (read_pairs instance_key evaluation_key tg p).
Proof.
  induction tg as [|sd rest IH]; intros p Hsub; simpl.
  - by apply raises_only_ret.
  - eapply raises_only_bind; [by apply raises_only_readline|].
    intros [l1 p1] [Hl1 Hp1]. simpl in *.
    eapply raises_only_bind; [by apply raises_only_decode_ascii|]. intros o1 _.
    eapply raises_only_bind; [by apply raises_only_readline|].
    intros [l2 p2] [Hl2 Hp2]. simpl in *.
    eapply raises_only_bind; [by apply raises_only_decode_ascii|]. intros o2 _.
    eapply raises_only_bind; [apply raises_only_write_pipeline|]. intros _ _.
    by apply IH.
Qed.

End RaisesCall.

Lemma raises_only_generate_instances
    (instance_generator : list string -> list string * Z)
    (random_seeds : list Z) (k_range m_range p s k a c r target_instances : Z) :
  raises_only (bad_line instance_generator) (fun _ => True)
    (generate_instances instance_generator random_seeds k_range m_range
       p s k a c r target_instances).
Proof.
  unfold generate_instances.
  eapply raises_only_bind; [apply raises_only_hlen|]. intros existing Hex.
  case_bool_decide as Hge; [by apply raises_only_ret|].
  eapply raises_only_bind; [apply raises_only_scan_blocks|].
  intros [[block lock] hl] Hhl. simpl in Hhl.
  destruct hl as [[|]|]; cycle 1.
  { by apply raises_only_ret. }
  { exfalso. destruct (Hhl eq_refl) as [Hnil _].
    assert (Hl : Py.range 0 target_instances BLOCK_SIZE !! 0%nat = Some 0).
    { apply range_lookup. unfold BLOCK_SIZE. simpl in Hex. lia. }
    by rewrite Hnil in Hl. }
  eapply raises_only_bind; [apply raises_only_emit|]. intros _ _.
  eapply raises_only_bind; [apply raises_only_missing_seeds|]. intros tg _.
  case_bool_decide; [by apply raises_only_ret|].
  eapply (raises_only_bind _ (fun pr : proc =>
            exists args, stdout pr ⊆ (instance_generator args).1)).
  { unfold create_subprocess_exec.
    eapply raises_only_bind; [apply raises_only_roundtrip|]. intros _ _.
    eapply raises_only_bind; [apply raises_only_emit|]. intros _ _.
    destruct (instance_generator _) as [out status] eqn:Hgen.
    apply raises_only_ret. eexists. rewrite Hgen. simpl. done. }
  intros pr [args Hsub].
  eapply raises_only_bind; [by apply (raises_only_read_pairs _ args)|].
  intros p' _.
  eapply raises_only_bind.
  { unfold wait. eapply raises_only_bind; [apply raises_only_emit|].
    intros _ _. by apply (raises_only_ret _ (fun _ => True)). }
  intros _ _.
  eapply raises_only_bind; [apply raises_only_hlen|]. intros count _.
  eapply raises_only_bind; [apply raises_only_delete_key|]. intros _ _.
  by apply raises_only_ret.
Qed.

(** X9.  A call raises only a failure of the schedule, that is, the failure
    of a round trip to the store or of the start of the generator, or the
    [ValueError] of a line of the generator longer than the limit of
    [readline], or the [UnicodeDecodeError] of a line that is not ASCII.
    Of the steps of the call that are modelled, no other goes wrong: the
    variable [has_lock], which is assigned only inside the loop over the
    blocks, is bound whenever line 42 reads it, because a call that reaches
    the loop has a positive target. *)
Theorem call_raises_only_on_failure
    (instance_generator : list string -> list string * Z)
    (random_seeds : list Z) (k_range m_range p s k a c r target_instances : Z)
    (w : world) :
  match (generate_instances instance_generator random_seeds k_range m_range
           p s k a c r target_instances w).1 with
  | inl e => bad_line instance_generator e \/ Some e ∈ faults w
  | inr _ => True
  end.
Proof.
  destruct (raises_only_generate_instances instance_generator random_seeds
              k_range m_range p s k a c r target_instances w)
    as (used & Hf & Hres).
  destruct (generate_instances _ _ _ _ _ _ _ _ _ _ _ w).1 as [e|v]; [|done].
  destruct Hres as [?|Hin]; [by left|right].
  rewrite Hf. apply elem_of_app. by left.
Qed.

(** ** The end of the loop *)

Lemma reached_ext (target : Z) (d d' : Redis.db) (cfg : list Z) :
  Redis.hashes d = Redis.hashes d' -> reached target d cfg -> reached target d' cfg.
Proof.
  intros Hh. destruct cfg as [|p [|s [|k [|a [|c [|r [|]]]]]]]; try done.
  simpl. by rewrite (hlen_ext _ d d').
Qed.

Lemma sweep_unset (instance_generator : list string -> list string * Z)
    (random_seeds : list Z) (k_range m_range target_instances : Z)
    (configs : list (list Z)) : forall (ra : bool) (w w1 : world),
  sweep instance_generator random_seeds k_range m_range target_instances
    configs ra w = (inr false, w1) ->
  ra = false
  /\ Redis.hashes (store w1) = Redis.hashes (store w)
  /\ Forall (reached target_instances (store w)) configs.
Proof.
  induction configs as [|cfg rest IH]; intros ra w w1 Hsw; simpl in Hsw.
  - injection Hsw as -> <-. by repeat split.
  - destruct cfg as [|p [|s [|k [|a [|c [|r [|]]]]]]]; try done.
    unfold bind at 1 in Hsw.
    destruct (generate_instances instance_generator random_seeds k_range m_range
                p s k a c r target_instances w) as [[e|[prev cur]] wc] eqn:Hcall.
    { by rewrite (run_config_raises _ _ _ _ _ _ _ _ _ _ _ _ _ _ _ Hcall) in Hsw. }
    rewrite (run_config_returns _ _ _ _ _ _ _ _ _ _ _ _ _ _ _ _ Hcall) in Hsw.
    apply IH in Hsw as (Hra & Hh & Hrest). simpl in Hh.
    apply orb_false_iff in Hra as [-> Hcur].
    apply negb_false_iff, bool_decide_eq_true in Hcur. subst cur.
    destruct (generate_instances_effect _ _ _ _ _ _ _ _ _ _ _ _ _ _ Hcall)
      as [(evs & _ & _ & _ & Hhc & _ & _ & [[_ Hge]|[? _]])
         |(block & evs1 & evs2 & pairs & _ & _ & _ & _ & _ & _ & _ & _ & _ & _
           & [(? & _)|(? & _)])]; try lia.
    split; [done|]. split; [congruence|]. constructor; [done|].
    eapply Forall_impl; [exact Hrest|]. intros cfg. by apply reached_ext.
Qed.

(** X10.  The loop is left normally only when the catalog is complete: when
    it ends without an exception, whatever failures the store had on the
    way, every row of the catalog is a configuration with at least the
    target number of instance records. *)
Theorem normal_end_means_complete
    (instance_generator : list string -> list string * Z)
    (random_seeds : list Z) (k_range m_range target_instances : Z)
    (configs : list (list Z)) (fuel : nat) (w w' : world) :
  convergence_loop instance_generator random_seeds k_range m_range
    target_instances configs fuel w = (inr Finished, w') ->
  Forall (reached target_instances (store w')) configs.
Proof.
  revert w. induction fuel as [|fuel IH]; intros w Hloop; simpl in Hloop; [done|].
  unfold bind at 1 in Hloop.
  destruct (sweep _ _ _ _ _ configs false w) as [[e|[|]] w1] eqn:Hsw; [done|..].
  - by apply (IH w1).
  - injection Hloop as <-. apply sweep_unset in Hsw as (_ & Hh & Hall).
    eapply Forall_impl; [exact Hall|]. intros cfg. by apply reached_ext.
Qed.

Lemma normal_end_means_complete_witness :
  Forall (reached 2
            (store (convergence_loop echo_generator [7; 8; 9] 1 1 2
                      [[1; 2; 3; 4; 5; 6]] 3 fresh_world).2))
    [[1; 2; 3; 4; 5; 6]].
Proof.
  apply (normal_end_means_complete echo_generator [7; 8; 9] 1 1 2
           [[1; 2; 3; 4; 5; 6]] 3 fresh_world).
  vm_compute. reflexivity.
Defined.

(** X11.  A row of the catalog that has not six fields is found only when
    the sweep reaches it: the rows before it are processed as usual, with
    their calls to the store and to the generator, and then the sweep raises
    the [ValueError] of the unpacking at the row, so that the rows after it
    are never processed. *)
Theorem malformed_row_stops_sweep
    (instance_generator : list string -> list string * Z)
    (random_seeds : list Z) (k_range m_range target_instances : Z)
    (pre post : list (list Z)) (cfg : list Z) (ra : bool) (w : world) :
  length cfg <> 6%nat ->
  sweep instance_generator random_seeds k_range m_range target_instances
    (pre ++ cfg :: post) ra w
  = match sweep instance_generator random_seeds k_range m_range
            target_instances pre ra w with
    | (inr _, w1) =>
        (inl (ValueError
                (if bool_decide (length cfg < 6)%nat
                 then "not enough values to unpack (expected 6, got "
                      +:+ pretty (length cfg) +:+ ")"
                 else "too many values to unpack (expected 6)")), w1)
    | (inl e, w1) => (inl e, w1)
    end.
Proof.
  intros Hlen. rewrite sweep_app.
  destruct (sweep _ _ _ _ _ pre ra w) as [[e|b] w1]; [done|].
  by destruct cfg as [|p [|s [|k [|a [|c [|r [|]]]]]]].
Qed.

Lemma malformed_row_stops_sweep_witness :
  sweep echo_generator [7; 8; 9] 1 1 2
    ([[1; 2; 3; 4; 5; 6]] ++ [1; 2; 3; 4; 5] :: [[6; 5; 4; 3; 2; 1]]) false
    fresh_world
  = match sweep echo_generator [7; 8; 9] 1 1 2 [[1; 2; 3; 4; 5; 6]] false
            fresh_world with
    | (inr _, w1) =>
        (inl (ValueError "not enough values to unpack (expected 6, got 5)"), w1)
    | (inl e, w1) => (inl e, w1)
    end.
Proof.
  apply (malformed_row_stops_sweep echo_generator [7; 8; 9] 1 1 2
           [[1; 2; 3; 4; 5; 6]] [[6; 5; 4; 3; 2; 1]] [1; 2; 3; 4; 5] false
           fresh_world).
  simpl. lia.
Defined.

(** * The coordinator run to convergence, and run again *)

Lemma slice_elem_of {A} (xs : list A) (a b : Z) (x : A) :
  x ∈ Py.slice xs a b -> x ∈ xs.
Proof.
  intros Hin. unfold Py.slice in Hin.
  eapply elem_of_sublist; [exact Hin|].
  etrans; [apply sublist_take|apply sublist_drop].
Qed.

(** A map of records that holds only seeds of the universe has no more
    records than the universe has seeds. *)
Lemma records_within_hlen (seeds : list Z) (d : Redis.db) (p s k a c r : Z) :
  records_within seeds d ->
  Redis.hlen (instance_key_of p s k a c r) d <= Z.of_nat (length seeds).
Proof.
  intros Hin. unfold Redis.hlen.
  set (h := Redis.hash (instance_key_of p s k a c r) d).
  assert (Hsub : dom h ⊆ (list_to_set (Py.str <$> seeds) : gset string)).
  { intros field Hf. apply elem_of_dom in Hf.
    destruct (Hin p s k a c r field Hf) as (seed & Hseed & ->).
    apply elem_of_list_to_set, list_elem_of_fmap. by exists seed. }
  apply subseteq_size in Hsub. rewrite size_dom in Hsub.
  pose proof (size_list_to_set_length (Py.str <$> seeds)) as Hle.
  rewrite length_fmap in Hle. lia.
Qed.

(** A call writes records of seeds of the universe only, whatever the
    failures and however it ends. *)
Lemma records_within_call (instance_generator : list string -> list string * Z)
    (random_seeds : list Z) (k_range m_range p s k a c r target_instances : Z)
    (w : world) :
  records_within random_seeds (store w) ->
  records_within random_seeds
    (store (generate_instances instance_generator random_seeds k_range m_range
              p s k a c r target_instances w).2).
Proof.
  intros Hin.
  destruct (generate_instances_effect instance_generator random_seeds k_range
              m_range p s k a c r target_instances w _ _
              (surjective_pairing _))
    as [(evs & _ & _ & _ & Hh & _)
       |(block & evs1 & evs2 & pairs & _ & _ & _ & _ & _ & _ & Hpre & Hhash
         & _)].
  - intros p' s' k' a' c' r' field. unfold Redis.hash. rewrite Hh.
    apply Hin.
  - cbv zeta in Hpre, Hhash.
    intros p' s' k' a' c' r' field.
    rewrite Hhash by apply instance_key_not_lock_key.
    destruct (foldl_write_pair (instance_key_of p s k a c r)
                (evaluation_key_of p s k a c r) pairs (store w))
      as (_ & Hdom & Hother); [apply instance_key_not_evaluation_key|].
    destruct (decide (instance_key_of p' s' k' a' c' r'
                      = instance_key_of p s k a c r)) as [->|Hne].
    + intros Hf. apply elem_of_dom in Hf. rewrite Hdom in Hf.
      apply elem_of_union in Hf as [Hf|Hf].
      * apply elem_of_dom in Hf. by apply (Hin p s k a c r).
      * apply elem_of_list_to_set, list_elem_of_fmap in Hf
          as (pr & -> & Hpr).
        exists pr.1. split; [|done].
        assert (Hin1 : pr.1 ∈ pairs.*1)
          by (apply list_elem_of_fmap; by exists pr).
        destruct Hpre as [rest Hrest].
        assert (Htg : pr.1 ∈ pairs.*1 ++ rest)
          by (apply elem_of_app; by left).
        rewrite <- Hrest in Htg. unfold absent_seeds in Htg.
        apply list_elem_of_filter in Htg as [_ Htg].
        by apply slice_elem_of in Htg.
    + rewrite Hother; [apply Hin|done|].
      apply instance_key_not_evaluation_key.
Qed.

Section ShortUniverse.

Variable instance_generator : list string -> list string * Z.
Variables (random_seeds : list Z) (k_range m_range target_instances : Z).

Hypothesis Hshort : Z.of_nat (length random_seeds) < target_instances.
Hypothesis Hlines : forall args, Forall line_ok (instance_generator args).1.

(** With fewer seeds than the target no configuration is ever complete:
    every call of a worker without failures returns, and with a work value
    other than zero. *)
Lemma short_call (p s k a c r : Z) (w : world) :
  faults w = [] ->
  records_within random_seeds (store w) ->
  exists (prev cur : Z) (w' : world),
    generate_instances instance_generator random_seeds k_range m_range
      p s k a c r target_instances w = (inr (prev, cur), w')
    /\ cur <> 0
    /\ faults w' = []
    /\ records_within random_seeds (store w').
Proof.
  intros Hf Hin.
  pose proof (records_within_hlen _ _ p s k a c r Hin) as Hlen.
  pose proof (records_within_call instance_generator random_seeds k_range
                m_range p s k a c r target_instances w Hin) as Hin'.
  destruct (generate_instances_incomplete instance_generator random_seeds
              k_range m_range p s k a c r target_instances w Hf ltac:(lia))
    as (n & w1 & _ & _ & Hf1 & _ & _ & _ & _ & _ & Hcase).
  destruct (Py.range 0 target_instances BLOCK_SIZE !! n) as [block|].
  - destruct Hcase as (_ & _ & Hcase). cbv zeta in Hcase.
    case_bool_decide as Htg.
    + rewrite Hcase in Hin'. eexists _, (-2), _. split; [exact Hcase|].
      by repeat split.
    + destruct Hcase as [_ Hcase].
      destruct Hcase as (w' & Hrun & Hf' & _).
      { apply Forall_take, Hlines. }
      rewrite Hrun in Hin'. eexists _, _, w'. split; [exact Hrun|].
      split; [|by split].
      destruct (absent_seeds _ _ _); [done|simpl; lia].
  - rewrite Hcase in Hin'. exists (Redis.hlen (instance_key_of p s k a c r) (store w)), (-1), w1.
    by repeat split.
Qed.

Lemma short_sweep (configs : list (list Z)) : forall (ra : bool) (w : world),
  faults w = [] ->
  records_within random_seeds (store w) ->
  Forall (fun cfg => length cfg = 6%nat) configs ->
  exists (b : bool) (w' : world),
    sweep instance_generator random_seeds k_range m_range target_instances
      configs ra w = (inr b, w')
    /\ faults w' = []
    /\ records_within random_seeds (store w')
    /\ (ra = true \/ configs <> [] -> b = true).
Proof.
  induction configs as [|cfg rest IH]; intros ra w Hf Hin Hsix.
  - exists ra, w. repeat split; try done. by intros [?|?].
  - apply Forall_cons in Hsix as [Hcfg Hsix].
    destruct cfg as [|p [|s [|k [|a [|c [|r [|]]]]]]]; try done.
    destruct (short_call p s k a c r w Hf Hin)
      as (prev & cur & w1 & Hrun & Hcur & Hf1 & Hin1).
    simpl. unfold bind at 1.
    rewrite (run_config_returns _ _ _ _ _ _ _ _ _ _ _ _ _ _ _ _ Hrun).
    rewrite bool_decide_eq_false_2 by done. rewrite orb_true_r.
    match goal with
    | |- context [sweep _ _ _ _ _ rest true ?v] =>
        destruct (IH true v) as (b & w' & Hsw & Hf' & Hin' & Hb); [done..|]
    end.
    exists b, w'. split; [done|]. split; [done|]. split; [done|].
    intros _. apply Hb. by left.
Qed.

Lemma short_loop (configs : list (list Z)) (fuel : nat) : forall w : world,
  configs <> [] ->
  Forall (fun cfg => length cfg = 6%nat) configs ->
  faults w = [] ->
  records_within random_seeds (store w) ->
  (convergence_loop instance_generator random_seeds k_range m_range
     target_instances configs fuel w).1 = inr Unfinished.
Proof.
  induction fuel as [|fuel IH]; intros w Hne Hsix Hf Hin; [done|].
  destruct (short_sweep configs false w Hf Hin Hsix)
    as (b & w' & Hsw & Hf' & Hin' & Hb).
  rewrite (Hb (or_intror Hne)) in Hsw.
  simpl. unfold bind at 1. rewrite Hsw. by apply IH.
Qed.

End ShortUniverse.

(** C2, as the code has it.  A single worker starts on an empty store, with
    a seed universe of distinct seeds, a catalog of rows of six fields and
    a generator whose lines are within the limit and ASCII.  When the
    universe has at least [target] seeds, the worker leaves the loop after
    at most two sweeps; then every configuration of the catalog has exactly
    [min(target, |Seed Universe|)], that is [target], instance records, and
    any later run on that store leaves the loop after one sweep, does not
    change the store and writes no record.  When the universe has fewer
    seeds than the target and the catalog is not empty, the worker never
    leaves the loop, however many sweeps it is given. *)
Theorem coordinator_idempotent (instance_generator : list string -> list string * Z)
    (random_seeds : list Z) (k_range m_range target_instances : Z)
    (configs : list (list Z)) (w : world) :
  NoDup random_seeds ->
  (forall args, Forall line_ok (instance_generator args).1) ->
  Forall (fun cfg => length cfg = 6%nat) configs ->
  faults w = [] ->
  store w = Redis.empty ->
  let loop := convergence_loop instance_generator random_seeds k_range m_range
                target_instances configs in
  (0 <= target_instances <= Z.of_nat (length random_seeds) ->
   forall fuel : nat,
   exists w1 : world,
     loop (2 + fuel)%nat w = (inr Finished, w1)
     /\ (forall p s k a c r : Z,
           [p; s; k; a; c; r] ∈ configs ->
           Redis.hlen (instance_key_of p s k a c r) (store w1)
           = Z.min target_instances (Z.of_nat (length random_seeds)))
     /\ forall (fuel' : nat) (w1' : world),
          store w1' = store w1 -> faults w1' = [] ->
          exists w2 : world,
            loop (S fuel') w1' = (inr Finished, w2)
            /\ store w2 = store w1
            /\ exists evs : list event,
                 trace w2 = trace w1' ++ evs /\ Forall not_write evs)
  /\ (Z.of_nat (length random_seeds) < target_instances ->
      configs <> [] ->
      forall fuel : nat, (loop fuel w).1 = inr Unfinished).
Proof.
  intros Hnodup Hlines Hsix Hf Hst loop. split; cycle 1.
  { intros Hshort Hne fuel. apply short_loop; try done.
    rewrite Hst. intros p s k a c r field [v Hv]. done. }
  intros Htarget fuel.
  assert (Hs : settled target_instances w).
  { split; [done|]. rewrite Hst. split; [done|]. intros; by left. }
  destruct (settled_sweep instance_generator random_seeds k_range m_range
              target_instances Htarget Hnodup Hlines configs false w Hs Hsix)
    as (b & w' & Hsw & Hs' & Hall & _).
  assert (Hsecond : forall (fuel' : nat) (v : world),
    store v = store w' -> faults v = [] ->
    exists w2 : world,
      loop (S fuel') v = (inr Finished, w2)
      /\ store w2 = store w'
      /\ exists evs : list event, trace w2 = trace v ++ evs /\ Forall not_write evs).
  { intros fuel' v Hv Hfv.
    destruct (complete_sweep instance_generator random_seeds k_range m_range
                target_instances configs false v Hfv)
      as (w2 & Hsw2 & Hst2 & _ & Hevs).
    { by rewrite Hv. }
    exists w2. unfold loop. simpl. unfold bind at 1. rewrite Hsw2.
    split; [done|]. split; [by rewrite Hst2|done]. }
  assert (Hcount : forall (v : world), store v = store w' ->
    forall p s k a c r : Z,
      [p; s; k; a; c; r] ∈ configs ->
      Redis.hlen (instance_key_of p s k a c r) (store v)
      = target_instances `min` Z.of_nat (length random_seeds)).
  { intros v Hv p s k a c r Hin. rewrite Hv.
    rewrite Forall_forall in Hall. specialize (Hall _ Hin). simpl in Hall.
    rewrite Hall. lia. }
  destruct b.
  - destruct (Hsecond fuel w' eq_refl (proj1 Hs'))
      as (w2 & Hloop & Hst2 & _).
    exists w2. split.
    { unfold loop in *. change (2 + fuel)%nat with (S (S fuel)).
      simpl. simpl in Hloop. unfold bind at 1. rewrite Hsw. exact Hloop. }
    split; [by apply Hcount|].
    intros fuel' v Hv Hfv. rewrite Hst2 in Hv.
    destruct (Hsecond fuel' v Hv Hfv) as (w3 & ? & ? & ?).
    exists w3. split; [done|]. split; [congruence|done].
  - exists w'. split.
    { unfold loop. simpl. unfold bind at 1. by rewrite Hsw. }
    split; [by apply Hcount|].
    intros fuel' v Hv Hfv. by apply Hsecond.
Qed.

Lemma coordinator_idempotent_witness :
  (exists w1 : world,
     convergence_loop constant_generator fifty_seeds 1 1 45
       [[1; 2; 3; 4; 5; 6]; [6; 5; 4; 3; 2; 1]] 2 fresh_world
     = (inr Finished, w1)
     /\ Redis.hlen (instance_key_of 1 2 3 4 5 6) (store w1) = 45
     /\ Redis.hlen (instance_key_of 6 5 4 3 2 1) (store w1) = 45)
  /\ (forall fuel : nat,
        (convergence_loop constant_generator fifty_seeds 1 1 51
           [[1; 2; 3; 4; 5; 6]; [6; 5; 4; 3; 2; 1]] fuel fresh_world).1
        = inr Unfinished).
Proof.
  split.
  - destruct (proj1 (coordinator_idempotent constant_generator fifty_seeds 1 1
                       45 [[1; 2; 3; 4; 5; 6]; [6; 5; 4; 3; 2; 1]] fresh_world
                       ltac:(apply (bool_decide_unpack _); vm_compute; exact I)
                       constant_generator_lines
                       ltac:(repeat constructor) eq_refl eq_refl)
                ltac:(vm_compute; split; discriminate) 0%nat)
      as (w1 & Hloop & Hcount & _).
    exists w1. split; [exact Hloop|]. split.
    + rewrite (Hcount 1 2 3 4 5 6) by (apply list_elem_of_here).
      vm_compute. reflexivity.
    + rewrite (Hcount 6 5 4 3 2 1)
        by (apply list_elem_of_further, list_elem_of_here).
      vm_compute. reflexivity.
  - apply (proj2 (coordinator_idempotent constant_generator fifty_seeds 1 1
                    51 [[1; 2; 3; 4; 5; 6]; [6; 5; 4; 3; 2; 1]] fresh_world
                    ltac:(apply (bool_decide_unpack _); vm_compute; exact I)
                    constant_generator_lines
                    ltac:(repeat constructor) eq_refl eq_refl)).
    + vm_compute. reflexivity.
    + done.
Defined.

(** * Properties of the instances *)

(** ** The maps of sets *)

Lemma linked_add_to (m : gmap Z (gset Z)) (key value a b : Z) :
  linked (KCMC._add_to m key value) a b
  <-> linked m a b \/ (a = key /\ b = value).
Proof.
  unfold linked, KCMC._add_to.
  destruct (decide (a = key)) as [->|Hne].
  - destruct (m !! key) as [values|] eqn:Hm.
    + rewrite lookup_insert_eq. simpl. rewrite Hm. simpl.
      rewrite elem_of_union, elem_of_singleton. intuition congruence.
    + rewrite lookup_insert_eq. simpl. rewrite lookup_insert_eq. simpl.
      rewrite elem_of_union, elem_of_singleton, elem_of_empty. intuition congruence.
  - destruct (m !! key) as [values|] eqn:Hm; rewrite !lookup_insert_ne by done;
      intuition congruence.
Qed.

Lemma edge_add_to (m : gmap string (gset string)) (key value x y : string) :
  y ∈ default ∅ (KCMC._add_to m key value !! x)
  <-> y ∈ default ∅ (m !! x) \/ (x = key /\ y = value).
Proof.
  unfold KCMC._add_to.
  destruct (decide (x = key)) as [->|Hne].
  - destruct (m !! key) as [values|] eqn:Hm.
    + rewrite lookup_insert_eq. simpl. rewrite Hm. simpl.
      rewrite elem_of_union, elem_of_singleton. intuition congruence.
    + rewrite lookup_insert_eq. simpl. rewrite lookup_insert_eq. simpl.
      rewrite elem_of_union, elem_of_singleton, elem_of_empty. intuition congruence.
  - destruct (m !! key) as [values|] eqn:Hm; rewrite !lookup_insert_ne by done;
      intuition congruence.
Qed.

Lemma no_empty_set_add_to (m : gmap Z (gset Z)) (key value : Z) :
  no_empty_set m -> no_empty_set (KCMC._add_to m key value).
Proof.
  intros Hm k values. unfold KCMC._add_to.
  destruct (decide (k = key)) as [->|Hne].
  - rewrite lookup_insert_eq. intros [= <-] Hempty.
    assert (Hin : value ∈ (∅ : gset Z)).
    { rewrite <- Hempty. apply elem_of_union. right. by apply elem_of_singleton. }
    by apply elem_of_empty in Hin.
  - destruct (m !! key); rewrite !lookup_insert_ne by done; apply Hm.
Qed.

Lemma node_inj (kind : string) (a b : Z) : KCMC.node kind a = KCMC.node kind b -> a = b.
Proof.
  unfold KCMC.node, Py.str. intros H%(inj (String.app _)). by apply (inj pretty).
Qed.

Lemma node_p_not_i (a b : Z) : KCMC.node "p" a <> KCMC.node "i" b.
Proof. done. Qed.

Lemma node_i_not_s (a b : Z) : KCMC.node "i" a <> KCMC.node "s" b.
Proof. done. Qed.

Lemma node_s_not_i (a b : Z) : KCMC.node "s" a <> KCMC.node "i" b.
Proof. done. Qed.

Lemma consistent_no_buffers (inactive_sensors : gset string) :
  consistent inactive_sensors KCMC.no_buffers.
Proof.
  constructor; unfold linked, edge, no_empty_set; simpl; try done.
  all: intros; rewrite ?lookup_empty in *; simpl in *;
    repeat match goal with
           | H : _ ∈ ∅ |- _ => by apply elem_of_empty in H
           end; try done.
Qed.

Lemma add_edge_consistent (inactive_sensors : gset string) (tag : string)
    (alpha beta : Z) (is_expanded is_expanded' : bool) (b b' : KCMC.buffers) :
  consistent inactive_sensors b ->
  (is_expanded = true -> exists x y, edge b x y) ->
  KCMC.add_edge inactive_sensors tag alpha beta is_expanded b
  = inr (is_expanded', b') ->
  consistent inactive_sensors b'
  /\ (is_expanded' = true -> exists x y, edge b' x y).
Proof.
  intros Hc Hexp. unfold KCMC.add_edge. pose proof Hc as Hc0.
  destruct Hc as [Hpc Hsc Hsym Hirr Hpa Hsa Hka Hn1 Hn2 Hn3 Hn4 Hn5 He Hpe Hse Hke].
  case_bool_decide as Htag1.
  { case_bool_decide as Hin; intros [= <- <-]; [by split|].
    split.
    - constructor; simpl; try done; try (by apply no_empty_set_add_to).
      + intros p i. rewrite !linked_add_to, Hpc. intuition congruence.
      + intros p i [Hold|[-> ->]]%linked_add_to; [by eapply Hpa|done].
      + intros x y [Hold|[-> ->]]%edge_add_to.
        * destruct (He _ _ Hold)
            as [(p & i & -> & -> & Hl)|[(i & j & -> & -> & Hl)
               |(i & s & -> & -> & Hl)]].
          -- left. exists p, i. rewrite linked_add_to. intuition auto.
          -- right. left. by exists i, j.
          -- right. right. by exists i, s.
        * left. exists alpha, beta. rewrite linked_add_to. intuition auto.
      + intros p i [Hold|[-> ->]]%linked_add_to; apply edge_add_to;
          [left; by apply Hpe|by right].
      + intros i j Hl. destruct (Hse _ _ Hl); [left|right]; apply edge_add_to; auto.
      + intros i s Hl. apply edge_add_to. left. by apply Hke.
    - intros _. exists (KCMC.node "p" alpha), (KCMC.node "i" beta).
      apply edge_add_to. by right. }
  case_bool_decide as Htag2.
  { case_bool_decide as Hself; [done|].
    case_bool_decide as Hin; intros [= <- <-]; [by split|].
    assert (Ha : KCMC.node "i" alpha ∉ inactive_sensors) by tauto.
    assert (Hb : KCMC.node "i" beta ∉ inactive_sensors) by tauto.
    split.
    - constructor; simpl; try done;
        try (by apply no_empty_set_add_to, no_empty_set_add_to).
      + intros i j. rewrite !linked_add_to.
        intros [[Hold|[-> ->]]|[-> ->]]; auto.
      + intros i. rewrite !linked_add_to.
        intros [[Hold|[-> ->]]|[-> ->]]; try done. by eapply Hirr.
      + intros i j. rewrite !linked_add_to.
        intros [[Hold|[-> ->]]|[-> ->]]; try done. by eapply Hsa.
      + intros x y [Hold|[-> ->]]%edge_add_to.
        * destruct (He _ _ Hold)
            as [(p & i & -> & -> & Hl)|[(i & j & -> & -> & Hl)
               |(i & s & -> & -> & Hl)]].
          -- left. by exists p, i.
          -- right. left. exists i, j. rewrite !linked_add_to. intuition auto.
          -- right. right. by exists i, s.
        * right. left. exists alpha, beta. rewrite !linked_add_to. intuition auto.
      + intros p i Hl. apply edge_add_to. left. by apply Hpe.
      + intros i j. rewrite !linked_add_to.
        intros [[Hold|[-> ->]]|[-> ->]].
        * destruct (Hse _ _ Hold); [left|right]; apply edge_add_to; auto.
        * left. apply edge_add_to. by right.
        * right. apply edge_add_to. by right.
      + intros i s Hl. apply edge_add_to. left. by apply Hke.
    - intros _. exists (KCMC.node "i" alpha), (KCMC.node "i" beta).
      apply edge_add_to. by right. }
  case_bool_decide as Htag3; [|done].
  case_bool_decide as Hin; intros [= <- <-]; [by split|].
  split.
  - constructor; simpl; try done; try (by apply no_empty_set_add_to).
    + intros i s. rewrite !linked_add_to, Hsc. intuition congruence.
    + intros i s [Hold|[-> ->]]%linked_add_to; [by eapply Hka|done].
    + intros x y [Hold|[-> ->]]%edge_add_to.
      * destruct (He _ _ Hold)
          as [(p & i & -> & -> & Hl)|[(i & j & -> & -> & Hl)
             |(i & s & -> & -> & Hl)]].
        -- left. by exists p, i.
        -- right. left. by exists i, j.
        -- right. right. exists i, s. rewrite linked_add_to. intuition auto.
      * right. right. exists alpha, beta. rewrite linked_add_to. intuition auto.
    + intros p i Hl. apply edge_add_to. left. by apply Hpe.
    + intros i j Hl. destruct (Hse _ _ Hl); [left|right]; apply edge_add_to; auto.
    + intros i s [Hold|[-> ->]]%linked_add_to; apply edge_add_to;
        [left; by apply Hke|by right].
  - intros _. exists (KCMC.node "i" alpha), (KCMC.node "s" beta).
    apply edge_add_to. by right.
Qed.

Lemma read_tokens_consistent (inactive_sensors : gset string)
    (tokens : list string) :
  forall (i : Z) (tag : option string) (is_expanded is_expanded' : bool)
         (b b' : KCMC.buffers),
  consistent inactive_sensors b ->
  (is_expanded = true -> exists x y, edge b x y) ->
  KCMC.read_tokens inactive_sensors tokens i tag is_expanded b
  = inr (is_expanded', b') ->
  consistent inactive_sensors b'
  /\ (is_expanded' = true -> exists x y, edge b' x y).
Proof.
  induction tokens as [|token rest IH]; intros i tag ie ie' b b' Hc Hexp Hrun;
    simpl in Hrun.
  - by injection Hrun as <- <-.
  - case_bool_decide as Htag; [by eapply IH|].
    destruct tag as [tg|]; [|done].
    destruct (KCMC.unpack_pair _) as [e|[alpha beta]]; [done|].
    destruct (KCMC.add_edge inactive_sensors tg alpha beta ie b)
      as [e|[ie1 b1]] eqn:Hadd; [done|].
    destruct (add_edge_consistent _ _ _ _ _ _ _ _ Hc Hexp Hadd) as [Hc1 Hexp1].
    by eapply IH.
Qed.

Section Parsed.

Variable get_serialized_instance : Z -> Z -> Z -> Z -> Z -> Z -> Z -> KCMC.exn + string.

Lemma parse_consistent (fuel : nat) :
  forall (acceptance : bool * bool * bool) (instance_string : string)
         (inactive_sensors : option (gset string)) (x : KCMC.instance),
  KCMC.parse_serialized_instance get_serialized_instance fuel acceptance
    instance_string
    inactive_sensors = Some (inr x) ->
  KCMC.inactive_sensors_ x = default ∅ inactive_sensors
  /\ consistent (KCMC.inactive_sensors_ x) (KCMC.graph x)
  /\ (exists a b, edge (KCMC.graph x) a b)
  /\ KCMC.virtual_sinks_map x = ∅.
Proof.
  induction fuel as [|fuel IH]; intros acc s ina x Hrun;
    cbn [KCMC.parse_serialized_instance] in Hrun.
  all: destruct (negb (KCMC.startswith _ _)); [done|].
  all: destruct (negb (KCMC.endswith _ _)); [done|].
  all: destruct (KCMC.preamble _) as [[[[[[[p i] sk] a] cv] cm] r]|]; [|done].
  all: destruct (KCMC.read_tokens _ _ _ _ _ _) as [e|[[|] b]] eqn:Hrt; [done| |].
  all: try (apply read_tokens_consistent in Hrt as [Hc Hexp];
            [|apply consistent_no_buffers|done]).
  - injection Hrun as <-. simpl. auto.
  - done.
  - injection Hrun as <-. simpl. auto.
  - destruct (get_serialized_instance p i sk a cv cm r) as [e|regenerated];
      [done|].
    apply IH in Hrun as (Hina & Hrest). by split.
Qed.

End Parsed.

Lemma linked_key (m : gmap Z (gset Z)) (a : Z) :
  no_empty_set m -> (is_Some (m !! a) <-> exists b, linked m a b).
Proof.
  intros Hm. unfold linked. split.
  - intros [values Hv]. rewrite Hv. simpl.
    apply set_choose_L. by eapply Hm.
  - intros [b Hb]. destruct (m !! a); [done|]. by apply elem_of_empty in Hb.
Qed.

(** X12.  In an instance that has been parsed, the maps tell one graph:
    [sensor_poi] is the converse of [poi_sensor] and [sink_sensor] the
    converse of [sensor_sink]; [sensor_sensor] is symmetric and links no
    sensor to itself; and a key is in one of the maps exactly when it has a
    link there, so that the length of a map counts the nodes that have a
    link. *)
Theorem parsed_maps_tell_one_graph
    (get_serialized_instance : Z -> Z -> Z -> Z -> Z -> Z -> Z -> KCMC.exn + string)
    (fuel : nat) (acceptance : bool * bool * bool) (instance_string : string)
    (inactive_sensors : option (gset string)) (x : KCMC.instance) :
  KCMC.parse_serialized_instance get_serialized_instance fuel acceptance
    instance_string
    inactive_sensors = Some (inr x) ->
  let g := KCMC.graph x in
  (forall p i : Z, linked (KCMC.poi_sensor g) p i <-> linked (KCMC.sensor_poi g) i p)
  /\ (forall i s : Z,
        linked (KCMC.sensor_sink g) i s <-> linked (KCMC.sink_sensor g) s i)
  /\ (forall i j : Z,
        linked (KCMC.sensor_sensor g) i j <-> linked (KCMC.sensor_sensor g) j i)
  /\ (forall i : Z, ~ linked (KCMC.sensor_sensor g) i i)
  /\ (forall p : Z,
        is_Some (KCMC.poi_sensor g !! p) <-> exists i, linked (KCMC.poi_sensor g) p i)
  /\ (forall i : Z,
        is_Some (KCMC.sensor_sensor g !! i)
        <-> exists j, linked (KCMC.sensor_sensor g) i j)
  /\ (forall s : Z,
        is_Some (KCMC.sink_sensor g !! s)
        <-> exists i, linked (KCMC.sink_sensor g) s i).
Proof.
  intros Hrun g. apply parse_consistent in Hrun as (_ & Hc & _).
  destruct Hc. repeat split; try done.
  - apply poi_converse0.
  - apply poi_converse0.
  - apply sink_converse0.
  - apply sink_converse0.
  - apply sensor_symmetric0.
  - apply sensor_symmetric0.
  - by apply linked_key.
  - by apply linked_key.
  - by apply linked_key.
  - by apply linked_key.
  - by apply linked_key.
  - by apply linked_key.
Qed.

Lemma parsed_maps_tell_one_graph_witness :
  exists x : KCMC.instance,
    KCMC.parse_serialized_instance no_evaluator 0 (false, false, false)
      example_instance None
    = Some (inr x)
    /\ (forall i j : Z,
          linked (KCMC.sensor_sensor (KCMC.graph x)) i j
          <-> linked (KCMC.sensor_sensor (KCMC.graph x)) j i).
Proof.
  destruct (KCMC.parse_serialized_instance no_evaluator 0 (false, false, false)
      example_instance None)
    as [[e|x]|] eqn:Hrun; [by vm_compute in Hrun| |by vm_compute in Hrun].
  exists x. split; [reflexivity|].
  apply (parsed_maps_tell_one_graph no_evaluator 0 (false, false, false)
           example_instance None x Hrun).
Defined.

(** X13.  No inactive sensor is in the graph of an instance that has been
    parsed: the inactive sensors of the instance are those given, none when
    none is given, and no link of a POI, of a sensor or of a sink has an
    inactive sensor at an end. *)
Theorem parsed_graph_has_no_inactive_sensor
    (get_serialized_instance : Z -> Z -> Z -> Z -> Z -> Z -> Z -> KCMC.exn + string)
    (fuel : nat) (acceptance : bool * bool * bool) (instance_string : string)
    (inactive_sensors : option (gset string)) (x : KCMC.instance) :
  KCMC.parse_serialized_instance get_serialized_instance fuel acceptance
    instance_string
    inactive_sensors = Some (inr x) ->
  let g := KCMC.graph x in
  let inactive := default ∅ inactive_sensors in
  KCMC.inactive_sensors_ x = inactive
  /\ (forall p i : Z, linked (KCMC.poi_sensor g) p i -> KCMC.node "i" i ∉ inactive)
  /\ (forall i p : Z, linked (KCMC.sensor_poi g) i p -> KCMC.node "i" i ∉ inactive)
  /\ (forall i j : Z,
        linked (KCMC.sensor_sensor g) i j ->
        (KCMC.node "i" i ∉ inactive) /\ (KCMC.node "i" j ∉ inactive))
  /\ (forall i s : Z, linked (KCMC.sensor_sink g) i s -> KCMC.node "i" i ∉ inactive)
  /\ (forall s i : Z, linked (KCMC.sink_sensor g) s i -> KCMC.node "i" i ∉ inactive).
Proof.
  intros Hrun g inactive. apply parse_consistent in Hrun as (Hina & Hc & _).
  rewrite Hina in Hc. destruct Hc. repeat split; try done.
  - intros i p Hl. apply poi_converse0 in Hl. by eapply poi_active0.
  - by eapply sensor_active0.
  - eapply sensor_active0. by apply sensor_symmetric0.
  - intros s i Hl. apply sink_converse0 in Hl. by eapply sink_active0.
Qed.

Lemma parsed_graph_has_no_inactive_sensor_witness :
  exists x : KCMC.instance,
    KCMC.parse_serialized_instance no_evaluator 0 (false, false, false)
      example_instance
      (Some one_inactive) = Some (inr x)
    /\ KCMC.inactive_sensors_ x = one_inactive
    /\ forall i j : Z,
         linked (KCMC.sensor_sensor (KCMC.graph x)) i j ->
         (KCMC.node "i" i ∉ one_inactive)
         /\ (KCMC.node "i" j ∉ one_inactive).
Proof.
  destruct (KCMC.parse_serialized_instance no_evaluator 0 (false, false, false)
      example_instance
              (Some one_inactive))
    as [[e|x]|] eqn:Hrun; [by vm_compute in Hrun| |by vm_compute in Hrun].
  exists x. split; [reflexivity|].
  destruct (parsed_graph_has_no_inactive_sensor no_evaluator 0
              (false, false, false) example_instance (Some one_inactive) x Hrun) as (H1 & _ & _ & H2 & _).
  split; [exact H1|exact H2].
Defined.

(** X14.  The edges of an instance that has been parsed are its links, and
    there is at least one.  Every edge goes from a POI to a sensor that
    covers it, from a sensor to a sensor linked with it, or from a sensor to
    a sink linked with it; every link of a POI and of a sink is an edge, and
    every link between two sensors is an edge in one direction at least. *)
Theorem parsed_edges_are_the_links
    (get_serialized_instance : Z -> Z -> Z -> Z -> Z -> Z -> Z -> KCMC.exn + string)
    (fuel : nat) (acceptance : bool * bool * bool) (instance_string : string)
    (inactive_sensors : option (gset string)) (x : KCMC.instance) :
  KCMC.parse_serialized_instance get_serialized_instance fuel acceptance
    instance_string
    inactive_sensors = Some (inr x) ->
  let g := KCMC.graph x in
  (exists a b : string, edge g a b)
  /\ (forall a b : string,
        edge g a b ->
        (exists p i : Z, a = KCMC.node "p" p /\ b = KCMC.node "i" i
                         /\ linked (KCMC.poi_sensor g) p i)
        \/ (exists i j : Z, a = KCMC.node "i" i /\ b = KCMC.node "i" j
                            /\ linked (KCMC.sensor_sensor g) i j)
        \/ (exists i s : Z, a = KCMC.node "i" i /\ b = KCMC.node "s" s
                            /\ linked (KCMC.sensor_sink g) i s))
  /\ (forall p i : Z,
        linked (KCMC.poi_sensor g) p i <-> edge g (KCMC.node "p" p) (KCMC.node "i" i))
  /\ (forall i j : Z,
        linked (KCMC.sensor_sensor g) i j
        <-> edge g (KCMC.node "i" i) (KCMC.node "i" j)
            \/ edge g (KCMC.node "i" j) (KCMC.node "i" i))
  /\ (forall i s : Z,
        linked (KCMC.sensor_sink g) i s
        <-> edge g (KCMC.node "i" i) (KCMC.node "s" s)).
Proof.
  intros Hrun g. apply parse_consistent in Hrun as (_ & Hc & Hedge & _).
  destruct Hc. split; [done|]. split; [done|]. split; [|split].
  - intros p i. split; [apply poi_links_are_edges0|]. intros He.
    destruct (edges_are_links0 _ _ He)
      as [(p' & i' & Hp & Hi & Hl)|[(i' & j' & Hp & _)|(i' & s' & Hp & _)]].
    + apply node_inj in Hp, Hi. by subst.
    + by apply node_p_not_i in Hp.
    + by apply node_p_not_i in Hp.
  - intros i j. split; [apply sensor_links_are_edges0|]. intros [He|He];
      destruct (edges_are_links0 _ _ He)
        as [(p' & i' & Hp & _)|[(i' & j' & Hi & Hj & Hl)|(i' & s' & _ & Hs & _)]].
    + by apply symmetry, node_p_not_i in Hp.
    + apply node_inj in Hi, Hj. by subst.
    + by apply node_i_not_s in Hs.
    + by apply symmetry, node_p_not_i in Hp.
    + apply node_inj in Hi, Hj. subst. by apply sensor_symmetric0.
    + by apply node_i_not_s in Hs.
  - intros i s. split; [apply sink_links_are_edges0|]. intros He.
    destruct (edges_are_links0 _ _ He)
      as [(p' & i' & Hp & _)|[(i' & j' & _ & Hj & _)|(i' & s' & Hi & Hs & Hl)]].
    + by apply symmetry, node_p_not_i in Hp.
    + by apply node_s_not_i in Hj.
    + apply node_inj in Hi, Hs. by subst.
Qed.

Lemma parsed_edges_are_the_links_witness :
  exists x : KCMC.instance,
    KCMC.parse_serialized_instance no_evaluator 0 (false, false, false)
      example_instance None
    = Some (inr x)
    /\ exists a b : string, edge (KCMC.graph x) a b.
Proof.
  destruct (KCMC.parse_serialized_instance no_evaluator 0 (false, false, false)
      example_instance None)
    as [[e|x]|] eqn:Hrun; [by vm_compute in Hrun| |by vm_compute in Hrun].
  exists x. split; [reflexivity|].
  apply (parsed_edges_are_the_links no_evaluator 0 (false, false, false)
           example_instance None x Hrun).
Defined.

(** ** The validations of [__init__] *)

Lemma max_key_None (d : gmap Z (gset Z)) : KCMC.max_key d = None -> d = ∅.
Proof.
  unfold KCMC.max_key. intros H. apply dom_empty_inv_L.
  apply leibniz_equiv, elements_empty_inv.
  by destruct (elements (dom d)).
Qed.

Lemma max_key_Some (d : gmap Z (gset Z)) (m key : Z) :
  KCMC.max_key d = Some m -> is_Some (d !! key) -> key <= m.
Proof.
  unfold KCMC.max_key. intros H Hkey.
  apply elem_of_dom, elem_of_elements in Hkey.
  revert m H Hkey. induction (elements (dom d)) as [|k l IH]; intros m H Hkey.
  - by apply elem_of_nil in Hkey.
  - simpl in H. injection H as <-.
    apply elem_of_cons in Hkey as [->|Hkey].
    + destruct (foldr _ None l); simpl; lia.
    + destruct (foldr _ None l) as [best|] eqn:Hbest; simpl.
      * specialize (IH best eq_refl Hkey). lia.
      * destruct l; [by apply elem_of_nil in Hkey|done].
Qed.

Section Validated.

Variable get_serialized_instance : Z -> Z -> Z -> Z -> Z -> Z -> Z -> KCMC.exn + string.
Variable ids_above : gmap Z (gset Z) -> Z -> string.

Lemma check_ids_inr (d : gmap Z (gset Z)) (bound : Z) (message : string) :
  KCMC.check_ids ids_above d bound message = inr tt ->
  d <> ∅ /\ forall key : Z, is_Some (d !! key) -> key < bound.
Proof.
  unfold KCMC.check_ids. destruct (KCMC.max_key d) as [m|] eqn:Hm; [|done].
  case_bool_decide as Hlt; [|done]. intros _. split.
  - intros ->. by vm_compute in Hm.
  - intros key Hkey. pose proof (max_key_Some _ _ _ Hm Hkey). lia.
Qed.

Lemma check_count_inr (d : gmap Z (gset Z)) (number : Z) (accept_loose : bool)
    (message : string) :
  KCMC.check_count d number accept_loose message = inr tt ->
  accept_loose = false -> Z.of_nat (size d) = number.
Proof.
  unfold KCMC.check_count. intros H ->. rewrite orb_false_r in H.
  by case_bool_decide.
Qed.

Lemma validate_inr (x y : KCMC.instance)
    (accept_loose_pois accept_loose_sensors accept_loose_sinks : bool) :
  KCMC.validate ids_above x accept_loose_pois accept_loose_sensors
    accept_loose_sinks = inr y ->
  let g := KCMC.graph x in
  y = x
  /\ (KCMC.poi_sensor g <> ∅
      /\ forall p : Z, is_Some (KCMC.poi_sensor g !! p) -> p < KCMC.num_pois x)
  /\ (KCMC.sensor_sensor g <> ∅
      /\ forall i : Z,
           is_Some (KCMC.sensor_sensor g !! i) -> i < KCMC.num_sensors x)
  /\ (KCMC.sink_sensor g <> ∅
      /\ forall s : Z, is_Some (KCMC.sink_sensor g !! s) -> s < KCMC.num_sinks x)
  /\ (accept_loose_pois = false ->
      Z.of_nat (size (KCMC.poi_sensor g)) = KCMC.num_pois x)
  /\ (accept_loose_sinks = false ->
      Z.of_nat (size (KCMC.sink_sensor g)) = KCMC.num_sinks x)
  /\ (accept_loose_sensors = false ->
      Z.of_nat (size (KCMC.sensor_sensor g)) = KCMC.num_sensors x).
Proof.
  intros H. cbv zeta. unfold KCMC.validate in H.
  set (g := KCMC.graph x) in *.
  destruct (KCMC.check_ids _ (KCMC.poi_sensor g) _ _) as [e|[]] eqn:H1; [done|].
  destruct (KCMC.check_ids _ (KCMC.sensor_sensor g) _ _) as [e|[]] eqn:H2; [done|].
  destruct (KCMC.check_ids _ (KCMC.sink_sensor g) _ _) as [e|[]] eqn:H3; [done|].
  destruct (KCMC.check_count (KCMC.poi_sensor g) _ _ _) as [e|[]] eqn:H4; [done|].
  destruct (KCMC.check_count (KCMC.sink_sensor g) _ _ _) as [e|[]] eqn:H5; [done|].
  destruct (KCMC.check_count (KCMC.sensor_sensor g) _ _ _) as [e|[]] eqn:H6;
    [done|].
  injection H as <-.
  apply check_ids_inr in H1, H2, H3.
  split; [done|]. split; [done|]. split; [done|]. split; [done|].
  split; [by eapply check_count_inr|].
  split; by eapply check_count_inr.
Qed.

End Validated.

(** X15.  An instance that [KCMC_Instance(...)] returns has a link of each
    kind, whatever the flags: an instance without a POI link, without a
    link between sensors or without a sink link is refused ([max] of no key
    raises).  The ids that are keys of the three maps checked are below the
    numbers of the preamble: the POIs that have a sensor, the sensors that
    have a link to another sensor, and the sinks that have a sensor.  The id
    of a sensor that has only POI links or sink links is not checked.  For
    each flag that is not set the count of the nodes that have a link is
    the number of the preamble. *)
Theorem constructed_instance_is_validated
    (get_serialized_instance : Z -> Z -> Z -> Z -> Z -> Z -> Z -> KCMC.exn + string)
    (ids_above : gmap Z (gset Z) -> Z -> string)
    (fuel : nat) (instance_string : string)
    (accept_loose_pois accept_loose_sensors accept_loose_sinks : bool)
    (inactive_sensors : option (gset string)) (x : KCMC.instance) :
  KCMC.init get_serialized_instance ids_above fuel instance_string
    accept_loose_pois accept_loose_sensors accept_loose_sinks inactive_sensors
  = Some (inr x) ->
  let g := KCMC.graph x in
  (exists p i : Z, linked (KCMC.poi_sensor g) p i)
  /\ (exists i j : Z, linked (KCMC.sensor_sensor g) i j)
  /\ (exists i s : Z, linked (KCMC.sensor_sink g) i s)
  /\ (forall p i : Z, linked (KCMC.poi_sensor g) p i -> p < KCMC.num_pois x)
  /\ (forall i j : Z,
        linked (KCMC.sensor_sensor g) i j ->
        i < KCMC.num_sensors x /\ j < KCMC.num_sensors x)
  /\ (forall i s : Z, linked (KCMC.sensor_sink g) i s -> s < KCMC.num_sinks x)
  /\ (accept_loose_pois = false ->
      Z.of_nat (size (KCMC.poi_sensor g)) = KCMC.num_pois x)
  /\ (accept_loose_sensors = false ->
      Z.of_nat (size (KCMC.sensor_sensor g)) = KCMC.num_sensors x)
  /\ (accept_loose_sinks = false ->
      Z.of_nat (size (KCMC.sink_sensor g)) = KCMC.num_sinks x).
Proof.
  intros Hinit. cbv zeta. unfold KCMC.init in Hinit.
  set (g := KCMC.graph x).
  destruct (KCMC.parse_serialized_instance _ _ _ _ _) as [[e|x0]|] eqn:Hparse;
    try done.
  injection Hinit as Hval.
  apply validate_inr in Hval as (-> & [Hp1 Hp2] & [Hs1 Hs2] & [Hk1 Hk2] & Hcp & Hck & Hcs).
  apply parse_consistent in Hparse as (_ & Hc & _). destruct Hc.
  assert (Hne : forall m : gmap Z (gset Z),
            no_empty_set m -> m <> ∅ -> exists a b, linked m a b).
  { intros m Hm Hnon. apply map_choose in Hnon as (a & values & Ha).
    exists a. apply linked_key; [done|]. by exists values. }
  fold g in Hp1, Hp2, Hs1, Hs2, Hk1, Hk2, Hcp, Hck, Hcs.
  repeat split; try done.
  - by apply Hne.
  - by apply Hne.
  - destruct (Hne _ sink_sensor_sets0 Hk1) as (s & i & Hl).
    exists i, s. by apply sink_converse0.
  - intros p i Hl. apply Hp2, linked_key; [done|]. by exists i.
  - apply Hs2, linked_key; [done|]. by eexists.
  - apply Hs2, linked_key; [done|]. eexists. by apply sensor_symmetric0.
  - intros i s Hl. apply Hk2, linked_key; [done|]. exists i.
    by apply sink_converse0.
Qed.

Lemma constructed_instance_is_validated_witness :
  exists x : KCMC.instance,
    KCMC.init no_evaluator no_ids 0 example_instance false false false None
    = Some (inr x)
    /\ Z.of_nat (size (KCMC.sensor_sensor (KCMC.graph x))) = KCMC.num_sensors x.
Proof.
  destruct (KCMC.init no_evaluator no_ids 0 example_instance false false false
              None)
    as [[e|x]|] eqn:Hrun; [by vm_compute in Hrun| |by vm_compute in Hrun].
  exists x. split; [reflexivity|].
  by apply (constructed_instance_is_validated no_evaluator no_ids 0
              example_instance false false false None x Hrun).
Defined.

(** The bound on the ids of the sensors is on the sensors that have a link
    to another sensor, and on no other: this instance of two sensors is
    accepted with its sensor 99, which covers the POI and reaches the
    sink. *)
Lemma stray_sensor_id_is_accepted :
  exists x : KCMC.instance,
    KCMC.init no_evaluator no_ids 0 stray_sensor_instance false false false None
    = Some (inr x)
    /\ KCMC.num_sensors x = 2
    /\ linked (KCMC.poi_sensor (KCMC.graph x)) 0 99
    /\ linked (KCMC.sensor_sink (KCMC.graph x)) 99 0.
Proof.
  destruct (KCMC.init no_evaluator no_ids 0 stray_sensor_instance false false
              false None)
    as [[e|x]|] eqn:Hrun; [by vm_compute in Hrun| |by vm_compute in Hrun].
  exists x. split; [reflexivity|].
  vm_compute in Hrun. injection Hrun as <-.
  split; [reflexivity|]. split; by vm_compute.
Qed.

Lemma linked_in_keys (m : gmap Z (gset Z)) (a b : Z) :
  linked m a b -> a ∈ elements (dom m).
Proof.
  unfold linked. intros Hl. apply elem_of_elements, elem_of_dom.
  destruct (m !! a); [done|]. by apply elem_of_empty in Hl.
Qed.

Lemma full_range (m : gmap Z (gset Z)) (n : Z) :
  (forall key : Z, is_Some (m !! key) -> 0 <= key < n) ->
  Z.of_nat (size m) = n ->
  forall key : Z, 0 <= key < n -> is_Some (m !! key).
Proof.
  intros Hkeys Hsize key Hkey. apply elem_of_dom.
  assert (Hsub : dom m ⊆ (list_to_set (seqZ 0 n) : gset Z)).
  { intros k Hk. apply elem_of_list_to_set, elem_of_seqZ.
    apply elem_of_dom, Hkeys in Hk. lia. }
  assert (Heq : dom m = (list_to_set (seqZ 0 n) : gset Z)).
  { apply set_subseteq_size_eq; [done|].
    rewrite size_list_to_set by apply NoDup_seqZ.
    rewrite length_seqZ, size_dom. lia. }
  rewrite Heq. apply elem_of_list_to_set, elem_of_seqZ. lia.
Qed.

(** X16.  In an instance constructed without [accept_loose_pois] whose POI
    ids are not negative, every POI from [0] to [num_pois - 1] is covered by
    a sensor that is not inactive.  The validations compare the ids with the
    number of POIs from above only, so the bound from below is asked
    here. *)
Theorem strict_instance_covers_every_poi
    (get_serialized_instance : Z -> Z -> Z -> Z -> Z -> Z -> Z -> KCMC.exn + string)
    (ids_above : gmap Z (gset Z) -> Z -> string)
    (fuel : nat) (instance_string : string)
    (accept_loose_sensors accept_loose_sinks : bool)
    (inactive_sensors : option (gset string)) (x : KCMC.instance) :
  KCMC.init get_serialized_instance ids_above fuel instance_string
    false accept_loose_sensors accept_loose_sinks inactive_sensors
  = Some (inr x) ->
  (forall p i : Z, linked (KCMC.poi_sensor (KCMC.graph x)) p i -> 0 <= p) ->
  forall p : Z,
    0 <= p < KCMC.num_pois x ->
    exists i : Z,
      linked (KCMC.poi_sensor (KCMC.graph x)) p i
      /\ KCMC.node "i" i ∉ default ∅ inactive_sensors.
Proof.
  intros Hinit Hnonneg p Hp. unfold KCMC.init in Hinit.
  destruct (KCMC.parse_serialized_instance _ _ _ _ _) as [[e|x0]|] eqn:Hparse;
    try done.
  injection Hinit as Hval.
  apply validate_inr in Hval as (-> & [_ Hp2] & _ & _ & Hcp & _).
  apply parse_consistent in Hparse as (Hina & Hc & _). rewrite Hina in Hc.
  destruct Hc.
  assert (Hkey : is_Some (KCMC.poi_sensor (KCMC.graph x0) !! p)).
  { apply (full_range _ (KCMC.num_pois x0)); [|by apply Hcp|done].
    intros key Hk. split; [|by apply Hp2].
    apply linked_key in Hk as [i Hl]; [|done]. by eapply Hnonneg. }
  apply linked_key in Hkey as [i Hl]; [|done].
  exists i. split; [done|]. by eapply poi_active0.
Qed.

Lemma strict_instance_covers_every_poi_witness :
  exists x : KCMC.instance,
    KCMC.init no_evaluator no_ids 0 example_instance false false false None
    = Some (inr x)
    /\ exists i : Z, linked (KCMC.poi_sensor (KCMC.graph x)) 1 i.
Proof.
  destruct (KCMC.init no_evaluator no_ids 0 example_instance false false false
              None)
    as [[e|x]|] eqn:Hrun; [by vm_compute in Hrun| |by vm_compute in Hrun].
  exists x. split; [reflexivity|].
  destruct (strict_instance_covers_every_poi no_evaluator no_ids 0
              example_instance false false None x Hrun) with (p := 1)
    as (i & Hl & _).
  - vm_compute in Hrun. injection Hrun as <-. intros p i Hl.
    apply linked_in_keys in Hl. revert p Hl.
    apply (proj1 (Forall_forall (fun key : Z => 0 <= key) _)).
    apply (bool_decide_unpack _). vm_compute. exact I.
  - vm_compute in Hrun. injection Hrun as <-. simpl. lia.
  - by exists i.
Defined.

(** ** Numerals and key strings *)

Lemma app_nil_string (s : string) : "" +:+ s = s.
Proof. done. Qed.

Lemma app_cons_string (c : ascii) (s t : string) :
  String c s +:+ t = String c (s +:+ t).
Proof. done. Qed.

Lemma all_chars_app (P : ascii -> bool) (s t : string) :
  all_chars P (s +:+ t) = all_chars P s && all_chars P t.
Proof.
  induction s as [|c s IH]; [done|].
  rewrite app_cons_string. simpl. by rewrite IH, andb_assoc.
Qed.

Lemma all_chars_impl (P Q : ascii -> bool) (s : string) :
  (forall c, P c = true -> Q c = true) ->
  all_chars P s = true -> all_chars Q s = true.
Proof.
  intros HPQ. induction s as [|c s IH]; [done|]. simpl.
  intros [Hc Hs]%andb_true_iff. rewrite (HPQ c Hc). by apply IH.
Qed.

Lemma pretty_N_char_digit (d : N) :
  (d < 10)%N -> Py.digit (pretty_N_char d) = Some (Z.of_N d).
Proof.
  intros Hd.
  assert (d = 0 \/ d = 1 \/ d = 2 \/ d = 3 \/ d = 4 \/ d = 5 \/ d = 6 \/ d = 7
          \/ d = 8 \/ d = 9)%N as Hcases by lia.
  repeat (destruct Hcases as [->|Hcases]; [by vm_compute|]). subst. by vm_compute.
Qed.

Lemma pretty_N_go_numeral (x : N) : forall s : string,
  all_chars numeral_char s = true ->
  all_chars numeral_char (pretty_N_go x s) = true.
Proof.
  induction (N.lt_wf_0 x) as [x _ IH]; intros s Hs.
  assert (x = 0 \/ 0 < x)%N as [->|Hpos] by lia.
  - by rewrite pretty_N_go_0.
  - rewrite pretty_N_go_step by done. apply IH; [by apply N.div_lt|].
    simpl. rewrite Hs, andb_true_r. unfold numeral_char.
    rewrite pretty_N_char_digit by (by apply N.mod_lt).
    rewrite (bool_decide_eq_true_2 (Some _ <> None)) by done.
    apply orb_true_r.
Qed.

Lemma pretty_N_numeral (x : N) : all_chars numeral_char (pretty x) = true.
Proof.
  unfold pretty, pretty_N. case_decide; [done|]. by apply pretty_N_go_numeral.
Qed.

Lemma str_numeral (n : Z) : all_chars numeral_char (Py.str n) = true.
Proof.
  unfold Py.str, pretty, pretty_Z. destruct n as [|x|x]; [done|..].
  - apply pretty_N_numeral.
  - rewrite app_cons_string, app_nil_string. simpl. apply pretty_N_numeral.
Qed.

Lemma pretty_N_go_digits (x : N) : forall (s : string) (prev : bool),
  (0 < x)%N ->
  Py.digits (pretty_N_go x s) 0 prev = Py.digits s (Z.of_N x) true.
Proof.
  induction (N.lt_wf_0 x) as [x _ IH]; intros s prev Hpos.
  rewrite pretty_N_go_step by done.
  pose proof (N.mod_lt x 10 ltac:(done)) as Hmod.
  pose proof (N.div_mod x 10 ltac:(done)) as Hdm.
  assert (x `div` 10 = 0 \/ 0 < x `div` 10)%N as [Hz|Hq] by lia.
  - rewrite Hz, pretty_N_go_0. simpl. rewrite pretty_N_char_digit by done.
    f_equal. lia.
  - rewrite IH by (done || by apply N.div_lt). simpl.
    rewrite pretty_N_char_digit by done. f_equal. lia.
Qed.

Lemma numeral_not_space (c : ascii) : numeral_char c = true -> Py.is_space c = false.
Proof.
  destruct c as [[|] [|] [|] [|] [|] [|] [|] [|]]; by vm_compute.
Qed.

Lemma lstrip_head (c : ascii) (s : string) :
  Py.is_space c = false -> Py.lstrip (String c s) = String c s.
Proof. intros H. simpl. by rewrite H. Qed.

Lemma rstrip_no_space (s : string) :
  all_chars (fun c => negb (Py.is_space c)) s = true -> Py.rstrip s = s.
Proof.
  induction s as [|c s IH]; [done|]. simpl.
  intros [Hc Hs]%andb_true_iff. rewrite (IH Hs).
  apply negb_true_iff in Hc. rewrite Hc. by destruct s.
Qed.

Lemma strip_no_space (s : string) :
  all_chars (fun c => negb (Py.is_space c)) s = true -> Py.strip s = s.
Proof.
  intros Hs. unfold Py.strip.
  destruct s as [|c s]; [done|].
  pose proof Hs as Hs'. simpl in Hs'. apply andb_true_iff in Hs' as [Hc _].
  apply negb_true_iff in Hc. rewrite (lstrip_head _ _ Hc).
  by apply rstrip_no_space.
Qed.

Lemma numeral_no_space (s : string) :
  all_chars numeral_char s = true ->
  all_chars (fun c => negb (Py.is_space c)) s = true.
Proof.
  apply all_chars_impl. intros c Hc. by rewrite (numeral_not_space c Hc).
Qed.

Lemma int_unsigned (c : ascii) (s : string) :
  Py.digit c <> None ->
  match String c s with
  | String "-" s' => Z.opp <$> Py.digits s' 0 false
  | String "+" s' => Py.digits s' 0 false
  | s' => Py.digits s' 0 false
  end = Py.digits (String c s) 0 false.
Proof.
  destruct c as [[|] [|] [|] [|] [|] [|] [|] [|]]; intros H; try done.
  all: by vm_compute in H.
Qed.

Lemma int_pretty_N (x : N) : Py.int (pretty x) = Some (Z.of_N x).
Proof.
  unfold Py.int.
  rewrite strip_no_space by apply numeral_no_space, pretty_N_numeral.
  unfold pretty, pretty_N. case_decide as Hx; [by subst|].
  pose proof (pretty_N_go_numeral x "" eq_refl) as Hnum.
  pose proof (pretty_N_go_digits x "" false ltac:(lia)) as Hdig.
  destruct (pretty_N_go x "") as [|c s] eqn:Hgo.
  - simpl in Hdig. done.
  - simpl in Hnum. apply andb_true_iff in Hnum as [Hc _].
    unfold numeral_char in Hc. apply orb_true_iff in Hc as [Hc|Hc].
    + apply bool_decide_eq_true in Hc. subst c. by simpl in Hdig.
    + apply bool_decide_eq_true in Hc. rewrite int_unsigned by done.
      by rewrite Hdig.
Qed.

Lemma int_str (n : Z) : Py.int (Py.str n) = Some n.
Proof.
  unfold Py.str. destruct n as [|x|x].
  - done.
  - change (pretty (Z.pos x)) with (pretty (N.pos x)). by rewrite int_pretty_N.
  - change (pretty (Z.neg x)) with ("-" +:+ pretty (N.pos x)).
    unfold Py.int.
    rewrite strip_no_space by apply numeral_no_space, (str_numeral (Z.neg x)).
    rewrite app_cons_string, app_nil_string.
    pose proof (int_pretty_N (N.pos x)) as Hint. unfold Py.int in Hint.
    rewrite strip_no_space in Hint by apply numeral_no_space, pretty_N_numeral.
    pose proof (pretty_N_go_digits (N.pos x) "" false ltac:(lia)) as Hdig.
    unfold pretty, pretty_N. rewrite decide_False by done. by rewrite Hdig.
Qed.

Lemma split_field (sep : ascii) (a b : string) :
  all_chars (fun c => negb (bool_decide (c = sep))) a = true ->
  Py.split sep (a +:+ String sep b) = a :: Py.split sep b.
Proof.
  induction a as [|c a IH]; intros Ha.
  - rewrite app_nil_string. simpl. by rewrite bool_decide_eq_true_2.
  - simpl in Ha. apply andb_true_iff in Ha as [Hc Ha].
    rewrite app_cons_string. simpl.
    apply negb_true_iff in Hc. rewrite Hc. by rewrite (IH Ha).
Qed.

Lemma split_last (sep : ascii) (a : string) :
  all_chars (fun c => negb (bool_decide (c = sep))) a = true ->
  Py.split sep a = [a].
Proof.
  induction a as [|c a IH]; intros Ha; [done|].
  simpl in Ha. apply andb_true_iff in Ha as [Hc Ha]. simpl.
  apply negb_true_iff in Hc. rewrite Hc. by rewrite (IH Ha).
Qed.

Lemma numeral_without (sep : ascii) (s : string) :
  numeral_char sep = false ->
  all_chars numeral_char s = true ->
  all_chars (fun c => negb (bool_decide (c = sep))) s = true.
Proof.
  intros Hsep. apply all_chars_impl. intros c Hc.
  apply negb_true_iff, bool_decide_eq_false. intros ->. congruence.
Qed.

Lemma upper_app (s t : string) : KCMC.upper (s +:+ t) = KCMC.upper s +:+ KCMC.upper t.
Proof.
  induction s as [|c s IH]; [done|].
  rewrite app_cons_string. simpl. by rewrite IH.
Qed.

Lemma upper_numeral (s : string) :
  all_chars numeral_char s = true -> KCMC.upper s = s.
Proof.
  induction s as [|c s IH]; [done|]. simpl.
  intros [Hc Hs]%andb_true_iff. rewrite (IH Hs). f_equal.
  destruct c as [[|] [|] [|] [|] [|] [|] [|] [|]]; by vm_compute in Hc |- *.
Qed.

Lemma endswith_app (suffix s : string) : KCMC.endswith suffix (s +:+ suffix) = true.
Proof.
  induction s as [|c s IH].
  - rewrite app_nil_string. destruct suffix as [|c t]; [done|].
    simpl. by rewrite bool_decide_eq_true_2.
  - rewrite app_cons_string. simpl. rewrite IH. apply orb_true_r.
Qed.

Lemma contains_SK (s : string) :
  all_chars (fun c => negb (bool_decide (c = "S"%char))) s = true ->
  KCMC.contains ";SK;" s = false.
Proof.
  induction s as [|c s IH]; [done|]. simpl.
  intros [Hc Hs]%andb_true_iff. rewrite (IH Hs), orb_false_r.
  destruct s as [|c' s]; [by rewrite andb_false_r|].
  simpl in Hs. apply andb_true_iff in Hs as [Hc' _].
  apply negb_true_iff, bool_decide_eq_false in Hc'.
  rewrite (bool_decide_eq_false_2 ("S"%char = c')) by congruence.
  by rewrite andb_false_r.
Qed.

Lemma string_app_assoc (a b c : string) : (a +:+ b) +:+ c = a +:+ (b +:+ c).
Proof.
  induction a as [|ch a IH]; [done|]. rewrite !app_cons_string. by rewrite IH.
Qed.

Lemma app_nonempty (a b : string) : b <> "" -> a +:+ b <> "".
Proof. intros Hb. destruct a; [done|]. by rewrite app_cons_string. Qed.

Lemma rstrip_app_keep (a b : string) :
  Py.rstrip b = b -> b <> "" -> Py.rstrip (a +:+ b) = a +:+ b.
Proof.
  intros Hb Hne. induction a as [|c a IH]; [done|].
  rewrite app_cons_string. simpl. rewrite IH.
  pose proof (app_nonempty a b Hne) as Hab. by destruct (a +:+ b).
Qed.

Lemma endswith_right (suffix a b : string) :
  KCMC.endswith suffix b = true -> KCMC.endswith suffix (a +:+ b) = true.
Proof.
  intros Hb. induction a as [|c a IH]; [done|].
  rewrite app_cons_string. simpl. rewrite IH. apply orb_true_r.
Qed.

(** The fields of a key string, cut at the semicolons. *)
Lemma key_str_fields (x : KCMC.instance) :
  KCMC.key_str x
  = "KCMC" +:+ String ";"
      ((Py.str (KCMC.num_pois x) +:+ String " "
          (Py.str (KCMC.num_sensors x) +:+ String " " (Py.str (KCMC.num_sinks x))))
       +:+ String ";"
         ((Py.str (KCMC.area_side x) +:+ String " "
             (Py.str (KCMC.sensor_coverage_radius x) +:+ String " "
                (Py.str (KCMC.sensor_communication_radius x))))
          +:+ String ";" (Py.str (KCMC.random_seed x) +:+ String ";" "END"))).
Proof.
  unfold KCMC.key_str.
  repeat first [rewrite string_app_assoc | rewrite app_cons_string
               | rewrite app_nil_string].
  done.
Qed.

Lemma key_str_clean (x : KCMC.instance) :
  Py.strip (KCMC.upper (KCMC.key_str x)) = KCMC.key_str x.
Proof.
  assert (Hup : KCMC.upper (KCMC.key_str x) = KCMC.key_str x).
  { unfold KCMC.key_str. rewrite !upper_app.
    rewrite !(upper_numeral (Py.str _)) by apply str_numeral. done. }
  rewrite Hup. unfold Py.strip.
  assert (Hl : Py.lstrip (KCMC.key_str x) = KCMC.key_str x) by done.
  rewrite Hl. unfold KCMC.key_str.
  repeat (apply rstrip_app_keep; [|by repeat apply app_nonempty]).
  done.
Qed.

Lemma split_three (a b c : Z) :
  Py.split " " (Py.str a +:+ String " " (Py.str b +:+ String " " (Py.str c)))
  = [Py.str a; Py.str b; Py.str c].
Proof.
  rewrite split_field by (by apply numeral_without, str_numeral).
  rewrite split_field by (by apply numeral_without, str_numeral).
  by rewrite split_last by (by apply numeral_without, str_numeral).
Qed.

Lemma key_str_split (x : KCMC.instance) :
  Py.split ";" (KCMC.key_str x)
  = ["KCMC";
     Py.str (KCMC.num_pois x) +:+ String " "
       (Py.str (KCMC.num_sensors x) +:+ String " " (Py.str (KCMC.num_sinks x)));
     Py.str (KCMC.area_side x) +:+ String " "
       (Py.str (KCMC.sensor_coverage_radius x) +:+ String " "
          (Py.str (KCMC.sensor_communication_radius x)));
     Py.str (KCMC.random_seed x);
     "END"].
Proof.
  assert (Hfield : forall a b c : Z,
            all_chars (fun ch => negb (bool_decide (ch = ";"%char)))
              (Py.str a +:+ String " " (Py.str b +:+ String " " (Py.str c)))
            = true).
  { intros a b c. rewrite !all_chars_app. simpl. rewrite !all_chars_app. simpl.
    by rewrite !(numeral_without ";" (Py.str _)) by (done || apply str_numeral). }
  rewrite key_str_fields.
  rewrite split_field by done.
  rewrite split_field by apply Hfield.
  rewrite split_field by apply Hfield.
  rewrite split_field by (by apply numeral_without, str_numeral).
  done.
Qed.

Lemma key_str_preamble (x : KCMC.instance) :
  KCMC.preamble (Py.split ";" (KCMC.key_str x))
  = Some (KCMC.num_pois x, KCMC.num_sensors x, KCMC.num_sinks x,
          KCMC.area_side x, KCMC.sensor_coverage_radius x,
          KCMC.sensor_communication_radius x, KCMC.random_seed x).
Proof.
  rewrite key_str_split. unfold KCMC.preamble. simpl.
  rewrite !split_three. by rewrite !int_str.
Qed.

(** X17.  Parsing a key string reads back the numbers that the key was made
    of, whatever they are: the string holds no edge, so the instance is asked
    from the evaluator for exactly these seven numbers, and its output is
    parsed in its place with the same inactive sensors. *)
Theorem key_str_is_read_back
    (get_serialized_instance : Z -> Z -> Z -> Z -> Z -> Z -> Z -> KCMC.exn + string)
    (fuel : nat) (acceptance : bool * bool * bool) (x : KCMC.instance)
    (inactive_sensors : option (gset string)) :
  KCMC.parse_serialized_instance get_serialized_instance (S fuel) acceptance
    (KCMC.key_str x) inactive_sensors
  = match get_serialized_instance (KCMC.num_pois x) (KCMC.num_sensors x)
            (KCMC.num_sinks x) (KCMC.area_side x)
            (KCMC.sensor_coverage_radius x)
            (KCMC.sensor_communication_radius x) (KCMC.random_seed x) with
    | inl e => Some (inl e)
    | inr regenerated =>
        KCMC.parse_serialized_instance get_serialized_instance fuel acceptance
          regenerated (Some (default ∅ inactive_sensors))
    end.
Proof.
  cbn [KCMC.parse_serialized_instance]. rewrite key_str_clean.
  assert (Hstart : KCMC.startswith "KCMC;" (KCMC.key_str x) = true) by done.
  assert (Hend : KCMC.endswith ";END" (KCMC.key_str x) = true).
  { unfold KCMC.key_str. by repeat apply endswith_right. }
  assert (Hsk : KCMC.contains ";SK;" (KCMC.key_str x) = false).
  { apply contains_SK. unfold KCMC.key_str. rewrite !all_chars_app. simpl.
    by rewrite !(numeral_without "S" (Py.str _)) by (done || apply str_numeral). }
  rewrite Hstart, Hend, Hsk. simpl negb. cbv iota.
  rewrite key_str_preamble. rewrite key_str_split. done.
Qed.

(** ** The branch that is never taken *)

Lemma add_edge_known_tag (inactive_sensors : gset string) (tag : string)
    (alpha beta : Z) (is_expanded : bool) (b : KCMC.buffers) (e : KCMC.exn) :
  tag ∈ ["PI"; "II"; "IS"] ->
  KCMC.add_edge inactive_sensors tag alpha beta is_expanded b = inl e ->
  e = KCMC.AssertionError "SELF-DIRECTED EDGES ARE NOT SUPPORTED".
Proof.
  intros Htag. unfold KCMC.add_edge.
  repeat case_bool_decide; try done; try by intros [= <-].
  exfalso. repeat (apply elem_of_cons in Htag as [->|Htag]; [done|]).
  by apply elem_of_nil in Htag.
Qed.

Lemma read_tokens_known_tag (inactive_sensors : gset string)
    (tokens : list string) :
  forall (i : Z) (tag : option string) (is_expanded : bool) (b : KCMC.buffers)
         (e : KCMC.exn) (t : string),
  (forall tg, tag = Some tg -> tg ∈ ["PI"; "II"; "IS"]) ->
  KCMC.read_tokens inactive_sensors tokens i tag is_expanded b = inl e ->
  e <> KCMC.AssertionError ("IMPOSSIBLE TAG " +:+ t).
Proof.
  induction tokens as [|token rest IH]; intros i tag ie b e t Htag Hrun;
    simpl in Hrun; [done|].
  case_bool_decide as Htok.
  { eapply IH; [|exact Hrun]. by intros tg [= <-]. }
  destruct tag as [tg|]; [|by injection Hrun as <-].
  destruct (KCMC.unpack_pair _) as [e'|[alpha beta]] eqn:Hpair.
  { injection Hrun as <-. unfold KCMC.unpack_pair, KCMC.int in Hpair.
    repeat case_match; by simplify_eq. }
  destruct (KCMC.add_edge inactive_sensors tg alpha beta ie b)
    as [e'|[ie1 b1]] eqn:Hadd.
  - injection Hrun as <-.
    by rewrite (add_edge_known_tag _ _ _ _ _ _ _ (Htag tg eq_refl) Hadd).
  - by eapply IH.
Qed.

(** X18.  The last branch of the loop over the tokens is never taken: the
    tag is one of [PI], [II] and [IS] whenever a token is read under it, so
    parsing never raises the error [IMPOSSIBLE TAG], unless the call of the
    evaluator program raises it. *)
Theorem impossible_tag_is_impossible
    (get_serialized_instance : Z -> Z -> Z -> Z -> Z -> Z -> Z -> KCMC.exn + string)
    (fuel : nat) (acceptance : bool * bool * bool) (instance_string : string)
    (inactive_sensors : option (gset string)) (t : string) :
  (forall p i s a cv cm r : Z,
      get_serialized_instance p i s a cv cm r
      <> inl (KCMC.AssertionError ("IMPOSSIBLE TAG " +:+ t))) ->
  KCMC.parse_serialized_instance get_serialized_instance fuel acceptance
    instance_string inactive_sensors
  <> Some (inl (KCMC.AssertionError ("IMPOSSIBLE TAG " +:+ t))).
Proof.
  intros Hgsi. revert instance_string inactive_sensors.
  induction fuel as [|fuel IH]; intros s ina;
    cbn [KCMC.parse_serialized_instance].
  all: destruct (negb (KCMC.startswith _ _)); [done|].
  all: destruct (negb (KCMC.endswith _ _)); [done|].
  all: destruct (KCMC.preamble _) as [[[[[[[p i] sk] a] cv] cm] r]|]; [|done].
  all: destruct (KCMC.read_tokens _ _ _ _ _ _) as [e|[[|] b]] eqn:Hrt;
    [|done|].
  all: try (intros [= ->];
            apply (read_tokens_known_tag _ _ _ _ _ _ _ t) in Hrt;
            [done|by intros tg [=]]).
  - done.
  - destruct (get_serialized_instance p i sk a cv cm r) as [e|regenerated] eqn:Hg;
      [|apply IH].
    intros [= ->]. by eapply Hgsi.
Qed.

Lemma impossible_tag_is_impossible_witness :
  KCMC.parse_serialized_instance no_evaluator 1 (false, false, false)
    "KCMC;2 3 1;100 10 20;7;END" None
  <> Some (inl (KCMC.AssertionError ("IMPOSSIBLE TAG " +:+ "PI"))).
Proof.
  apply (impossible_tag_is_impossible no_evaluator 1 (false, false, false)
           "KCMC;2 3 1;100 10 20;7;END" None "PI").
  intros p i s a cv cm r. discriminate.
Defined.
